(** * map_gen_golang: seeded gradient noise, height field and Poisson-disk sampler

    A shallow embedding of [perlin/perlin.go], [poi/poi.go] and the generation
    part of [main.go] ([clamp01], [updateImage] with its colours and markers,
    [triggerUpdate], and a run of [updateImage] beside the callbacks that
    assign the variables it reads).

    Numbers.  A Go [int]/[int64] is a [Z]; the programs here never leave the
    64-bit range on the rasters they are run on, and the only bit operation,
    [& 255] and [& 3], is [Z.land], which agrees with two's complement on
    negative operands.  A [float64] is modelled by the rational number it
    denotes, and [+ - * /] and the comparisons by exact rational arithmetic,
    with one exception: the sum [seaLevel+0.05] of poi.go, which decides
    between land and ocean, is rounded to binary64 as the machine rounds it
    ([round64]).  Elsewhere rounding error, infinities and NaN are outside the
    rational model.  The functions of Go's [math] package that are not
    rational ([Cos], [Sin], [Pow], [Hypot]) are parameters of the sections
    that use them.  The noise functions, the radius of line 56 of poi.go, the
    height of a pixel and [clamp01] are also given a second reading
    ([perlin64], [poi64], [main64]) in binary64 arithmetic, to run them bit
    for bit where rounding, an infinity or a NaN decides.

    Randomness.  [math/rand] is not part of the repository: a generator is any
    implementation of the interface [Rand] below, which records the documented
    results of [Intn], [Float64] and [Perm]. *)

From Stdlib Require Import ZArith QArith Qround Qabs Qpower Lia Lqa Permutation
  Floats.
From Stdlib Require Uint63.
From stdpp Require Import base option list gmap.

Local Open Scope Z_scope.

(** ** Numeric conversions *)

(** [math.Floor], whose result is an integer-valued float. *)
Definition math_Floor (q : Q) : Q := inject_Z (Qfloor q).

(** [math.Ceil]. *)
Definition math_Ceil (q : Q) : Q := inject_Z (Qceiling q).

(** [math.Round]: nearest integer, halves away from zero. *)
Definition math_Round (q : Q) : Q :=
  if Qle_bool 0 q then inject_Z (Qfloor (q + (1 # 2)))
  else inject_Z (Qceiling (q - (1 # 2))).

(** The conversion [int(f)] of a float: the fraction is discarded. *)
Definition int (q : Q) : Z := Z.quot (Qnum q) (Z.pos (Qden q)).

(** The conversion [float64(n)] of an integer. *)
Definition float64 (n : Z) : Q := inject_Z n.

(** [math.Sqrt2] and [math.Pi] as the float64 values they are rounded to. *)
Definition math_Sqrt2 : Q := 6369051672525773 # 4503599627370496.
Definition math_Pi : Q := 884279719003555 # 281474976710656.

(** *** Rounding to binary64

    The result of a float64 operation is the exact result rounded to the
    nearest binary64 value, ties to the even significand.  [round64] is that
    rounding on the rationals, for results below the overflow threshold
    [2^1024]: 53 significant bits, and multiples of [2^-1074] in the
    subnormal range. *)

(** Nearest integer, a tie going to the even one. *)
Definition roundEven (q : Q) : Z :=
  let f := Qfloor q in
  match Qcompare (q - inject_Z f) (1 # 2) with
  | Lt => f
  | Gt => f + 1
  | Eq => if Z.even f then f else f + 1
  end.

(** The exponent [l] with [2^l <= q < 2^(l+1)], for a positive [q]. *)
Definition ilog2 (q : Q) : Z :=
  let l := Z.log2 (Qnum q) - Z.log2 (Z.pos (Qden q)) in
  if Qle_bool (2 ^ l) q then l else l - 1.

(** The exponent of the unit in the last place of the binary64 values
    around [q]. *)
Definition ulpExp (q : Q) : Z := Z.max (ilog2 (Qabs q) - 52) (-1074).

Definition round64 (q : Q) : Q :=
  if Qeq_bool q 0 then 0%Q else
  let e := ulpExp q in
  let r := Qred (inject_Z (roundEven (Qabs q / 2 ^ e)) * 2 ^ e) in
  if Qle_bool 0 q then r else (- r)%Q.

(** The rational denoted by a finite binary64 value, to compare [round64]
    with the machine's operations. *)
Definition valueOf (f : float) : Q :=
  match Prim2SF f with
  | S754_finite s m e =>
      let v := (inject_Z (Z.pos m) * 2 ^ e)%Q in if s then (- v)%Q else v
  | _ => 0%Q
  end.

(** Outcome of a computation that may panic or, in the model, exhaust the
    fuel that bounds an unbounded [for] loop. *)
Inductive outcome (A : Type) : Type :=
  | Done (a : A)
  | Panic
  | OutOfFuel.
Arguments Done {A} a.
Arguments Panic {A}.
Arguments OutOfFuel {A}.

#[global] Instance outcome_bind : MBind outcome := fun A B f m =>
  match m with
  | Done a => f a
  | Panic => Panic
  | OutOfFuel => OutOfFuel
  end.

(** A failed index or allocation is a panic. *)
Definition orPanic {A : Type} (o : option A) : outcome A :=
  match o with
  | Some a => Done a
  | None => Panic
  end.

(** Slice indexing [s[i]]: outside [0, len(s)) the program panics. *)
Definition index {A : Type} (s : list A) (i : Z) : option A :=
  if decide (0 <= i) then s !! Z.to_nat i else None.

(** Slice assignment [s[i] = v]. *)
Definition store {A : Type} (s : list A) (i : Z) (v : A) : option (list A) :=
  if decide (0 <= i < Z.of_nat (length s)) then Some (<[Z.to_nat i := v]> s)
  else None.

(** ** The random generator interface ([math/rand]) *)

Class Rand (R : Type) : Type := {
  (** [rand.New(rand.NewSource(seed))] *)
  NewRand : Z -> R;
  (** [r.Intn(n)], for [0 < n] *)
  Intn : Z -> R -> Z * R;
  (** [r.Float64()] *)
  Float64 : R -> Q * R;
  (** [r.Perm(n)] *)
  Perm : Z -> R -> list Z * R;
  Intn_range : forall n r, 0 < n -> 0 <= fst (Intn n r) < n;
  Float64_range : forall r, (0 <= fst (Float64 r))%Q /\ (fst (Float64 r) < 1)%Q;
  Perm_permutation : forall n r, 0 <= n ->
    Permutation (fst (Perm n r)) (Z.of_nat <$> seq 0 (Z.to_nat n))
}.

(** ** perlin/perlin.go *)

Module perlin.

(** [type Perlin struct { p []int }] *)
Record Perlin : Type := mkPerlin { p : list Z }.

(** The loop of [NewPerlin]: [n] iterations are left, starting at [i]. *)
Fixpoint fill (base : list Z) (n : nat) (i : Z) (tbl : list Z) : option (list Z) :=
  match n with
  | O => Some tbl
  | S n' =>
      b ← index base i;
      tbl1 ← store tbl i b;
      b' ← index base i;
      tbl2 ← store tbl1 (256 + i) b';
      fill base n' (i + 1) tbl2
  end.

Definition NewPerlin `{Rand R} (seed : Z) : option Perlin :=
  let r : R := NewRand seed in
  let base := fst (Perm 256 r) in
  mkPerlin <$> fill base 256 0 (replicate 512 0).

Definition fade (t : Q) : Q := (t * t * t * (t * (t * 6 - 15) + 10))%Q.

Definition lerp (t a b : Q) : Q := (a + t * (b - a))%Q.

Definition grad (hash : Z) (x y : Q) : Q :=
  match Z.land hash 3 with
  | 0 => (x + y)%Q
  | 1 => (- x + y)%Q
  | 2 => (x - y)%Q
  | _ => (- x - y)%Q
  end.

Definition Noise2DRaw (P : Perlin) (x y freq : Q) : option Q :=
  let xf := (x * freq)%Q in
  let yf := (y * freq)%Q in
  let xi := Z.land (int (math_Floor xf)) 255 in
  let yi := Z.land (int (math_Floor yf)) 255 in
  let xf := (xf - math_Floor xf)%Q in
  let yf := (yf - math_Floor yf)%Q in
  let u := fade xf in
  let v := fade yf in
  aa ← (a ← index (p P) xi; index (p P) (a + yi));
  ab ← (a ← index (p P) xi; index (p P) (a + yi + 1));
  ba ← (b ← index (p P) (xi + 1); index (p P) (b + yi));
  bb ← (b ← index (p P) (xi + 1); index (p P) (b + yi + 1));
  let x1 := lerp u (grad aa xf yf) (grad ba (xf - 1) yf) in
  let x2 := lerp u (grad ab xf (yf - 1)) (grad bb (xf - 1) (yf - 1)) in
  Some (lerp v x1 x2).

Definition Noise2D (P : Perlin) (x y freq : Q) : option Q :=
  raw ← Noise2DRaw P x y freq; Some ((raw + 1) * (1 # 2))%Q.

(** The loop of [FBM2DRaw] with [n] iterations left; it returns the final
    [total] and [maxAmp]. *)
Fixpoint fbmLoop (P : Perlin) (x y persistence lacunarity : Q) (n : nat)
    (total amplitude frequency maxAmp : Q) : option (Q * Q) :=
  match n with
  | O => Some (total, maxAmp)
  | S n' =>
      v ← Noise2DRaw P x y frequency;
      fbmLoop P x y persistence lacunarity n'
        (total + v * amplitude)%Q (amplitude * persistence)%Q
        (frequency * lacunarity)%Q (maxAmp + amplitude)%Q
  end.

Definition FBM2DRaw (P : Perlin) (x y baseFreq : Q) (octaves : Z)
    (persistence lacunarity : Q) : option Q :=
  '(total, maxAmp) ← fbmLoop P x y persistence lacunarity (Z.to_nat octaves)
                        0 1 baseFreq 0;
  if Qeq_bool maxAmp 0 then Some 0%Q else Some (total / maxAmp)%Q.

Definition FBM2D (P : Perlin) (x y baseFreq octaves persistence lacunarity : Q)
    : option Q :=
  let octs := int octaves in
  raw ← FBM2DRaw P x y baseFreq octs persistence lacunarity;
  Some ((raw + 1) * (1 # 2))%Q.

Definition NoiseFlow (P : Perlin) (x y freq : Q) : option (Q * Q) :=
  xFlow ← Noise2DRaw P x y freq;
  yFlow ← Noise2DRaw P (x + 100) (y + 100) freq;
  Some (xFlow, yFlow).

End perlin.

(** ** perlin/perlin.go in binary64 arithmetic

    The same functions with [float64] read as Rocq's primitive binary64
    floats, whose [+ - * /] round to nearest, ties to even, as Go's do. *)

Module perlin64.

(** The greatest integer not above a finite float. *)
Definition floorZ (f : float) : Z :=
  match Prim2SF f with
  | S754_finite s m e =>
      if 0 <=? e then (if s then - (Z.pos m * 2 ^ e) else Z.pos m * 2 ^ e)
      else if s then - ((Z.pos m + 2 ^ (- e) - 1) / 2 ^ (- e))
      else Z.pos m / 2 ^ (- e)
  | _ => 0
  end.

(** [float64(n)], for an integer of magnitude below [2^63]. *)
Definition ofZ (z : Z) : float :=
  if z <? 0 then PrimFloat.opp (PrimFloat.of_uint63 (Uint63.of_Z (- z)))
  else PrimFloat.of_uint63 (Uint63.of_Z z).

(** [math.Floor]: a float that has no fraction bits, a zero, an infinity and
    NaN are returned as they are. *)
Definition math_Floor (f : float) : float :=
  match Prim2SF f with
  | S754_finite _ _ e => if 0 <=? e then f else ofZ (floorZ f)
  | _ => f
  end.

(** The conversion [int(f)]: the fraction is discarded.  Go leaves the result
    for an infinity, NaN or a value outside the range of [int] to the
    implementation; here the first two convert to 0. *)
Definition int (f : float) : Z :=
  match Prim2SF f with
  | S754_finite s m e =>
      let a := if 0 <=? e then Z.pos m * 2 ^ e else Z.pos m / 2 ^ (- e) in
      if s then - a else a
  | _ => 0
  end.

Definition fade (t : float) : float :=
  (t * t * t * (t * (t * 6 - 15) + 10))%float.

Definition lerp (t a b : float) : float := (a + t * (b - a))%float.

Definition grad (hash : Z) (x y : float) : float :=
  match Z.land hash 3 with
  | 0 => (x + y)%float
  | 1 => (- x + y)%float
  | 2 => (x - y)%float
  | _ => (- x - y)%float
  end.

Definition Noise2DRaw (P : perlin.Perlin) (x y freq : float) : option float :=
  let xf := (x * freq)%float in
  let yf := (y * freq)%float in
  let xi := Z.land (int (math_Floor xf)) 255 in
  let yi := Z.land (int (math_Floor yf)) 255 in
  let xf := (xf - math_Floor xf)%float in
  let yf := (yf - math_Floor yf)%float in
  let u := fade xf in
  let v := fade yf in
  aa ← (a ← index (perlin.p P) xi; index (perlin.p P) (a + yi));
  ab ← (a ← index (perlin.p P) xi; index (perlin.p P) (a + yi + 1));
  ba ← (b ← index (perlin.p P) (xi + 1); index (perlin.p P) (b + yi));
  bb ← (b ← index (perlin.p P) (xi + 1); index (perlin.p P) (b + yi + 1));
  let x1 := lerp u (grad aa xf yf) (grad ba (xf - 1) yf) in
  let x2 := lerp u (grad ab xf (yf - 1)) (grad bb (xf - 1) (yf - 1)) in
  Some (lerp v x1 x2).

Fixpoint fbmLoop (P : perlin.Perlin) (x y persistence lacunarity : float)
    (n : nat) (total amplitude frequency maxAmp : float) : option (float * float) :=
  match n with
  | O => Some (total, maxAmp)
  | S n' =>
      v ← Noise2DRaw P x y frequency;
      fbmLoop P x y persistence lacunarity n'
        (total + v * amplitude)%float (amplitude * persistence)%float
        (frequency * lacunarity)%float (maxAmp + amplitude)%float
  end.

Definition FBM2DRaw (P : perlin.Perlin) (x y baseFreq : float) (octaves : Z)
    (persistence lacunarity : float) : option float :=
  '(total, maxAmp) ← fbmLoop P x y persistence lacunarity (Z.to_nat octaves)
                        0 1 baseFreq 0;
  if PrimFloat.eqb maxAmp 0 then Some 0%float else Some (total / maxAmp)%float.

Definition NoiseFlow (P : perlin.Perlin) (x y freq : float)
    : option (float * float) :=
  xFlow ← Noise2DRaw P x y freq;
  yFlow ← Noise2DRaw P (x + 100)%float (y + 100)%float freq;
  Some (xFlow, yFlow).

End perlin64.

(** ** poi/poi.go *)

Module poi.

(** [type Point struct { X int; Y int }] *)
Record Point : Type := mkPoint { X : Z; Y : Z }.

#[global] Instance Point_eq_dec : EqDecision Point.
Proof. solve_decision. Defined.

#[global] Instance Point_countable : Countable Point.
Proof.
  refine (inj_countable' (fun q => (X q, Y q)) (fun c => mkPoint c.1 c.2) _).
  intros []; reflexivity.
Defined.

(** The zero value [Point{}]. *)
Definition zero : Point := mkPoint 0 0.

(** A map read [m[q]]: a missing key reads as the zero value. *)
Definition mapGet (m : gmap Point Q) (q : Point) : Q := default 0%Q (m !! q).

(** The float64 nearest to [0.05]. *)
Definition c_0_05 : Q := 3602879701896397 # 72057594037927936.

(** [grid[x][y]] and [grid[x][y] = v] on a slice of slices. *)
Definition gridGet (g : list (list Point)) (x y : Z) : option Point :=
  col ← index g x; index col y.

Definition gridSet (g : list (list Point)) (x y : Z) (v : Point)
    : option (list (list Point)) :=
  col ← index g x; col' ← store col y v; store g x col'.

(** The values [-2 .. 2] added to [gridX] and [gridY] by the two window loops. *)
Definition offsets : list Z := [-2; -1; 0; 1; 2].

(** Working state of the sampler. *)
Record state (R : Type) : Type := mkState {
  points : list Point;
  activePoints : list Point;
  grid : list (list Point);
  rng : R
}.
Arguments mkState {R} _ _ _ _.
Arguments points {R} _.
Arguments activePoints {R} _.
Arguments grid {R} _.
Arguments rng {R} _.

Section PoissonDisk.
Context `{Rand R}.
(** [math.Cos] and [math.Sin] *)
Variables Cos Sin : Q -> Q.
Variables minDistance width height : Z.
Variable noiseMap : gmap Point Q.
Variable seaLevel : Q.

Definition cellSize : Q := (float64 minDistance / math_Sqrt2)%Q.
Definition gridWidth : Z := int (math_Ceil (float64 width / cellSize)).
Definition gridHeight : Z := int (math_Ceil (float64 height / cellSize)).

(** [make([][]Point, gridWidth)] and the loop that allocates each column;
    [make] panics on a negative length. *)
Definition makeGrid : option (list (list Point)) :=
  if decide (gridWidth < 0) then None
  else if decide (0 < gridWidth /\ gridHeight < 0) then None
  else Some (replicate (Z.to_nat gridWidth) (replicate (Z.to_nat gridHeight) zero)).

(** The right-hand side [seaLevel+0.05] of the two land tests (lines 36 and
    64): a float64 sum, hence rounded.  For a [seaLevel] that is a float64
    value this is the sum the machine computes, short of overflow. *)
Definition landThreshold : Q := round64 (seaLevel + c_0_05).

(** [noiseMap[q] >= seaLevel+0.05] *)
Definition onLand (q : Point) : bool :=
  Qle_bool landThreshold (mapGet noiseMap q).

(** The initial [for] loop: a random point until one is on land.
    [r.Intn(n)] panics unless [0 < n]. *)
Fixpoint seekLand (fuel : nat) (r : R) : outcome (Point * R) :=
  match fuel with
  | O => OutOfFuel
  | S fuel' =>
      if decide (width <= 0) then Panic else
      let '(x, r1) := Intn width r in
      if decide (height <= 0) then Panic else
      let '(y, r2) := Intn height r1 in
      let startPoint := mkPoint x y in
      if onLand startPoint then Done (startPoint, r2)
      else seekLand fuel' r2
  end.

(** Lines 74-75: [dist := math.Sqrt(math.Pow(dx, 2) + math.Pow(dy, 2))] and
    [dist < float64(minDistance)].  For integers [dx], [dy] the square root
    of [dx^2 + dy^2] is below [minDistance] exactly when [minDistance] is
    positive and [dx^2 + dy^2 < minDistance^2]. *)
Definition tooClose (a b : Point) : bool :=
  (0 <? minDistance) && ((X a - X b) ^ 2 + (Y a - Y b) ^ 2 <? minDistance ^ 2).

(** The body of the two window loops at cell [(x, y)]. *)
Definition checkCell (g : list (list Point)) (newPoint : Point) (ok : bool)
    (x y : Z) : option bool :=
  if (0 <=? x) && (x <? gridWidth) && (0 <=? y) && (y <? gridHeight) then
    q ← gridGet g x y;
    if decide (q <> zero) then
      if tooClose newPoint q then Some false else Some ok
    else Some ok
  else Some ok.

Definition checkWindow (g : list (list Point)) (newPoint : Point)
    (gridX gridY : Z) : option bool :=
  foldl (fun acc dx =>
           foldl (fun acc dy =>
                    ok ← acc; checkCell g newPoint ok (gridX + dx) (gridY + dy))
                 acc offsets)
        (Some true) offsets.

(** Line 55: [angle := r.Float64() * 2 * math.Pi], for the draw [u]. *)
Definition angleOf (u : Q) : Q := (u * 2 * math_Pi)%Q.

(** Line 56: [dist := r.Float64()*(float64(minDistance)*2) + float64(minDistance)]. *)
Definition distOf (u : Q) : Q :=
  (u * (float64 minDistance * 2) + float64 minDistance)%Q.

(** Lines 55-61: one candidate around [q]. *)
Definition candidate (q : Point) (r : R) : Point * R :=
  let '(u1, r1) := Float64 r in
  let angle := angleOf u1 in
  let '(u2, r2) := Float64 r1 in
  let dist := distOf u2 in
  (mkPoint (int (math_Round (float64 (X q) + Cos angle * dist)))
           (int (math_Round (float64 (Y q) + Sin angle * dist))), r2).

Definition inBounds (q : Point) : bool :=
  (0 <=? X q) && (X q <? width) && (0 <=? Y q) && (Y q <? height).

Definition withRng (st : state R) (r : R) : state R :=
  mkState (points st) (activePoints st) (grid st) r.

(** The loop [for i := 0; i < 30; i++] with [n] iterations left; the
    boolean is [foundCandidate]. *)
Fixpoint attempts (n : nat) (q : Point) (st : state R) : option (bool * state R) :=
  match n with
  | O => Some (false, st)
  | S n' =>
      let '(newPoint, r') := candidate q (rng st) in
      if inBounds newPoint && onLand newPoint then
        let gridX := int (float64 (X newPoint) / cellSize) in
        let gridY := int (float64 (Y newPoint) / cellSize) in
        ok ← checkWindow (grid st) newPoint gridX gridY;
        if ok : bool then
          g ← gridSet (grid st) gridX gridY newPoint;
          Some (true, mkState (points st ++ [newPoint])
                              (activePoints st ++ [newPoint]) g r')
        else attempts n' q (withRng st r')
      else attempts n' q (withRng st r')
  end.

(** The loop [for len(activePoints) > 0]. *)
Fixpoint activeLoop (fuel : nat) (st : state R) : outcome (list Point) :=
  match activePoints st with
  | [] => Done (points st)
  | _ :: _ =>
      match fuel with
      | O => OutOfFuel
      | S fuel' =>
          let '(randomIndex, r1) :=
            Intn (Z.of_nat (length (activePoints st))) (rng st) in
          match index (activePoints st) randomIndex with
          | None => Panic
          | Some q =>
              match attempts 30 q (withRng st r1) with
              | None => Panic
              | Some (foundCandidate, st') =>
                  if foundCandidate then activeLoop fuel' st'
                  else activeLoop fuel'
                         (mkState (points st')
                            (delete (Z.to_nat randomIndex) (activePoints st'))
                            (grid st') (rng st'))
              end
          end
      end
  end.

Definition PoissonDisk (fuel : nat) (r : R) : outcome (list Point * Z) :=
  match makeGrid with
  | None => Panic
  | Some g0 =>
      match seekLand fuel r with
      | Done (startPoint, r1) =>
          let gridX := int (float64 (X startPoint) / cellSize) in
          let gridY := int (float64 (Y startPoint) / cellSize) in
          match gridSet g0 gridX gridY startPoint with
          | None => Panic
          | Some g =>
              match activeLoop fuel (mkState [startPoint] [startPoint] g r1) with
              | Done pts => Done (pts, Z.of_nat (length pts))
              | Panic => Panic
              | OutOfFuel => OutOfFuel
              end
          end
      | Panic => Panic
      | OutOfFuel => OutOfFuel
      end
  end.

End PoissonDisk.

End poi.

(** ** main.go: the generation run *)

Module main.

Import perlin poi.

Definition clamp01 (v : Q) : Q :=
  if negb (Qle_bool 0 v) then 0%Q
  else if negb (Qle_bool v 1) then 1%Q
  else v.

(** The variables of [main] that [updateImage] reads. *)
Record Params : Type := mkParams {
  seed : Z;
  scale : Q;
  octavesFloat : Q;
  persistence : Q;
  lacunarity : Q;
  continentFreq : Q;
  continentOctavesFloat : Q;
  continentWeight : Q;
  falloff : Q;
  falloffWeight : Q;
  seaLevel : Q;
  minDistance : Z;
  flowScale : Q;
  flowStrength : Q
}.

Section Generation.
Context `{Rand R}.
(** [math.Cos], [math.Sin], [math.Pow], [math.Hypot] *)
Variables Cos Sin : Q -> Q.
Variables Pow Hypot : Q -> Q -> Q.
(** The size of the raster: the constants [width] and [height]. *)
Variables width height : Z.

(** Lines 129-147: the height stored at [(x, y)]. *)
Definition noiseValue (P : Perlin) (c : Params) (x y : Z) : option Q :=
  let centerX := (float64 width / 2)%Q in
  let centerY := (float64 height / 2)%Q in
  let maxDist := Hypot centerX centerY in
  let octaves := int (octavesFloat c) in
  let continentOctaves := int (continentOctavesFloat c) in
  '(flowXRaw, flowYRaw) ← NoiseFlow P (float64 x) (float64 y) (flowScale c);
  let dx := (flowXRaw * flowStrength c)%Q in
  let dy := (flowYRaw * flowStrength c)%Q in
  let px := (float64 x + dx)%Q in
  let py := (float64 y + dy)%Q in
  localRaw ← FBM2DRaw P px py (scale c) octaves (persistence c) (lacunarity c);
  continentRaw ← FBM2DRaw P (float64 x) (float64 y) (continentFreq c)
                   continentOctaves (1 # 2) 2;
  let combinedRaw :=
    (localRaw * (1 - continentWeight c) + continentRaw * continentWeight c)%Q in
  let combined := ((combinedRaw + 1) * (1 # 2))%Q in
  let dist := Hypot (float64 x - centerX) (float64 y - centerY) in
  let falloffVal := (Pow (dist / maxDist) (falloff c) * falloffWeight c)%Q in
  Some (clamp01 (combined - falloffVal)).

(** The two raster loops, [y] outside and [x] inside, filling [noiseMap]. *)
Definition fillRow (P : Perlin) (c : Params) (y : Z)
    (acc : option (gmap Point Q)) : option (gmap Point Q) :=
  foldl (fun acc x =>
           m ← acc; v ← noiseValue P c x y; Some (<[mkPoint x y := v]> m))
        acc (seqZ 0 width).

Definition heightField (P : Perlin) (c : Params) : option (gmap Point Q) :=
  foldl (fun acc y => fillRow P c y acc) (Some ∅) (seqZ 0 height).

(** The body of [updateImage], without the colouring of pixels: the height
    field and the points of interest of one run. *)
Definition generate (fuel : nat) (c : Params)
    : outcome (gmap Point Q * list Point) :=
  P ← orPanic (NewPerlin (R := R) (seed c));
  noiseMap ← orPanic (heightField P c);
  let poiRand : R := NewRand (seed c) in
  res ← PoissonDisk Cos Sin (minDistance c) width height noiseMap
           (seaLevel c) fuel poiRand;
  Done (noiseMap, fst res).

End Generation.

Definition width : Z := 512.
Definition height : Z := 512.

End main.

(** ** poi.go and main.go in binary64 arithmetic

    Line 56 of poi.go, and the height of a pixel with [clamp01] of main.go,
    over binary64 floats: here a sum, a product or a quotient can be an
    infinity or NaN, and so can a result of [math.Pow] or [math.Hypot]. *)

Module poi64.

(** Line 56: [dist := r.Float64()*(float64(minDistance)*2) + float64(minDistance)]. *)
Definition distOf (minDistance : Z) (u : float) : float :=
  (u * (perlin64.ofZ minDistance * 2) + perlin64.ofZ minDistance)%float.

End poi64.

Module main64.

Definition clamp01 (v : float) : float :=
  if PrimFloat.ltb v 0 then 0%float
  else if PrimFloat.ltb 1 v then 1%float
  else v.

(** The float64 variables of [main] that the two raster loops read. *)
Record Params : Type := mkParams {
  scale : float;
  octavesFloat : float;
  persistence : float;
  lacunarity : float;
  continentFreq : float;
  continentOctavesFloat : float;
  continentWeight : float;
  falloff : float;
  falloffWeight : float;
  flowScale : float;
  flowStrength : float
}.

Section Generation.
(** [math.Pow], [math.Hypot] *)
Variables Pow Hypot : float -> float -> float.
Variables width height : Z.

(** Lines 129-145: the argument [combined - falloffVal] of [clamp01]. *)
Definition heightArg (P : perlin.Perlin) (c : Params) (x y : Z) : option float :=
  let centerX := (perlin64.ofZ width / 2)%float in
  let centerY := (perlin64.ofZ height / 2)%float in
  let maxDist := Hypot centerX centerY in
  let octaves := perlin64.int (octavesFloat c) in
  let continentOctaves := perlin64.int (continentOctavesFloat c) in
  '(flowXRaw, flowYRaw) ←
    perlin64.NoiseFlow P (perlin64.ofZ x) (perlin64.ofZ y) (flowScale c);
  let dx := (flowXRaw * flowStrength c)%float in
  let dy := (flowYRaw * flowStrength c)%float in
  let px := (perlin64.ofZ x + dx)%float in
  let py := (perlin64.ofZ y + dy)%float in
  localRaw ← perlin64.FBM2DRaw P px py (scale c) octaves (persistence c)
                (lacunarity c);
  continentRaw ← perlin64.FBM2DRaw P (perlin64.ofZ x) (perlin64.ofZ y)
                   (continentFreq c) continentOctaves 0.5 2;
  let combinedRaw :=
    (localRaw * (1 - continentWeight c) + continentRaw * continentWeight c)%float in
  let combined := ((combinedRaw + 1) * 0.5)%float in
  let dist := Hypot (perlin64.ofZ x - centerX)%float (perlin64.ofZ y - centerY)%float in
  let falloffVal := (Pow (dist / maxDist) (falloff c) * falloffWeight c)%float in
  Some (combined - falloffVal)%float.

(** Line 147: [noiseValue := clamp01(combined - falloffVal)]. *)
Definition noiseValue (P : perlin.Perlin) (c : Params) (x y : Z) : option float :=
  v ← heightArg P c x y; Some (clamp01 v).

(** The two raster loops, [y] outside and [x] inside, filling [noiseMap]. *)
Definition fillRow (P : perlin.Perlin) (c : Params) (y : Z)
    (acc : option (gmap poi.Point float)) : option (gmap poi.Point float) :=
  foldl (fun acc x =>
           m ← acc; v ← noiseValue P c x y; Some (<[poi.mkPoint x y := v]> m))
        acc (seqZ 0 width).

Definition heightField (P : perlin.Perlin) (c : Params)
    : option (gmap poi.Point float) :=
  foldl (fun acc y => fillRow P c y acc) (Some ∅) (seqZ 0 height).

End Generation.

End main64.

(** ** main.go: the colours, the picture and the generation trigger *)

Module picture.

Import perlin poi.

(** [color.RGBA] *)
Record RGBA : Type := mkRGBA { R : Z; G : Z; B : Z; A : Z }.

#[global] Instance RGBA_eq_dec : EqDecision RGBA.
Proof. solve_decision. Defined.

Definition deepWaterColor : RGBA := mkRGBA 25 70 120 255.
Definition waterColor : RGBA := mkRGBA 50 150 200 255.
Definition shoreColor : RGBA := mkRGBA 240 230 140 255.
Definition landColor : RGBA := mkRGBA 80 180 80 255.
Definition mountainColor : RGBA := mkRGBA 120 100 80 255.
Definition highMountainColor : RGBA := mkRGBA 255 255 255 255.
Definition highLandColor : RGBA := mkRGBA 100 150 100 255.
Definition poiColor : RGBA := mkRGBA 255 0 0 255.

(** [*image.RGBA] over the rectangle [image.Rect(0, 0, w, h)]: the pixels
    that have been set; the others hold the zero colour. *)
Record Image : Type := mkImage { rectW : Z; rectH : Z; pix : gmap Point RGBA }.

(** [image.NewRGBA(image.Rect(0, 0, w, h))] *)
Definition NewRGBA (w h : Z) : Image := mkImage w h ∅.

(** [out.Set(x, y, c)]: a point outside the rectangle is ignored. *)
Definition Set_ (out : Image) (x y : Z) (c : RGBA) : Image :=
  if (0 <=? x) && (x <? rectW out) && (0 <=? y) && (y <? rectH out)
  then mkImage (rectW out) (rectH out) (<[mkPoint x y := c]> (pix out))
  else out.

(** The float64 values nearest to [0.15], [0.04], [0.10], [0.20], [0.30]. *)
Definition c_0_15 : Q := 5404319552844595 # 36028797018963968.
Definition c_0_04 : Q := 5764607523034235 # 144115188075855872.
Definition c_0_10 : Q := 3602879701896397 # 36028797018963968.
Definition c_0_20 : Q := 3602879701896397 # 18014398509481984.
Definition c_0_30 : Q := 5404319552844595 # 18014398509481984.

(** [a < b] on floats *)
Definition ltb (a b : Q) : bool := negb (Qle_bool b a).

(** Lines 153-168: the colour of a pixel of height [noiseValue]. *)
Definition pixelColor (noiseValue seaLevel : Q) : RGBA :=
  if ltb noiseValue (seaLevel - c_0_15) then deepWaterColor
  else if ltb noiseValue seaLevel then waterColor
  else if ltb noiseValue (seaLevel + c_0_04) then shoreColor
  else if ltb noiseValue (seaLevel + c_0_10) then landColor
  else if ltb noiseValue (seaLevel + c_0_20) then highLandColor
  else if ltb noiseValue (seaLevel + c_0_30) then mountainColor
  else highMountainColor.

(** The values [-1 .. 1] of [i] and [j] in the loops that draw a marker. *)
Definition marks : list Z := [-1; 0; 1].

Section Picture.
Context `{Rand Rnd}.
Variables Cos Sin : Q -> Q.
Variables Pow Hypot : Q -> Q -> Q.
Variables width height : Z.

(** Lines 128-169: the body of the raster loops at [(x, y)]. *)
Definition pixel (P : Perlin) (c : main.Params) (y : Z)
    (acc : option (gmap Point Q * Image)) (x : Z) : option (gmap Point Q * Image) :=
  '(noiseMap, out) ← acc;
  noiseValue ← main.noiseValue Pow Hypot width height P c x y;
  Some (<[mkPoint x y := noiseValue]> noiseMap,
        Set_ out x y (pixelColor noiseValue (main.seaLevel c))).

(** Lines 126-171: the two raster loops, filling [noiseMap] and [out]. *)
Definition raster (P : Perlin) (c : main.Params) (out : Image)
    : option (gmap Point Q * Image) :=
  foldl (fun acc y => foldl (pixel P c y) acc (seqZ 0 width))
        (Some (∅, out)) (seqZ 0 height).

(** Lines 178-186: the marker of one point of interest. *)
Definition drawPOI (out : Image) (pnt : Point) : Image :=
  foldl (fun out i =>
           foldl (fun out j =>
                    let xx := X pnt + i in
                    let yy := Y pnt + j in
                    if (0 <=? xx) && (xx <? width) && (0 <=? yy) && (yy <? height)
                    then Set_ out xx yy poiColor
                    else out)
                 out marks)
        out marks.

(** Lines 109-187 of [updateImage]: the picture [out] of one run. *)
Definition updateImage (fuel : nat) (c : main.Params) : outcome Image :=
  let out := NewRGBA width height in
  P ← orPanic (NewPerlin (R := Rnd) (main.seed c));
  '(noiseMap, out) ← orPanic (raster P c out);
  let poiRand : Rnd := NewRand (main.seed c) in
  res ← PoissonDisk Cos Sin (main.minDistance c) width height noiseMap
           (main.seaLevel c) fuel poiRand;
  Done (foldl drawPOI out (fst res)).

End Picture.

(** [triggerUpdate] and the goroutine it starts.  Both run their steps with
    [mutex] held; [running] counts the goroutines that have been started and
    have not yet cleared [isGenerating]. *)
Record Sched : Type := mkSched { isGenerating : bool; running : nat }.

Inductive event : Type :=
  | Trigger   (** a call of [triggerUpdate] *)
  | Finish.   (** a goroutine, [updateImage] done, clears the flag *)

Definition triggerUpdate (s : Sched) : Sched :=
  if negb (isGenerating s) then mkSched true (S (running s)) else s.

Definition step (s : Sched) (e : event) : option Sched :=
  match e with
  | Trigger => Some (triggerUpdate s)
  | Finish =>
      match running s with
      | O => None
      | S n => Some (mkSched false n)
      end
  end.

Definition run (s : Sched) (es : list event) : option Sched :=
  foldl (fun acc e => s ← acc; step s e) (Some s) es.

End picture.

(** ** main.go: a run of [updateImage] beside the callbacks

    [updateImage] runs on a goroutine of its own and reads the variables of
    [main] while it runs, with no lock: the seed when it builds the table
    (line 114) and again when it seeds the sampler's generator (line 175),
    the two octave counts once before the loops (lines 120-121), the noise
    and falloff parameters at every pixel (lines 129-145), and
    [minDistance] and [seaLevel] when it calls [PoissonDisk] (line 176).
    The slider callbacks and the randomize button assign these variables on
    the interface goroutine at any time.  The run is modelled in parts, one
    per read of the variables, and an assignment is taken to fall between
    two parts. *)

Module session.

Import perlin poi.

(** The variables as a pixel reads them: [octaves] and [continentOctaves]
    are locals of the run, the rest is read from [main]. *)
Definition withOctaves (c : main.Params) (octaves continentOctaves : Z)
    : main.Params :=
  main.mkParams (main.seed c) (main.scale c) (float64 octaves)
    (main.persistence c) (main.lacunarity c) (main.continentFreq c)
    (float64 continentOctaves) (main.continentWeight c) (main.falloff c)
    (main.falloffWeight c) (main.seaLevel c) (main.minDistance c)
    (main.flowScale c) (main.flowStrength c).

(** How far a run of [updateImage] has come. *)
Inductive stage : Type :=
  | Idle
      (** not started *)
  | Filling (P : Perlin) (octaves continentOctaves : Z) (todo : list Point)
      (noiseMap : gmap Point Q)
      (** in the raster loops, the coordinates [todo] still to come *)
  | Finished (noiseMap : gmap Point Q) (pois : list Point)
      (** [PoissonDisk] has returned *)
  | Panicked.

(** The variables of [main] and the run. *)
Record world : Type := mkWorld { vars : main.Params; run : stage }.

Inductive event : Type :=
  | Assign (c : main.Params)
      (** a callback has assigned variables: their values from now on *)
  | Advance (fuel : nat).
      (** the run executes its next part; [fuel] bounds the loops of the
          sampler *)

Section Run.
Context `{Rand R}.
Variables Cos Sin : Q -> Q.
Variables Pow Hypot : Q -> Q -> Q.
Variables width height : Z.

(** The coordinates in the order of the two raster loops, [y] outside. *)
Definition rasterOrder : list Point :=
  y ← seqZ 0 height; (fun x => mkPoint x y) <$> seqZ 0 width.

(** One part of the run, with the variables as they are now. *)
Definition advance (fuel : nat) (c : main.Params) (s : stage) : stage :=
  match s with
  | Idle =>
      match NewPerlin (R := R) (main.seed c) with
      | Some P =>
          Filling P (int (main.octavesFloat c))
            (int (main.continentOctavesFloat c)) rasterOrder ∅
      | None => Panicked
      end
  | Filling P octaves continentOctaves (q :: todo) noiseMap =>
      match main.noiseValue Pow Hypot width height P
              (withOctaves c octaves continentOctaves) (X q) (Y q) with
      | Some v => Filling P octaves continentOctaves todo (<[q := v]> noiseMap)
      | None => Panicked
      end
  | Filling P octaves continentOctaves [] noiseMap =>
      let poiRand : R := NewRand (main.seed c) in
      match PoissonDisk Cos Sin (main.minDistance c) width height noiseMap
              (main.seaLevel c) fuel poiRand with
      | Done res => Finished noiseMap (fst res)
      | Panic => Panicked
      | OutOfFuel => s
      end
  | Finished _ _ => s
  | Panicked => s
  end.

Definition step (w : world) (e : event) : world :=
  match e with
  | Assign c => mkWorld c (run w)
  | Advance fuel => mkWorld (vars w) (advance fuel (vars w) (run w))
  end.

Definition exec (w : world) (es : list event) : world := foldl step w es.

(** The body of the raster loops at one coordinate, with all variables read
    from [c]. *)
Definition pixelStep (P : Perlin) (c : main.Params)
    (acc : option (gmap Point Q)) (q : Point) : option (gmap Point Q) :=
  m ← acc; v ← main.noiseValue Pow Hypot width height P c (X q) (Y q);
  Some (<[q := v]> m).

(** An event that leaves the variables at the values [c]. *)
Definition keeps (c : main.Params) (e : event) : Prop :=
  match e with
  | Assign c' => c' = c
  | Advance _ => True
  end.

End Run.

End session.

(** ** A generator that replays a tape of draws

    An implementation of [Rand] used to run the programs on concrete inputs:
    the state is the list of the draws still to come, each a number of
    [[0, 1)]; an exhausted tape draws 0.  [Intn] scales a draw to [[0, n)],
    and [Perm] is the loop of [math/rand]:
    [for i := 0; i < n; i++ { j := r.Intn(i + 1); m[i] = m[j]; m[j] = i }]. *)

Module tape.

Definition frac (u : Q) : Q := (u - inject_Z (Qfloor u))%Q.

Definition next (t : list Q) : Q * list Q :=
  match t with
  | [] => (0%Q, [])
  | u :: t' => (frac u, t')
  end.

Definition tapeIntn (n : Z) (t : list Q) : Z * list Q :=
  (Qfloor (fst (next t) * inject_Z n), snd (next t)).

Fixpoint permLoop (n : nat) (i : Z) (m : list Z) (t : list Q) : list Z * list Q :=
  match n with
  | O => (m, t)
  | S n' =>
      let j := fst (tapeIntn (i + 1) t) in
      let m1 := <[Z.to_nat i := default 0 (m !! Z.to_nat j)]> m in
      let m2 := <[Z.to_nat j := i]> m1 in
      permLoop n' (i + 1) m2 (snd (tapeIntn (i + 1) t))
  end.

Definition tapePerm (n : Z) (t : list Q) : list Z * list Q :=
  permLoop (Z.to_nat n) 0 (replicate (Z.to_nat n) 0) t.

(** Seeding: three hundred draws spread by the seed. *)
Definition tapeOfSeed (seed : Z) : list Q :=
  (fun k => (seed * k) mod 1009 # 1009) <$> seqZ 1 300.

End tape.

(** ** Inputs on which the programs are run below *)

Module inputs.

(** The table of the identity permutation, duplicated: what [NewPerlin]
    builds when [Perm] returns 0, 1, ..., 255. *)
Definition identityTable : perlin.Perlin :=
  perlin.mkPerlin (seqZ 0 256 ++ seqZ 0 256).

(** The sea level the program starts with, [0.45] (line 73 of main.go), as
    the float64 it is. *)
Definition seaLevel0 : Q := 8106479329266893 # 18014398509481984.

(** A height field with two coordinates of land, one of them at height
    exactly 0.5. *)
Definition islands : gmap poi.Point Q :=
  {[poi.mkPoint 1 0 := (1 # 2)%Q; poi.mkPoint 3 0 := 1%Q]}.

(** [math.Cos] and [math.Sin] at the two angles the runs below use: the
    angle 0, with cosine 1 and sine 0, and the float64 [math.Pi], with cosine
    -1 and a sine of about 1.2246e-16. *)
Definition cosT (a : Q) : Q := if Qeq_bool a math_Pi then (-1)%Q else 1%Q.
Definition sinT (a : Q) : Q :=
  if Qeq_bool a math_Pi
  then (4967757600021511 # 40564819207303340847894502572032)%Q
  else 0%Q.

(** A height field whose land is the strip [(0,0) .. (50,0)], at height 1;
    every other coordinate is absent and reads as 0. *)
Definition strip : gmap poi.Point Q :=
  list_to_map ((fun x => (poi.mkPoint x 0, 1%Q)) <$> seqZ 0 51).

(** Draws: the start point [(0,0)]; active index 0, angle 0, radius 50;
    active index 1, angle [math.Pi], radius 49.21875; then zeros. *)
Definition draws : list Q := [0; 0; 0; 0; 1 # 2; 1 # 2; 1 # 2; 31 # 64]%Q.

(** [math.Pow] at the exponent 2, and [math.Hypot] to twenty binary places. *)
Definition powT (b e : Q) : Q := if Qeq_bool e 2 then (b * b)%Q else 1%Q.
Definition hypotT (a b : Q) : Q :=
  (inject_Z (Z.sqrt (Qfloor ((a * a + b * b) * inject_Z (2 ^ 40)))) / inject_Z (2 ^ 20))%Q.

(** [math.Pow] and [math.Hypot] in binary64 at the arguments of the centre
    pixel of the 512 x 512 raster: [Pow(0, y)] is [+Inf] for [y < 0], as
    documented for [math.Pow], and the hypotenuse is the rounded square root,
    which is exact at [(0, 0)] and at [(256, 256)] is [256 * Sqrt2]. *)
Definition pow64 (b e : float) : float :=
  if PrimFloat.eqb b 0 && PrimFloat.ltb e 0 then infinity
  else if PrimFloat.eqb e 2 then (b * b)%float else 1%float.
Definition hypot64 (a b : float) : float := PrimFloat.sqrt (a * a + b * b).

(** The float64 parameters [main] starts with, but for a falloff exponent of
    [-1] and a falloff weight of 0. *)
Definition negativeFalloff : main64.Params :=
  main64.mkParams 0x1.89374bc6a7efap-8 5 0.5 2 0x1.0624dd2f1a9fcp-8 3
    0x1.3333333333333p-1 (-1) 0 0x1.0624dd2f1a9fcp-9 15.

(** The parameters [main] starts with, the falloff exponent set to 2. *)
Definition params0 : main.Params :=
  main.mkParams 12345 (6 # 1000) 5 (1 # 2) 2 (4 # 1000) 3 (6 # 10) 2 (6 # 10)
    (45 # 100) 25 (2 # 1000) 15.

(** Parameters with every frequency and the falloff weight at 0: the height
    field is flat, at 0.5, and with [seaLevel = 0.2] all of it is land. *)
Definition flat : main.Params :=
  main.mkParams 7 0 1 (1 # 2) 2 0 1 (6 # 10) 2 0 (2 # 10) 2 0 15.

(** The same with the falloff weight at 1. *)
Definition steep : main.Params :=
  main.mkParams 7 0 1 (1 # 2) 2 0 1 (6 # 10) 2 1 (2 # 10) 2 0 15.

(** Three runs on a raster of 4 x 3, that is, of 14 parts: one left alone;
    one beside callbacks that assign the values [flat] again, whose sampler
    is first given too few iterations; and one during which, after the first
    six pixels, the falloff weight is set to 1. *)
Definition alone : list session.event :=
  replicate 13 (session.Advance 0) ++ [session.Advance 50].
Definition reassigned : list session.event :=
  [session.Assign flat; session.Advance 3] ++ replicate 6 (session.Advance 0)
  ++ [session.Assign flat] ++ replicate 6 (session.Advance 1)
  ++ [session.Advance 2; session.Advance 60].
Definition disturbed : list session.event :=
  replicate 7 (session.Advance 0) ++ [session.Assign steep]
  ++ replicate 6 (session.Advance 0) ++ [session.Advance 50].

(** The heights at two coordinates and the points of a finished run. *)
Definition summary (w : session.world) : option (Q * Q * list poi.Point) :=
  match session.run w with
  | session.Finished hf pts =>
      Some (Qred (poi.mapGet hf (poi.mkPoint 0 0)),
            Qred (poi.mapGet hf (poi.mkPoint 3 2)), pts)
  | _ => None
  end.

End inputs.

(** ** Predicates used in the statements *)

(** What [NewPerlin] establishes and [Noise2DRaw] relies on. *)
Definition wfTable (tbl : list Z) : Prop :=
  length tbl = 512%nat /\ Forall (fun v => 0 <= v <= 255) tbl.

(** Two results of a noise evaluation agree: both panic, or both are values
    that are equal as rational numbers. *)
Definition sameValue (a b : option Q) : Prop :=
  match a, b with
  | Some u, Some v => (u == v)%Q
  | None, None => True
  | _, _ => False
  end.

(** Numerator and denominator of [math_Sqrt2]: the cell of a non-negative
    coordinate [x] is [(x * sqrt2N) / (minDistance * sqrt2D)]. *)
Definition sqrt2N : Z := 6369051672525773.
Definition sqrt2D : Z := 4503599627370496.

(** What holds of a run of [updateImage] during which the variables stay at
    [c]: the table and the octave counts are those of [c], the part of the
    raster done holds the heights of [c], and a finished run has the output
    of [main.generate] on [c]. *)
Section Quiet.
Context `{Rand R}.
Variables Cos Sin : Q -> Q.
Variables Pow Hypot : Q -> Q -> Q.
Variables width height : Z.

Definition quietInv (c : main.Params) (w : session.world) : Prop :=
  session.vars w = c /\
  match session.run w with
  | session.Idle => True
  | session.Filling P o co todo m =>
      perlin.NewPerlin (R := R) (main.seed c) = Some P /\
      o = int (main.octavesFloat c) /\
      co = int (main.continentOctavesFloat c) /\
      exists done, session.rasterOrder width height = done ++ todo /\
                   foldl (session.pixelStep Pow Hypot width height P c)
                     (Some ∅) done = Some m
  | session.Finished m pts =>
      exists fuel,
        main.generate (R := R) Cos Sin Pow Hypot width height fuel c
          = Done (m, pts)
  | session.Panicked => True
  end.

End Quiet.

(** A grid of [gw] columns of [gh] cells. *)
Definition gridShape (g : list (list poi.Point)) (gw gh : Z) : Prop :=
  length g = Z.to_nat gw /\ Forall (fun col => length col = Z.to_nat gh) g.

Section Invariant.
Variables minDistance width height : Z.

(** Earlier points other than the origin are at least [minDistance] away
    from later ones. *)
Definition separated (pts : list poi.Point) : Prop :=
  forall i j a b, (i < j)%nat -> pts !! i = Some a -> pts !! j = Some b ->
    a <> poi.zero -> poi.tooClose minDistance b a = false.

(** The invariant of the sampler's state: the grid has its shape, the
    accepted points are inside the raster, each one other than the origin is
    stored in its own cell, and they are separated. *)
Definition samplerInv (pts : list poi.Point) (g : list (list poi.Point)) : Prop :=
  gridShape g (poi.gridWidth minDistance width) (poi.gridHeight minDistance height) /\
  Forall (fun q => poi.inBounds width height q = true) pts /\
  (forall q, q ∈ pts -> q <> poi.zero ->
     poi.gridGet g (int (float64 (poi.X q) / poi.cellSize minDistance))
                   (int (float64 (poi.Y q) / poi.cellSize minDistance)) = Some q) /\
  separated pts.

End Invariant.

(** All points of the raster. *)
Definition rasterPoints (width height : Z) : list poi.Point :=
  (fun c => poi.mkPoint c.1 c.2) <$> list_prod (seqZ 0 width) (seqZ 0 height).

(** The pixel [q] lies in the 3 x 3 marker of the point [pnt]. *)
Definition marked (pnt q : poi.Point) : Prop :=
  -1 <= poi.X q - poi.X pnt <= 1 /\ -1 <= poi.Y q - poi.Y pnt <= 1.

#[global] Instance marked_dec (pnt q : poi.Point) : Decision (marked pnt q).
Proof. unfold marked. apply _. Defined.

(** The loops of [picture.raster] and of [main.heightField] run together:
    they hold the same map, and the picture holds the colour of each stored
    height. *)
Definition painted (width height : Z) (c : main.Params)
    (a : option (gmap poi.Point Q * picture.Image))
    (b : option (gmap poi.Point Q)) : Prop :=
  match a, b with
  | Some (m, out), Some m' =>
      m = m' /\ picture.rectW out = width /\ picture.rectH out = height /\
      picture.pix out = (fun v => picture.pixelColor v (main.seaLevel c)) <$> m
  | None, None => True
  | _, _ => False
  end.

(** * Properties *)

(** ** Slices *)

Lemma index_Some {A : Type} (s : list A) (i : Z) (a : A) :
  index s i = Some a <-> 0 <= i /\ s !! Z.to_nat i = Some a.
Proof.
  unfold index. destruct (decide (0 <= i)); split; intros; try tauto; try easy.
Qed.

Lemma index_in_range {A : Type} (s : list A) (i : Z) :
  0 <= i < Z.of_nat (length s) -> exists a, index s i = Some a.
Proof.
  intros Hi. unfold index. destruct (decide (0 <= i)); [|lia].
  apply lookup_lt_is_Some_2. lia.
Qed.

Lemma index_of_nat {A : Type} (s : list A) (k : nat) :
  index s (Z.of_nat k) = s !! k.
Proof.
  unfold index. destruct (decide (0 <= Z.of_nat k)); [|lia].
  by rewrite Nat2Z.id.
Qed.

Lemma store_Some {A : Type} (s : list A) (i : Z) (v : A) :
  0 <= i < Z.of_nat (length s) -> store s i v = Some (<[Z.to_nat i := v]> s).
Proof. intros Hi. unfold store. by destruct (decide _). Qed.

Lemma store_inv {A : Type} (s s' : list A) (i : Z) (v : A) :
  store s i v = Some s' ->
  0 <= i < Z.of_nat (length s) /\ s' = <[Z.to_nat i := v]> s.
Proof. unfold store. destruct (decide _); intros; simplify_eq; auto. Qed.

(** ** The tape generator implements the interface *)

Lemma frac_range (u : Q) : (0 <= tape.frac u)%Q /\ (tape.frac u < 1)%Q.
Proof.
  unfold tape.frac. pose proof (Qfloor_le u) as H1. pose proof (Qlt_floor u) as H2.
  rewrite inject_Z_plus in H2. change (inject_Z 1) with 1%Q in H2. split; lra.
Qed.

Lemma next_range (t : list Q) : (0 <= fst (tape.next t))%Q /\ (fst (tape.next t) < 1)%Q.
Proof.
  destruct t as [|u t]; simpl; [split; lra | apply frac_range].
Qed.

Lemma tapeIntn_range (n : Z) (t : list Q) :
  0 < n -> 0 <= fst (tape.tapeIntn n t) < n.
Proof.
  intros Hn. unfold tape.tapeIntn. cbn [fst].
  destruct (next_range t) as [H0 H1]. set (u := fst (tape.next t)) in *.
  assert (Hq : (0 < inject_Z n)%Q).
  { change 0%Q with (inject_Z 0). rewrite <- Zlt_Qlt. exact Hn. }
  split.
  - change 0 with (Qfloor 0). apply Qfloor_resp_le. nra.
  - rewrite Zlt_Qlt. eapply Qle_lt_trans; [apply Qfloor_le|]. nra.
Qed.

Lemma insert_swap_permutation {A : Type} (l : list A) (j : nat) (v x : A) :
  l !! j = Some v -> Permutation (<[j := x]> l ++ [v]) (l ++ [x]).
Proof.
  revert j. induction l as [|a l IH]; intros [|j] Hj; simplify_eq/=.
  - rewrite <- !Permutation_cons_append. apply perm_swap.
  - apply perm_skip. by apply IH.
Qed.

Lemma permLoop_permutation (n : nat) : forall (k : nat) (m : list Z) (t : list Q),
  length m = (k + n)%nat ->
  Permutation (take k m) (Z.of_nat <$> seq 0 k) ->
  Permutation (fst (tape.permLoop n (Z.of_nat k) m t)) (Z.of_nat <$> seq 0 (k + n)).
Proof.
  induction n as [|n IH]; intros k m t Hlen Hperm.
  - simpl. rewrite Nat.add_0_r in *. rewrite take_ge in Hperm by lia. exact Hperm.
  - cbn [tape.permLoop].
    pose proof (tapeIntn_range (Z.of_nat k + 1) t ltac:(lia)) as Hj.
    set (j := fst (tape.tapeIntn (Z.of_nat k + 1) t)) in *.
    rewrite Nat2Z.id.
    replace (Z.of_nat k + 1) with (Z.of_nat (S k)) by lia.
    replace (k + S n)%nat with (S k + n)%nat by lia.
    apply IH.
    + rewrite !length_insert. lia.
    + rewrite seq_S, fmap_app. simpl.
      destruct (decide (Z.to_nat j = k)) as [Hjk|Hjk].
      * rewrite Hjk, list_insert_insert_eq.
        rewrite (take_S_r _ _ (Z.of_nat k))
          by (apply list_lookup_insert_eq; lia).
        rewrite take_insert_ge by lia. by rewrite Hperm.
      * assert (Hlt : (Z.to_nat j < k)%nat) by lia.
        destruct (lookup_lt_is_Some_2 m (Z.to_nat j) ltac:(lia)) as [v Hv].
        rewrite Hv. simpl.
        rewrite (take_S_r _ _ v).
        2:{ rewrite list_lookup_insert_ne by lia.
            apply list_lookup_insert_eq. lia. }
        rewrite take_insert_lt by lia. rewrite take_insert_ge by lia.
        rewrite insert_swap_permutation by (rewrite lookup_take_lt by lia; exact Hv).
        by rewrite Hperm.
Qed.

Lemma tapePerm_permutation (n : Z) (t : list Q) :
  0 <= n -> Permutation (fst (tape.tapePerm n t)) (Z.of_nat <$> seq 0 (Z.to_nat n)).
Proof.
  intros _. unfold tape.tapePerm.
  apply (permLoop_permutation (Z.to_nat n) 0).
  - by rewrite length_replicate.
  - reflexivity.
Qed.

#[global] Instance tape_Rand : Rand (list Q) := {|
  NewRand := tape.tapeOfSeed;
  Intn := tape.tapeIntn;
  Float64 := tape.next;
  Perm := tape.tapePerm;
  Intn_range := tapeIntn_range;
  Float64_range := next_range;
  Perm_permutation := tapePerm_permutation
|}.

(** ** The permutation table *)

Lemma fill_spec (base : list Z) (n : nat) : forall (k : nat) (tbl : list Z),
  length base = 256%nat -> (k + n = 256)%nat -> length tbl = 512%nat ->
  (forall j, (j < k)%nat ->
     tbl !! j = base !! j /\ tbl !! (256 + j)%nat = base !! j) ->
  exists tbl', perlin.fill base n (Z.of_nat k) tbl = Some tbl' /\
    length tbl' = 512%nat /\
    forall j, (j < 256)%nat ->
      tbl' !! j = base !! j /\ tbl' !! (256 + j)%nat = base !! j.
Proof.
  induction n as [|n IH]; intros k tbl Hbase Hk Hlen Hinv.
  - exists tbl. split; [reflexivity|]. split; [exact Hlen|].
    intros j Hj. apply Hinv. lia.
  - cbn [perlin.fill]. rewrite index_of_nat.
    destruct (lookup_lt_is_Some_2 base k ltac:(lia)) as [b Hb].
    rewrite Hb. cbn [mbind option_bind].
    rewrite store_Some by lia. cbn [mbind option_bind].
    rewrite store_Some by (rewrite length_insert; lia). cbn [mbind option_bind].
    replace (Z.of_nat k + 1) with (Z.of_nat (S k)) by lia.
    replace (Z.to_nat (256 + Z.of_nat k)) with (256 + k)%nat by lia.
    rewrite Nat2Z.id.
    apply IH; [exact Hbase | lia | by rewrite !length_insert |].
    intros j Hj. destruct (decide (j = k)) as [->|Hne].
    + split.
      * rewrite list_lookup_insert_ne by lia.
        rewrite list_lookup_insert_eq by lia. by rewrite Hb.
      * rewrite list_lookup_insert_eq by (rewrite length_insert; lia).
        by rewrite Hb.
    + rewrite !list_lookup_insert_ne by lia. apply Hinv. lia.
Qed.

Lemma fill_table (base : list Z) :
  length base = 256%nat ->
  perlin.fill base 256 0 (replicate 512 0) = Some (base ++ base).
Proof.
  intros Hbase.
  destruct (fill_spec base 256 0 (replicate 512 0) Hbase eq_refl
              (length_replicate _ _) ltac:(intros; lia))
    as (tbl & Heq & Hlen & Hall).
  change (Z.of_nat 0) with 0 in Heq. rewrite Heq. f_equal.
  apply list_eq. intros i.
  destruct (decide (i < 256)%nat) as [Hi|Hi].
  - rewrite lookup_app_l by lia. by apply Hall.
  - rewrite lookup_app_r by lia. rewrite Hbase.
    destruct (decide (i < 512)%nat) as [Hi'|Hi'].
    + destruct (Hall (i - 256)%nat ltac:(lia)) as [_ H2].
      replace (256 + (i - 256))%nat with i in H2 by lia. exact H2.
    + rewrite !(proj2 (lookup_ge_None _ _)) by lia. reflexivity.
Qed.

Section Table.
Context `{Rand R}.

Lemma Perm_length (n : Z) (r : R) :
  0 <= n -> length (fst (Perm n r)) = Z.to_nat n.
Proof.
  intros Hn. rewrite (Permutation_length (Perm_permutation n r Hn)).
  by rewrite length_fmap, length_seq.
Qed.

Lemma NewPerlin_eq (seed : Z) :
  perlin.NewPerlin (R := R) seed =
  Some (perlin.mkPerlin (fst (Perm 256 (NewRand seed)) ++ fst (Perm 256 (NewRand seed)))).
Proof.
  unfold perlin.NewPerlin. rewrite fill_table; [reflexivity|].
  rewrite Perm_length by lia. reflexivity.
Qed.

(** C7.  For every seed, [NewPerlin] returns a table of 512 entries; its
    first 256 entries are a permutation of 0..255, so each of these values
    occurs exactly once among them; and the entry at index [256 + i] is the
    entry at index [i], for every [i] in 0..255. *)
Theorem NewPerlin_table (seed : Z) :
  exists P, perlin.NewPerlin (R := R) seed = Some P /\
    length (perlin.p P) = 512%nat /\
    Permutation (take 256 (perlin.p P)) (Z.of_nat <$> seq 0 256) /\
    NoDup (take 256 (perlin.p P)) /\
    (forall v, 0 <= v < 256 -> v ∈ take 256 (perlin.p P)) /\
    (forall i, 0 <= i < 256 ->
       exists v, index (perlin.p P) i = Some v /\
                 index (perlin.p P) (256 + i) = Some v).
Proof.
  eexists. split; [apply NewPerlin_eq|]. cbn [perlin.p].
  set (base := fst (Perm 256 (NewRand seed))).
  assert (Hlen : length base = 256%nat) by (unfold base; by rewrite Perm_length).
  assert (Hperm : Permutation base (Z.of_nat <$> seq 0 256))
    by (apply (Perm_permutation 256); lia).
  rewrite (take_app_length' base base 256) by (symmetry; exact Hlen).
  split; [rewrite length_app; lia|].
  split; [exact Hperm|].
  split.
  { rewrite Hperm. apply NoDup_fmap_2; [apply Nat2Z.inj' | apply NoDup_seq]. }
  split.
  { intros v Hv. rewrite Hperm. apply list_elem_of_fmap.
    exists (Z.to_nat v). split; [lia|]. apply elem_of_seq. lia. }
  intros i Hi.
  destruct (lookup_lt_is_Some_2 base (Z.to_nat i) ltac:(lia)) as [v Hv].
  exists v. split; apply index_Some; (split; [lia|]).
  - by rewrite lookup_app_l by lia.
  - rewrite lookup_app_r by lia.
    replace (Z.to_nat (256 + i) - length base)%nat with (Z.to_nat i) by lia.
    exact Hv.
Qed.

End Table.

(** ** Gradient noise: every table lookup is in bounds *)


Lemma land_255_range (z : Z) : 0 <= Z.land z 255 <= 255.
Proof.
  assert (Hmod : Z.land z 255 = z mod 256).
  { change 255 with (Z.ones 8). rewrite Z.land_ones by lia. reflexivity. }
  rewrite Hmod. pose proof (Z.mod_pos_bound z 256 ltac:(lia)). lia.
Qed.

Lemma wfTable_index (tbl : list Z) (i : Z) :
  wfTable tbl -> 0 <= i <= 511 ->
  exists v, index tbl i = Some v /\ 0 <= v <= 255.
Proof.
  intros [Hlen Hall] Hi.
  destruct (index_in_range tbl i ltac:(lia)) as [v Hv].
  exists v. split; [exact Hv|].
  apply index_Some in Hv as [_ Hv].
  rewrite Forall_lookup in Hall. exact (Hall _ _ Hv).
Qed.

Lemma Noise2DRaw_total (P : perlin.Perlin) (x y freq : Q) :
  wfTable (perlin.p P) -> is_Some (perlin.Noise2DRaw P x y freq).
Proof.
  intros Hwf. unfold perlin.Noise2DRaw.
  pose proof (land_255_range (int (math_Floor (x * freq)))) as Hxi.
  pose proof (land_255_range (int (math_Floor (y * freq)))) as Hyi.
  set (xi := Z.land (int (math_Floor (x * freq))) 255) in *.
  set (yi := Z.land (int (math_Floor (y * freq))) 255) in *.
  destruct (wfTable_index _ xi Hwf ltac:(lia)) as (a & Ha & Hra).
  destruct (wfTable_index _ (xi + 1) Hwf ltac:(lia)) as (b & Hb & Hrb).
  destruct (wfTable_index _ (a + yi) Hwf ltac:(lia)) as (aa & Haa & _).
  destruct (wfTable_index _ (a + yi + 1) Hwf ltac:(lia)) as (ab & Hab & _).
  destruct (wfTable_index _ (b + yi) Hwf ltac:(lia)) as (ba & Hba & _).
  destruct (wfTable_index _ (b + yi + 1) Hwf ltac:(lia)) as (bb & Hbb & _).
  cbv zeta. rewrite Ha, Hb. cbn [mbind option_bind].
  rewrite Haa, Hab, Hba, Hbb. cbn [mbind option_bind]. eauto.
Qed.

Lemma Noise2DRaw64_total (P : perlin.Perlin) (x y freq : float) :
  wfTable (perlin.p P) -> is_Some (perlin64.Noise2DRaw P x y freq).
Proof.
  intros Hwf. unfold perlin64.Noise2DRaw.
  pose proof (land_255_range
                (perlin64.int (perlin64.math_Floor (x * freq)%float))) as Hxi.
  pose proof (land_255_range
                (perlin64.int (perlin64.math_Floor (y * freq)%float))) as Hyi.
  set (xi := Z.land (perlin64.int (perlin64.math_Floor (x * freq)%float)) 255) in *.
  set (yi := Z.land (perlin64.int (perlin64.math_Floor (y * freq)%float)) 255) in *.
  destruct (wfTable_index _ xi Hwf ltac:(lia)) as (a & Ha & Hra).
  destruct (wfTable_index _ (xi + 1) Hwf ltac:(lia)) as (b & Hb & Hrb).
  destruct (wfTable_index _ (a + yi) Hwf ltac:(lia)) as (aa & Haa & _).
  destruct (wfTable_index _ (a + yi + 1) Hwf ltac:(lia)) as (ab & Hab & _).
  destruct (wfTable_index _ (b + yi) Hwf ltac:(lia)) as (ba & Hba & _).
  destruct (wfTable_index _ (b + yi + 1) Hwf ltac:(lia)) as (bb & Hbb & _).
  cbv zeta. rewrite Ha, Hb. cbn [mbind option_bind].
  rewrite Haa, Hab, Hba, Hbb. cbn [mbind option_bind]. eauto.
Qed.

Section TableBounds.
Context `{Rand R}.

Lemma NewPerlin_wfTable (seed : Z) (P : perlin.Perlin) :
  perlin.NewPerlin (R := R) seed = Some P -> wfTable (perlin.p P).
Proof.
  rewrite NewPerlin_eq. intros [= <-]. cbn [perlin.p].
  set (base := fst (Perm 256 (NewRand seed))).
  assert (Hlen : length base = 256%nat) by (unfold base; by rewrite Perm_length).
  assert (Hperm : Permutation base (Z.of_nat <$> seq 0 256))
    by (apply (Perm_permutation 256); lia).
  assert (Hall : Forall (fun v => 0 <= v <= 255) base).
  { rewrite Hperm. apply Forall_fmap, Forall_forall. intros k Hk.
    apply elem_of_seq in Hk. simpl. lia. }
  split; [rewrite length_app; lia | by apply Forall_app].
Qed.

Lemma NewPerlin_is_Some (seed : Z) :
  exists P, perlin.NewPerlin (R := R) seed = Some P /\ wfTable (perlin.p P).
Proof.
  eexists. split; [apply NewPerlin_eq|]. eapply NewPerlin_wfTable, NewPerlin_eq.
Qed.

(** C10.  For every seed and all coordinates [x], [y], [freq]: in
    [Noise2DRaw] on the table built by [NewPerlin], the lattice indices [xi]
    and [yi] lie in [0, 255]; every entry of the table lies in [0, 255]; every
    index of [0, 511] is inside the table; and so each of the chained lookups
    [p[p[xi(+1)] + yi(+1)]] is in bounds and [Noise2DRaw] returns a value
    instead of panicking, in exact arithmetic and, for all binary64
    arguments, in binary64 arithmetic. *)
Theorem Noise2DRaw_lookups_in_bounds (seed : Z) (x y freq : Q) :
  exists P, perlin.NewPerlin (R := R) seed = Some P /\
    (0 <= Z.land (int (math_Floor (x * freq))) 255 <= 255 /\
     0 <= Z.land (int (math_Floor (y * freq))) 255 <= 255) /\
    (forall i, 0 <= i <= 511 ->
       exists v, index (perlin.p P) i = Some v /\ 0 <= v <= 255) /\
    (forall i, i < 0 \/ 511 < i -> index (perlin.p P) i = None) /\
    (exists a b aa ab ba bb,
       let xi := Z.land (int (math_Floor (x * freq))) 255 in
       let yi := Z.land (int (math_Floor (y * freq))) 255 in
       index (perlin.p P) xi = Some a /\
       index (perlin.p P) (xi + 1) = Some b /\
       index (perlin.p P) (a + yi) = Some aa /\
       index (perlin.p P) (a + yi + 1) = Some ab /\
       index (perlin.p P) (b + yi) = Some ba /\
       index (perlin.p P) (b + yi + 1) = Some bb /\
       0 <= xi + 1 <= 511 /\ 0 <= a + yi /\ b + yi + 1 <= 511 /\
       0 <= b + yi /\ a + yi + 1 <= 511) /\
    is_Some (perlin.Noise2DRaw P x y freq) /\
    (forall x' y' freq' : float, is_Some (perlin64.Noise2DRaw P x' y' freq')).
Proof.
  destruct (NewPerlin_is_Some seed) as (P & HP & Hwf).
  exists P. split; [exact HP|].
  pose proof (land_255_range (int (math_Floor (x * freq)))) as Hxi.
  pose proof (land_255_range (int (math_Floor (y * freq)))) as Hyi.
  split; [split; assumption|].
  split; [intros i Hi; by apply wfTable_index|].
  split.
  { intros i Hi. unfold index. destruct (decide (0 <= i)); [|reflexivity].
    apply lookup_ge_None. destruct Hwf as [Hlen _]. lia. }
  split;
    [|split; [by apply Noise2DRaw_total
             |intros x' y' freq'; by apply Noise2DRaw64_total]].
  cbv zeta.
  set (xi := Z.land (int (math_Floor (x * freq))) 255) in *.
  set (yi := Z.land (int (math_Floor (y * freq))) 255) in *.
  destruct (wfTable_index _ xi Hwf ltac:(lia)) as (a & Ha & Hra).
  destruct (wfTable_index _ (xi + 1) Hwf ltac:(lia)) as (b & Hb & Hrb).
  destruct (wfTable_index _ (a + yi) Hwf ltac:(lia)) as (aa & Haa & _).
  destruct (wfTable_index _ (a + yi + 1) Hwf ltac:(lia)) as (ab & Hab & _).
  destruct (wfTable_index _ (b + yi) Hwf ltac:(lia)) as (ba & Hba & _).
  destruct (wfTable_index _ (b + yi + 1) Hwf ltac:(lia)) as (bb & Hbb & _).
  exists a, b, aa, ab, ba, bb. repeat split; try assumption; lia.
Qed.

End TableBounds.

(** ** Fractal layering *)


Lemma Qmult_1_r_eq (q : Q) : (q * 1)%Q = q.
Proof.
  destruct q as [n d]. unfold Qmult. simpl.
  by rewrite Z.mul_1_r, Pos.mul_1_r.
Qed.

Lemma fbmLoop_unit (P : perlin.Perlin) (x y freq v : Q) (n : nat) :
  perlin.Noise2DRaw P x y freq = Some v ->
  forall total maxAmp, exists t m,
    perlin.fbmLoop P x y 1 1 n total 1 freq maxAmp = Some (t, m) /\
    (t == total + inject_Z (Z.of_nat n) * v)%Q /\
    (m == maxAmp + inject_Z (Z.of_nat n))%Q.
Proof.
  intros Hv. induction n as [|n IH]; intros total maxAmp.
  - exists total, maxAmp. split; [reflexivity|]. simpl. split; ring.
  - cbn [perlin.fbmLoop]. rewrite Hv. cbn [mbind option_bind].
    rewrite (Qmult_1_r_eq freq). change (1 * 1)%Q with 1%Q.
    destruct (IH (total + v * 1)%Q (maxAmp + 1)%Q) as (t & m & Heq & Ht & Hm).
    exists t, m. split; [exact Heq|].
    rewrite Nat2Z.inj_succ. unfold Z.succ. rewrite inject_Z_plus.
    change (inject_Z 1) with 1%Q. rewrite Ht, Hm. split; ring.
Qed.

Lemma fbmLoop_None (P : perlin.Perlin) (x y pers lac freq : Q) (n : nat)
    (total amp maxAmp : Q) :
  perlin.Noise2DRaw P x y freq = None ->
  perlin.fbmLoop P x y pers lac (S n) total amp freq maxAmp = None.
Proof. intros Hv. cbn [perlin.fbmLoop]. by rewrite Hv. Qed.

(** C8, as amended.  For every table, all [x], [y], [freq] and every
    [octaves >= 1], in exact arithmetic
    [FBM2DRaw(x, y, freq, octaves, 1.0, 1.0)] equals [Noise2DRaw(x, y, freq)]:
    the sum of [octaves] identical terms divided by the cumulative amplitude
    [octaves] is the single-octave value. *)
Theorem FBM2DRaw_unit_persistence_lacunarity (P : perlin.Perlin) (x y freq : Q)
    (octaves : Z) :
  1 <= octaves ->
  sameValue (perlin.FBM2DRaw P x y freq octaves 1 1) (perlin.Noise2DRaw P x y freq).
Proof.
  intros Hoct. unfold perlin.FBM2DRaw.
  destruct (Z.to_nat octaves) as [|n] eqn:Hn; [lia|].
  destruct (perlin.Noise2DRaw P x y freq) as [v|] eqn:Hv.
  - destruct (fbmLoop_unit P x y freq v (S n) Hv 0%Q 0%Q) as (t & m & Heq & Ht & Hm).
    rewrite Heq. cbn [mbind option_bind].
    assert (Hpos : (0 < inject_Z (Z.of_nat (S n)))%Q).
    { change 0%Q with (inject_Z 0). rewrite <- Zlt_Qlt. lia. }
    destruct (Qeq_bool m 0) eqn:Hz.
    + apply Qeq_bool_eq in Hz. rewrite Hm in Hz. lra.
    + simpl. rewrite Ht, Hm. field. lra.
  - rewrite fbmLoop_None by exact Hv. exact I.
Qed.

Lemma fbmLoop_maxAmp_mono (P : perlin.Perlin) (x y pers lac : Q) (n : nat) :
  (0 <= pers)%Q -> forall total amp freq maxAmp t m,
  (0 <= amp)%Q ->
  perlin.fbmLoop P x y pers lac n total amp freq maxAmp = Some (t, m) ->
  (maxAmp <= m)%Q.
Proof.
  intros Hp. induction n as [|n IH]; intros total amp freq maxAmp t m Ha Heq.
  - simpl in Heq. injection Heq as _ <-. lra.
  - cbn [perlin.fbmLoop] in Heq.
    destruct (perlin.Noise2DRaw P x y freq) as [v|]; [|discriminate].
    cbn [mbind option_bind] in Heq.
    apply IH in Heq; [lra | nra].
Qed.

Lemma fbmLoop_maxAmp_first (P : perlin.Perlin) (x y pers lac : Q) (n : nat)
    (total amp freq maxAmp t m : Q) :
  (0 <= pers)%Q -> (0 <= amp)%Q ->
  perlin.fbmLoop P x y pers lac (S n) total amp freq maxAmp = Some (t, m) ->
  (maxAmp + amp <= m)%Q.
Proof.
  intros Hp Ha Heq. cbn [perlin.fbmLoop] in Heq.
  destruct (perlin.Noise2DRaw P x y freq) as [v|]; [|discriminate].
  cbn [mbind option_bind] in Heq.
  apply fbmLoop_maxAmp_mono in Heq; [exact Heq | exact Hp | nra].
Qed.

(** C9, as amended.  [FBM2DRaw] returns 0 instead of dividing when the
    cumulative maximum amplitude [maxAmp] is zero; and when [octaves >= 1] and
    [persistence >= 0], [maxAmp] is at least 1 (the first octave's amplitude),
    so the guard is not taken and the result is [total / maxAmp]. *)
Theorem FBM2DRaw_zero_guard (P : perlin.Perlin) (x y baseFreq : Q) (octaves : Z)
    (persistence lacunarity total maxAmp : Q) :
  perlin.fbmLoop P x y persistence lacunarity (Z.to_nat octaves) 0 1 baseFreq 0
    = Some (total, maxAmp) ->
  ((maxAmp == 0)%Q ->
   perlin.FBM2DRaw P x y baseFreq octaves persistence lacunarity = Some 0%Q) /\
  (1 <= octaves -> (0 <= persistence)%Q ->
   (1 <= maxAmp)%Q /\
   perlin.FBM2DRaw P x y baseFreq octaves persistence lacunarity
     = Some (total / maxAmp)%Q).
Proof.
  intros Heq. unfold perlin.FBM2DRaw. rewrite Heq. cbn [mbind option_bind].
  split.
  - intros Hz. apply Qeq_bool_iff in Hz. by rewrite Hz.
  - intros Hoct Hp.
    destruct (Z.to_nat octaves) as [|n] eqn:Hn; [lia|].
    apply fbmLoop_maxAmp_first in Heq; [|exact Hp|lra].
    assert (H1 : (1 <= maxAmp)%Q) by lra.
    split; [exact H1|].
    destruct (Qeq_bool maxAmp 0) eqn:Hz; [|reflexivity].
    apply Qeq_bool_eq in Hz. lra.
Qed.

Lemma FBM2DRaw_unit_persistence_lacunarity_witness :
  1 <= 3 /\
  sameValue (perlin.FBM2DRaw inputs.identityTable 10 20 (3 # 512) 3 1 1)
            (perlin.Noise2DRaw inputs.identityTable 10 20 (3 # 512)).
Proof.
  split; [lia|]. apply FBM2DRaw_unit_persistence_lacunarity. lia.
Defined.

(** C8, as stated, fails in binary64 arithmetic: at [x = 1], [y = 0],
    [freq = 0.006] and [octaves = 3] on the identity table, the sum of three
    equal terms is rounded and its third is [Noise2DRaw(x, y, freq)] plus one
    unit in the last place. *)
Lemma FBM2DRaw_float64_last_place :
  perlin64.Noise2DRaw inputs.identityTable 1 0 0x1.89374bc6a7efap-8
    = Some 0x1.895ac7491a13ap-8%float /\
  perlin64.FBM2DRaw inputs.identityTable 1 0 0x1.89374bc6a7efap-8 3 1 1
    = Some 0x1.895ac7491a13bp-8%float /\
  PrimFloat.eqb 0x1.895ac7491a13ap-8 0x1.895ac7491a13bp-8 = false /\
  1 <= 3.
Proof. repeat split; try (vm_compute; reflexivity). lia. Qed.

(** C9, as stated, fails: with [octaves = 2] and [persistence = -1] the
    amplitudes 1 and -1 add up to [maxAmp = 0], below 1, and [FBM2DRaw] takes
    the guard branch and returns 0, in exact and in binary64 arithmetic. *)
Lemma FBM2DRaw_guard_reached :
  exists total maxAmp,
    perlin.fbmLoop inputs.identityTable 10 20 (-1) 2 (Z.to_nat 2) 0 1 (3 # 512) 0
      = Some (total, maxAmp) /\
    1 <= 2 /\ (maxAmp < 1)%Q /\ (maxAmp == 0)%Q /\ ~ (total == 0)%Q /\
    perlin.FBM2DRaw inputs.identityTable 10 20 (3 # 512) 2 (-1) 2 = Some 0%Q /\
    perlin64.FBM2DRaw inputs.identityTable 10 20 0x1.8p-8 2 (-1) 2 = Some 0%float.
Proof.
  eexists _, _. split; [vm_compute; reflexivity|].
  split; [lia|]. split; [reflexivity|]. split; [reflexivity|].
  split; [intros Hz; vm_compute in Hz; discriminate Hz|].
  repeat split; vm_compute; reflexivity.
Qed.

Lemma FBM2DRaw_zero_guard_witness :
  exists total maxAmp,
    perlin.fbmLoop inputs.identityTable 10 20 (1 # 2) 2 (Z.to_nat 2) 0 1 (3 # 512) 0
      = Some (total, maxAmp) /\
    1 <= 2 /\ (0 <= 1 # 2)%Q /\ (1 <= maxAmp)%Q /\
    perlin.FBM2DRaw inputs.identityTable 10 20 (3 # 512) 2 (1 # 2) 2
      = Some (total / maxAmp)%Q.
Proof.
  eexists _, _. split; [vm_compute; reflexivity|].
  split; [lia|]. split; [discriminate|].
  apply (FBM2DRaw_zero_guard inputs.identityTable 10 20 (3 # 512) 2 (1 # 2) 2).
  - vm_compute. reflexivity.
  - lia.
  - discriminate.
Defined.

(** ** Rounding to binary64 *)

Section Rounding.
Local Open Scope Q_scope.

Lemma roundEven_near (q : Q) : Qabs (inject_Z (roundEven q) - q) <= 1 # 2.
Proof.
  unfold roundEven.
  pose proof (Qfloor_le q) as Hlo. pose proof (Qlt_floor q) as Hhi.
  rewrite inject_Z_plus in Hhi. change (inject_Z 1) with 1 in Hhi.
  apply Qabs_Qle_condition.
  destruct (Qcompare_spec (q - inject_Z (Qfloor q)) (1 # 2)) as [E|E|E].
  - destruct (Z.even (Qfloor q)).
    + lra.
    + rewrite inject_Z_plus. change (inject_Z 1) with 1. lra.
  - lra.
  - rewrite inject_Z_plus. change (inject_Z 1) with 1. lra.
Qed.

Lemma two_pow_pos (k : Z) : 0 < 2 ^ k.
Proof. apply Qpower_0_lt. reflexivity. Qed.

Lemma ilog2_le (q : Q) : 0 < q -> 2 ^ ilog2 q <= q.
Proof.
  intros Hq. unfold ilog2.
  destruct (Qle_bool _ q) eqn:E; [apply Qle_bool_iff; exact E|]. clear E.
  destruct q as [n d]. cbn [Qnum Qden].
  assert (Hn : (0 < n)%Z).
  { unfold Qlt in Hq. cbn in Hq. lia. }
  destruct (Z.log2_spec n Hn) as [Hn1 _].
  destruct (Z.log2_spec (Z.pos d) (Pos2Z.is_pos d)) as [_ Hd2].
  pose proof (Z.log2_nonneg n) as Ha.
  pose proof (Z.log2_nonneg (Z.pos d)) as Hb.
  set (a := Z.log2 n) in *. set (b := Z.log2 (Z.pos d)) in *.
  replace (a - b - 1)%Z with (a + - Z.succ b)%Z by lia.
  rewrite Qpower_plus by discriminate. rewrite Qpower_opp.
  change 2 with (inject_Z 2).
  rewrite <- !Zpower_Qpower by lia.
  rewrite (Qmake_Qdiv n d).
  assert (H1 : inject_Z (2 ^ a) <= inject_Z n)
    by (rewrite <- Zle_Qle; exact Hn1).
  assert (H2 : inject_Z (Z.pos d) <= inject_Z (2 ^ Z.succ b))
    by (rewrite <- Zle_Qle; lia).
  assert (H3 : 0 < inject_Z (Z.pos d))
    by (change 0 with (inject_Z 0); rewrite <- Zlt_Qlt; lia).
  assert (H4 : 0 < inject_Z (2 ^ a)).
  { change 0 with (inject_Z 0); rewrite <- Zlt_Qlt.
    apply Z.pow_pos_nonneg; lia. }
  set (A := inject_Z (2 ^ a)) in *. set (B := inject_Z (2 ^ Z.succ b)) in *.
  set (N := inject_Z n) in *. set (D := inject_Z (Z.pos d)) in *.
  apply Qle_shift_div_l; [exact H3|].
  apply Qle_trans with (A * / B * B).
  - apply Qmult_le_l.
    + apply Qmult_lt_0_compat; [exact H4|]. apply Qinv_lt_0_compat. lra.
    + exact H2.
  - assert (E : A * / B * B == A) by (field; lra). rewrite E. exact H1.
Qed.

(** The unit in the last place is at most [2^-52] times the number, unless
    the number is subnormal. *)
Lemma ulpExp_bound (q : Q) :
  ~ q == 0 ->
  2 ^ ulpExp q <= Qabs q * 2 ^ (-52) \/ ulpExp q = (-1074)%Z.
Proof.
  intros Hq. unfold ulpExp.
  destruct (Z.max_spec (ilog2 (Qabs q) - 52) (-1074)) as [[_ ->]|[_ ->]];
    [right; reflexivity|left].
  replace (ilog2 (Qabs q) - 52)%Z with (ilog2 (Qabs q) + -52)%Z by lia.
  rewrite Qpower_plus by discriminate.
  apply Qmult_le_compat_r; [|apply Qlt_le_weak, two_pow_pos].
  apply ilog2_le.
  pose proof (Qabs_nonneg q).
  destruct (Qeq_dec (Qabs q) 0) as [E|E]; [|lra].
  exfalso. apply Hq. revert E. apply Qabs_case; intros; lra.
Qed.

(** Rounding moves a number by at most half a unit in the last place. *)
Lemma round64_near (q : Q) :
  Qabs (round64 q - q) <= (1 # 2) * 2 ^ ulpExp q.
Proof.
  unfold round64.
  pose proof (two_pow_pos (ulpExp q)) as Hp.
  destruct (Qeq_bool q 0) eqn:E0.
  { apply Qeq_bool_iff in E0. apply Qabs_Qle_condition. lra. }
  cbv zeta.
  pose proof (roundEven_near (Qabs q / 2 ^ ulpExp q)) as Hr.
  set (k := inject_Z (roundEven (Qabs q / 2 ^ ulpExp q))) in *.
  set (p := 2 ^ ulpExp q) in *.
  apply Qabs_Qle_condition in Hr. destruct Hr as [Hr1 Hr2].
  assert (Ha : Qabs q == Qabs q / p * p) by (field; lra).
  set (t := Qabs q / p) in *.
  assert (H1 : - ((1 # 2) * p) <= k * p - Qabs q).
  { assert (0 <= (k - t + (1 # 2)) * p) by (apply Qmult_le_0_compat; lra).
    lra. }
  assert (H2 : k * p - Qabs q <= (1 # 2) * p).
  { assert (0 <= ((1 # 2) - (k - t)) * p) by (apply Qmult_le_0_compat; lra).
    lra. }
  destruct (Qle_bool 0 q) eqn:Es; rewrite Qred_correct; fold p t k;
    apply Qabs_Qle_condition.
  - apply Qle_bool_iff in Es. rewrite (Qabs_pos q Es) in H1, H2. lra.
  - assert (Hneg : q <= 0).
    { destruct (Qlt_le_dec 0 q) as [L|L]; [|exact L].
      apply Qlt_le_weak, Qle_bool_iff in L. congruence. }
    rewrite (Qabs_neg q Hneg) in H1, H2. lra.
Qed.

(** Up to [2^46] in magnitude the rounding error is below [2^-7]. *)
Lemma round64_near_128 (q : Q) :
  Qabs q <= inject_Z (2 ^ 46) -> Qabs (round64 q - q) <= 1 # 128.
Proof.
  intros Hq. destruct (Qeq_dec q 0) as [E0|E0].
  { unfold round64. apply Qeq_bool_iff in E0 as E1. rewrite E1.
    apply Qabs_Qle_condition. lra. }
  eapply Qle_trans; [apply round64_near|].
  destruct (ulpExp_bound q E0) as [Hb| ->].
  - assert (E : inject_Z (2 ^ 46) * 2 ^ (-52) == 1 # 64) by reflexivity.
    assert (Hle : Qabs q * 2 ^ (-52) <= inject_Z (2 ^ 46) * 2 ^ (-52)).
    { apply Qmult_le_compat_r; [exact Hq|]. apply Qlt_le_weak, two_pow_pos. }
    lra.
  - vm_compute. discriminate.
Qed.

End Rounding.

(** [round64] against the machine: for the sea levels of the slider, the
    float64 nearest to [k/100] for [k = 0 .. 100] (line 324 of main.go), the
    rounded sum is the float64 sum, and the same holds for the hundredths
    from [-3] to [7]. *)
Lemma round64_is_float64_add :
  forallb (fun k =>
             let s := (perlin64.ofZ k / 100)%float in
             Qeq_bool (poi.landThreshold (valueOf s))
                      (valueOf (s + 0x1.999999999999ap-5)%float))
          (seqZ (-300) 1000) = true.
Proof. vm_compute. reflexivity. Qed.

(** At the default sea level, 0.45, the land threshold is exactly 0.5. *)
Lemma landThreshold_default :
  (valueOf 0x1.ccccccccccccdp-2 == inputs.seaLevel0)%Q /\
  (valueOf 0x1.999999999999ap-5 == poi.c_0_05)%Q /\
  poi.landThreshold inputs.seaLevel0 = (1 # 2)%Q /\
  (inputs.seaLevel0 + poi.c_0_05 > 1 # 2)%Q.
Proof. repeat split; vm_compute; reflexivity. Qed.

(** ** The Poisson-disk sampler *)

Section Sampler.
Context `{Rand R}.
Variables Cos Sin : Q -> Q.
Variables minDistance width height : Z.
Variable noiseMap : gmap poi.Point Q.
Variable seaLevel : Q.

Local Abbreviation onLand := (poi.onLand noiseMap seaLevel).
Local Abbreviation inBounds := (poi.inBounds width height).
Local Abbreviation seekLand := (poi.seekLand width height noiseMap seaLevel).
Local Abbreviation cell x := (int (float64 x / poi.cellSize minDistance)).
Local Abbreviation checkWindow := (poi.checkWindow minDistance width height).
Local Abbreviation attempts :=
  (poi.attempts Cos Sin minDistance width height noiseMap seaLevel).
Local Abbreviation activeLoop :=
  (poi.activeLoop Cos Sin minDistance width height noiseMap seaLevel).
Local Abbreviation PoissonDisk :=
  (poi.PoissonDisk Cos Sin minDistance width height noiseMap seaLevel).

Lemma onLand_spec (q : poi.Point) :
  onLand q = true <-> (poi.landThreshold seaLevel <= poi.mapGet noiseMap q)%Q.
Proof. apply Qle_bool_iff. Qed.

Lemma inBounds_spec (q : poi.Point) :
  inBounds q = true <-> (0 <= poi.X q < width /\ 0 <= poi.Y q < height).
Proof. unfold poi.inBounds. rewrite !andb_true_iff. lia. Qed.

Lemma seekLand_Done (fuel : nat) (r r' : R) (q : poi.Point) :
  seekLand fuel r = Done (q, r') -> onLand q = true /\ inBounds q = true.
Proof.
  revert r. induction fuel as [|fuel IH]; intros r Hs; [discriminate|].
  cbn [poi.seekLand] in Hs.
  destruct (decide (width <= 0)); [discriminate|].
  pose proof (Intn_range width r ltac:(lia)) as Hx.
  destruct (Intn width r) as [x r1].
  destruct (decide (height <= 0)); [discriminate|].
  pose proof (Intn_range height r1 ltac:(lia)) as Hy.
  destruct (Intn height r1) as [y r2]. cbn [fst] in *.
  destruct (onLand (poi.mkPoint x y)) eqn:Hland.
  - injection Hs as <- <-. split; [exact Hland|].
    apply inBounds_spec. simpl. lia.
  - by apply IH in Hs.
Qed.

Lemma seekLand_ocean (fuel : nat) (r : R) :
  0 < width -> 0 < height ->
  (forall q, inBounds q = true -> onLand q = false) ->
  seekLand fuel r = OutOfFuel.
Proof.
  intros Hw Hh Hocean. revert r.
  induction fuel as [|fuel IH]; intros r; [reflexivity|].
  cbn [poi.seekLand].
  destruct (decide (width <= 0)); [lia|].
  pose proof (Intn_range width r Hw) as Hx.
  destruct (Intn width r) as [x r1].
  destruct (decide (height <= 0)); [lia|].
  pose proof (Intn_range height r1 Hh) as Hy.
  destruct (Intn height r1) as [y r2]. cbn [fst] in *.
  rewrite Hocean; [apply IH|]. apply inBounds_spec. simpl. lia.
Qed.

(** What one run of the 30-attempt loop does to the state: nothing but
    drawing, or the acceptance of one candidate that is inside the raster,
    on land, and passed the window check. *)
Lemma attempts_cases (n : nat) (q : poi.Point) (st st' : poi.state R)
    (found : bool) :
  attempts n q st = Some (found, st') ->
  (found = false /\ poi.points st' = poi.points st /\
   poi.activePoints st' = poi.activePoints st /\ poi.grid st' = poi.grid st) \/
  (found = true /\ exists newPoint,
     inBounds newPoint = true /\ onLand newPoint = true /\
     checkWindow (poi.grid st) newPoint (cell (poi.X newPoint)) (cell (poi.Y newPoint))
       = Some true /\
     poi.gridSet (poi.grid st) (cell (poi.X newPoint)) (cell (poi.Y newPoint)) newPoint
       = Some (poi.grid st') /\
     poi.points st' = poi.points st ++ [newPoint] /\
     poi.activePoints st' = poi.activePoints st ++ [newPoint]).
Proof.
  revert st. induction n as [|n IH]; intros st Ha.
  - simpl in Ha. injection Ha as <- <-. left. auto.
  - cbn [poi.attempts] in Ha.
    destruct (poi.candidate Cos Sin minDistance q (poi.rng st)) as [newPoint r'].
    destruct (inBounds newPoint) eqn:Hb; cbn [andb] in Ha;
      [destruct (onLand newPoint) eqn:Hl|].
    + destruct (checkWindow _ newPoint _ _) as [[|]|] eqn:Hc;
        cbn [mbind option_bind] in Ha; [| |discriminate].
      * destruct (poi.gridSet _ _ _ newPoint) as [g|] eqn:Hg;
          cbn [mbind option_bind] in Ha; [|discriminate].
        injection Ha as <- <-. right. split; [reflexivity|].
        exists newPoint. cbn [poi.points poi.activePoints poi.grid]. auto 10.
      * apply IH in Ha. exact Ha.
    + apply IH in Ha. exact Ha.
    + apply IH in Ha. exact Ha.
Qed.

(** An invariant of the accepted points and the grid that every acceptance
    preserves holds of the result of the active loop. *)
Lemma activeLoop_invariant (I : list poi.Point -> list (list poi.Point) -> Prop) :
  (forall pts g newPoint g',
     I pts g -> inBounds newPoint = true -> onLand newPoint = true ->
     checkWindow g newPoint (cell (poi.X newPoint)) (cell (poi.Y newPoint)) = Some true ->
     poi.gridSet g (cell (poi.X newPoint)) (cell (poi.Y newPoint)) newPoint = Some g' ->
     I (pts ++ [newPoint]) g') ->
  forall fuel st pts,
    I (poi.points st) (poi.grid st) ->
    activeLoop fuel st = Done pts -> exists g, I pts g.
Proof.
  intros Hstep fuel. induction fuel as [|fuel IH]; intros st pts HI Hrun.
  - simpl in Hrun. destruct (poi.activePoints st); [|discriminate].
    injection Hrun as <-. eauto.
  - cbn [poi.activeLoop] in Hrun.
    destruct (poi.activePoints st) as [|a act] eqn:Hact.
    { injection Hrun as <-. eauto. }
    destruct (Intn _ (poi.rng st)) as [randomIndex r1].
    destruct (index (a :: act) randomIndex) as [q|]; [|discriminate].
    destruct (attempts 30 q _) as [[found st']|] eqn:Ha; [|discriminate].
    apply attempts_cases in Ha.
    destruct Ha as [(-> & Hp & _ & Hg) | (-> & np & Hb & Hl & Hc & Hs & Hp & _)].
    + apply IH in Hrun; [exact Hrun|]. cbn [poi.points poi.grid] in *.
      rewrite Hp, Hg. exact HI.
    + apply IH in Hrun; [exact Hrun|]. cbn [poi.points poi.grid] in *.
      rewrite Hp. by eapply Hstep.
Qed.

(** The stages of a run of [PoissonDisk] that returns. *)
Lemma PoissonDisk_Done (fuel : nat) (r : R) (pts : list poi.Point) (n : Z) :
  PoissonDisk fuel r = Done (pts, n) ->
  exists g0 startPoint r1 g,
    poi.makeGrid minDistance width height = Some g0 /\
    seekLand fuel r = Done (startPoint, r1) /\
    poi.gridSet g0 (cell (poi.X startPoint)) (cell (poi.Y startPoint)) startPoint
      = Some g /\
    activeLoop fuel (poi.mkState [startPoint] [startPoint] g r1) = Done pts /\
    n = Z.of_nat (length pts).
Proof.
  unfold poi.PoissonDisk. cbv zeta. intros Hrun.
  destruct (poi.makeGrid _ _ _) as [g0|]; [|discriminate].
  destruct (seekLand fuel r) as [[startPoint r1]| |]; [|discriminate..].
  destruct (poi.gridSet g0 _ _ startPoint) as [g|] eqn:Hset; [|discriminate].
  destruct (activeLoop fuel _) as [pts'| |] eqn:Hact; [|discriminate..].
  injection Hrun as <- <-. exists g0, startPoint, r1, g. auto 10.
Qed.

(** C6.  Every point of the list that [PoissonDisk] returns is on land: its
    height in [noiseMap] is at least [seaLevel + 0.05], the float64 sum that
    lines 36 and 64 compare with ([poi.landThreshold]: at sea level 0.45 it
    is 0.5, and a height of 0.5 is land). *)
Theorem PoissonDisk_points_on_land (fuel : nat) (r : R)
    (pts : list poi.Point) (n : Z) :
  PoissonDisk fuel r = Done (pts, n) ->
  Forall (fun q => (poi.landThreshold seaLevel <= poi.mapGet noiseMap q)%Q) pts.
Proof.
  intros Hrun.
  apply PoissonDisk_Done in Hrun as (g0 & sp & r1 & g & _ & Hseek & _ & Hact & _).
  apply seekLand_Done in Hseek as [Hland _].
  apply (activeLoop_invariant (fun pts _ => Forall (fun q => onLand q = true) pts))
    in Hact.
  - destruct Hact as [_ Hall]. eapply Forall_impl; [exact Hall|].
    intros q Hq. by apply onLand_spec.
  - intros ps g1 np g' Hps _ Hl _ _. apply Forall_app. split; [exact Hps|].
    by apply Forall_singleton.
  - by apply Forall_singleton.
Qed.

Lemma int_inject_Z (z : Z) : int (inject_Z z) = z.
Proof. unfold int. simpl. apply Z.quot_1_r. Qed.

Lemma cellSize_pos : 0 < minDistance -> (0 < poi.cellSize minDistance)%Q.
Proof.
  intros Hm. unfold poi.cellSize, float64.
  assert (Hq : (0 < inject_Z minDistance)%Q).
  { change 0%Q with (inject_Z 0). rewrite <- Zlt_Qlt. exact Hm. }
  apply Qlt_shift_div_l; [reflexivity | lra].
Qed.

Lemma Qceiling_pos (q : Q) : (0 < q)%Q -> 0 < Qceiling q.
Proof.
  intros Hq. pose proof (Qle_ceiling q) as Hc.
  rewrite Zlt_Qlt. change (inject_Z 0) with 0%Q. lra.
Qed.

Lemma gridWidth_pos :
  0 < minDistance -> 0 < width -> 0 < poi.gridWidth minDistance width.
Proof.
  intros Hm Hw. unfold poi.gridWidth, math_Ceil. rewrite int_inject_Z.
  apply Qceiling_pos. apply Qlt_shift_div_l; [by apply cellSize_pos|].
  unfold float64. rewrite Qmult_0_l.
  change 0%Q with (inject_Z 0). rewrite <- Zlt_Qlt. exact Hw.
Qed.

Lemma gridHeight_pos :
  0 < minDistance -> 0 < height -> 0 < poi.gridHeight minDistance height.
Proof.
  intros Hm Hh. unfold poi.gridHeight, math_Ceil. rewrite int_inject_Z.
  apply Qceiling_pos. apply Qlt_shift_div_l; [by apply cellSize_pos|].
  unfold float64. rewrite Qmult_0_l.
  change 0%Q with (inject_Z 0). rewrite <- Zlt_Qlt. exact Hh.
Qed.

Lemma makeGrid_Some :
  0 < minDistance -> 0 < width -> 0 < height ->
  poi.makeGrid minDistance width height =
  Some (replicate (Z.to_nat (poi.gridWidth minDistance width))
          (replicate (Z.to_nat (poi.gridHeight minDistance height)) poi.zero)).
Proof.
  intros Hm Hw Hh. unfold poi.makeGrid.
  pose proof (gridWidth_pos Hm Hw). pose proof (gridHeight_pos Hm Hh).
  destruct (decide (poi.gridWidth minDistance width < 0)); [lia|].
  destruct (decide (_ /\ _)); [lia|]. reflexivity.
Qed.

(** On a raster with no land the sampler never gets past its first loop. *)
Lemma PoissonDisk_ocean (fuel : nat) (r : R) :
  0 < minDistance -> 0 < width -> 0 < height ->
  (forall q, inBounds q = true -> onLand q = false) ->
  PoissonDisk fuel r = OutOfFuel.
Proof.
  intros Hm Hw Hh Hocean. unfold poi.PoissonDisk.
  rewrite makeGrid_Some by assumption.
  by rewrite seekLand_ocean.
Qed.

(** C3, as amended.  When no coordinate of the raster is on land, that is,
    every height is below the float64 sum [seaLevel + 0.05] of the land test,
    the initial land-seeking loop of [PoissonDisk] never ends: for every
    number of iterations the loop is still drawing, so [PoissonDisk] neither
    returns a point list nor raises an error. *)
Theorem PoissonDisk_no_land_never_returns (fuel : nat) (r : R) :
  0 < minDistance -> 0 < width -> 0 < height ->
  (forall q, 0 <= poi.X q < width -> 0 <= poi.Y q < height ->
     (poi.mapGet noiseMap q < poi.landThreshold seaLevel)%Q) ->
  seekLand fuel r = OutOfFuel /\ PoissonDisk fuel r = OutOfFuel.
Proof.
  intros Hm Hw Hh Hocean.
  assert (Hoc : forall q, inBounds q = true -> onLand q = false).
  { intros q Hq. apply inBounds_spec in Hq as [Hx Hy].
    specialize (Hocean q Hx Hy).
    destruct (onLand q) eqn:Hl; [|reflexivity].
    apply onLand_spec in Hl. lra. }
  split; [by apply seekLand_ocean | by apply PoissonDisk_ocean].
Qed.

Lemma angleOf_range (u : Q) :
  (0 <= u)%Q -> (u < 1)%Q ->
  (0 <= poi.angleOf u)%Q /\ (poi.angleOf u < 2 * math_Pi)%Q.
Proof.
  intros H0 H1. unfold poi.angleOf.
  assert (Hpi : (0 < math_Pi)%Q) by reflexivity. split; nra.
Qed.

Lemma distOf_range (u : Q) :
  0 < minDistance -> (0 <= u)%Q -> (u < 1)%Q ->
  (float64 minDistance <= poi.distOf minDistance u)%Q /\
  (poi.distOf minDistance u < 3 * float64 minDistance)%Q.
Proof.
  intros Hm H0 H1. unfold poi.distOf, float64.
  assert (Hq : (0 < inject_Z minDistance)%Q).
  { change 0%Q with (inject_Z 0). rewrite <- Zlt_Qlt. exact Hm. }
  split; nra.
Qed.

(** C2, as amended.  Each candidate of the attempt loop is
    [q + radius * (cos theta, sin theta)] rounded to the nearest integer
    coordinates, where [theta] is the first draw of [Float64] scaled to
    [[0, 2 * Pi)] and [radius] is the second draw scaled to
    [[minDistance, 3 * minDistance)]. *)
Theorem candidate_in_annulus (q : poi.Point) (r : R) :
  0 < minDistance ->
  exists theta radius r',
    poi.candidate Cos Sin minDistance q r =
      (poi.mkPoint (int (math_Round (float64 (poi.X q) + Cos theta * radius)))
                   (int (math_Round (float64 (poi.Y q) + Sin theta * radius))), r') /\
    theta = poi.angleOf (fst (Float64 r)) /\
    radius = poi.distOf minDistance (fst (Float64 (snd (Float64 r)))) /\
    (0 <= theta)%Q /\ (theta < 2 * math_Pi)%Q /\
    (float64 minDistance <= radius)%Q /\ (radius < 3 * float64 minDistance)%Q.
Proof.
  intros Hm. unfold poi.candidate.
  destruct (Float64_range r) as [Ha0 Ha1].
  destruct (Float64 r) as [u1 r1]. cbn [fst snd] in *.
  destruct (Float64_range r1) as [Hd0 Hd1].
  destruct (Float64 r1) as [u2 r2]. cbn [fst snd] in *.
  destruct (angleOf_range u1 Ha0 Ha1) as [? ?].
  destruct (distOf_range u2 Hm Hd0 Hd1) as [? ?].
  exists (poi.angleOf u1), (poi.distOf minDistance u2), r2. auto 10.
Qed.

End Sampler.

(** *** The grid: cells, the window check and separation *)


Lemma int_nonneg (q : Q) : (0 <= q)%Q -> int q = Qfloor q.
Proof.
  destruct q as [n d]. unfold Qle, int, Qfloor. simpl. intros Hn.
  apply Z.quot_div_nonneg; lia.
Qed.

Lemma cell_div (m x : Z) : 0 < m -> 0 <= x ->
  int (float64 x / poi.cellSize m) = (x * sqrt2N) / (m * sqrt2D).
Proof.
  intros Hm Hx. destruct m as [|p|p]; try lia.
  unfold poi.cellSize, float64, math_Sqrt2, int.
  unfold Qdiv, Qmult, Qinv, inject_Z. simpl.
  rewrite Z.quot_div_nonneg by lia.
  unfold sqrt2N, sqrt2D. f_equal; lia.
Qed.

Lemma div_cell_near (N D m x1 x2 : Z) :
  0 < N -> 0 < D -> N <= 2 * D -> 0 < m ->
  x1 - x2 < m -> (x1 * N) / (m * D) - (x2 * N) / (m * D) <= 2.
Proof.
  intros HN HD HND Hm Hx. assert (Hb : 0 < m * D) by lia.
  pose proof (Z.mul_div_le (x1 * N) (m * D) Hb) as H1.
  pose proof (Z.mul_succ_div_gt (x2 * N) (m * D) Hb) as H2.
  assert (H3 : (x1 - x2) * N < m * N) by (apply Z.mul_lt_mono_pos_r; lia).
  assert (H4 : m * N <= m * (2 * D)) by (apply Z.mul_le_mono_nonneg_l; lia).
  nia.
Qed.

Lemma div_cell_same (N D m x1 x2 : Z) :
  0 < D -> 0 < m ->
  (x1 * N) / (m * D) = (x2 * N) / (m * D) -> (x1 - x2) * N < m * D.
Proof.
  intros HD Hm Heq. assert (Hb : 0 < m * D) by lia.
  pose proof (Z.mul_succ_div_gt (x1 * N) (m * D) Hb) as H1.
  pose proof (Z.mul_div_le (x2 * N) (m * D) Hb) as H2.
  rewrite Heq in H1. nia.
Qed.

Lemma sum_squares_lt (m d e : Z) :
  0 < m -> d * d + e * e < m * m -> (- m < d < m) /\ (- m < e < m).
Proof.
  intros Hm Hsq.
  pose proof (Z.square_nonneg d) as Hd. pose proof (Z.square_nonneg e) as He.
  assert (Hb : forall t, t * t < m * m -> - m < t < m).
  { intros t Ht. split.
    - destruct (Z.lt_ge_cases (- m) t) as [?|Hge]; [assumption|].
      assert (m * m <= (- t) * (- t)) by (apply Z.mul_le_mono_nonneg; lia). lia.
    - destruct (Z.lt_ge_cases t m) as [?|Hge]; [assumption|].
      assert (m * m <= t * t) by (apply Z.mul_le_mono_nonneg; lia). lia. }
  split; apply Hb; lia.
Qed.

Lemma square_lt_of_abs (a b : Z) : - b < a -> a < b -> a * a < b * b.
Proof. intros. nia. Qed.

Lemma same_cell_square (N D m dx dy : Z) :
  0 < N -> 0 < D -> 2 * (D * D) <= N * N -> 0 < m ->
  dx * N < m * D -> - dx * N < m * D ->
  dy * N < m * D -> - dy * N < m * D ->
  dx * dx + dy * dy < m * m.
Proof.
  intros HN HD HDN Hm H1 H2 H3 H4.
  pose proof (square_lt_of_abs (dx * N) (m * D) ltac:(lia) ltac:(lia)) as Hx.
  pose proof (square_lt_of_abs (dy * N) (m * D) ltac:(lia) ltac:(lia)) as Hy.
  destruct (Z.lt_ge_cases (dx * dx + dy * dy) (m * m)) as [?|Hge]; [assumption|].
  exfalso.
  assert (Hs : m * m * (N * N) <= (dx * dx + dy * dy) * (N * N))
    by (apply Z.mul_le_mono_nonneg_r; nia).
  assert (Hd : m * m * (2 * (D * D)) <= m * m * (N * N))
    by (apply Z.mul_le_mono_nonneg_l; nia).
  nia.
Qed.


Lemma gridSet_inv (g g' : list (list poi.Point)) (x y : Z) (v : poi.Point) :
  poi.gridSet g x y v = Some g' ->
  exists col, g !! Z.to_nat x = Some col /\ 0 <= x /\
    0 <= y < Z.of_nat (length col) /\
    g' = <[Z.to_nat x := <[Z.to_nat y := v]> col]> g.
Proof.
  unfold poi.gridSet. intros Hs.
  destruct (index g x) as [col|] eqn:Hcol; cbn [mbind option_bind] in Hs;
    [|discriminate].
  destruct (store col y v) as [col'|] eqn:Hst; cbn [mbind option_bind] in Hs;
    [|discriminate].
  apply store_inv in Hst as [Hy ->]. apply store_inv in Hs as [Hx ->].
  apply index_Some in Hcol as [Hx0 Hcol]. exists col. auto.
Qed.

Lemma gridGet_gridSet_same (g g' : list (list poi.Point)) (x y : Z) (v : poi.Point) :
  poi.gridSet g x y v = Some g' -> poi.gridGet g' x y = Some v.
Proof.
  intros Hs. apply gridSet_inv in Hs as (col & Hcol & Hx & Hy & ->).
  unfold poi.gridGet, index.
  destruct (decide (0 <= x)); [|lia].
  rewrite list_lookup_insert_eq by (by apply lookup_lt_Some in Hcol).
  cbn [mbind option_bind]. destruct (decide (0 <= y)); [|lia].
  apply list_lookup_insert_eq. lia.
Qed.

Lemma gridGet_gridSet_other (g g' : list (list poi.Point)) (x y x' y' : Z)
    (v : poi.Point) :
  poi.gridSet g x y v = Some g' -> 0 <= x' -> 0 <= y' -> (x' <> x \/ y' <> y) ->
  poi.gridGet g' x' y' = poi.gridGet g x' y'.
Proof.
  intros Hs Hx' Hy' Hne. apply gridSet_inv in Hs as (col & Hcol & Hx & Hy & ->).
  unfold poi.gridGet, index.
  destruct (decide (0 <= x')); [|lia].
  destruct (decide (x' = x)) as [->|Hxne].
  - rewrite list_lookup_insert_eq by (by apply lookup_lt_Some in Hcol).
    rewrite Hcol. cbn [mbind option_bind].
    destruct (decide (0 <= y')); [|lia].
    apply list_lookup_insert_ne. lia.
  - rewrite list_lookup_insert_ne by lia. reflexivity.
Qed.

Lemma gridShape_gridSet (g g' : list (list poi.Point)) (gw gh x y : Z)
    (v : poi.Point) :
  gridShape g gw gh -> poi.gridSet g x y v = Some g' -> gridShape g' gw gh.
Proof.
  intros [Hlen Hall] Hs. apply gridSet_inv in Hs as (col & Hcol & Hx & Hy & ->).
  split; [by rewrite length_insert|].
  apply Forall_insert; [exact Hall|]. rewrite length_insert.
  rewrite Forall_lookup in Hall. exact (Hall _ _ Hcol).
Qed.

Lemma gridShape_replicate (gw gh : Z) :
  gridShape (replicate (Z.to_nat gw) (replicate (Z.to_nat gh) poi.zero)) gw gh.
Proof.
  split; [apply length_replicate|].
  apply Forall_replicate. apply length_replicate.
Qed.

Lemma gridGet_in_range (g : list (list poi.Point)) (gw gh x y : Z) :
  gridShape g gw gh -> 0 <= x < gw -> 0 <= y < gh ->
  is_Some (poi.gridGet g x y).
Proof.
  intros [Hlen Hall] Hx Hy. unfold poi.gridGet.
  destruct (index_in_range g x ltac:(lia)) as [col Hcol]. rewrite Hcol.
  cbn [mbind option_bind]. apply index_Some in Hcol as [_ Hcol].
  rewrite Forall_lookup in Hall. specialize (Hall _ _ Hcol).
  destruct (index_in_range col y ltac:(lia)) as [q Hq]. eauto.
Qed.

Lemma gridSet_in_range (g : list (list poi.Point)) (gw gh x y : Z) (v : poi.Point) :
  gridShape g gw gh -> 0 <= x < gw -> 0 <= y < gh ->
  is_Some (poi.gridSet g x y v).
Proof.
  intros [Hlen Hall] Hx Hy. unfold poi.gridSet.
  destruct (index_in_range g x ltac:(lia)) as [col Hcol]. rewrite Hcol.
  cbn [mbind option_bind]. apply index_Some in Hcol as [_ Hcol].
  rewrite Forall_lookup in Hall. specialize (Hall _ _ Hcol).
  rewrite store_Some by lia. cbn [mbind option_bind].
  rewrite store_Some by lia. eauto.
Qed.

Section Separation.
Context `{Rand R}.
Variables Cos Sin : Q -> Q.
Variables minDistance width height : Z.
Variable noiseMap : gmap poi.Point Q.
Variable seaLevel : Q.
Hypothesis Hm : 0 < minDistance.

Local Abbreviation gw := (poi.gridWidth minDistance width).
Local Abbreviation gh := (poi.gridHeight minDistance height).
Local Abbreviation cell x := (int (float64 x / poi.cellSize minDistance)).
Local Abbreviation inBounds := (poi.inBounds width height).
Local Abbreviation tooClose := (poi.tooClose minDistance).
Local Abbreviation checkCell := (poi.checkCell minDistance width height).
Local Abbreviation checkWindow := (poi.checkWindow minDistance width height).
Local Abbreviation separated := (separated minDistance).
Local Abbreviation samplerInv := (samplerInv minDistance width height).

Lemma sqrt2_facts :
  0 < sqrt2N /\ 0 < sqrt2D /\ sqrt2N <= 2 * sqrt2D /\
  2 * (sqrt2D * sqrt2D) <= sqrt2N * sqrt2N.
Proof. unfold sqrt2N, sqrt2D. repeat split; lia. Qed.

Lemma cell_nonneg (x : Z) : 0 <= x -> 0 <= cell x.
Proof.
  intros Hx. rewrite cell_div by lia.
  destruct sqrt2_facts as (HN & HD & _). apply Z.div_pos; nia.
Qed.

Lemma cell_lt_gridWidth (x : Z) : 0 <= x < width -> cell x < gw.
Proof.
  intros Hx. unfold poi.gridWidth, math_Ceil. rewrite int_inject_Z.
  assert (Hcs : (0 < poi.cellSize minDistance)%Q) by (by apply cellSize_pos).
  assert (Hq : (0 <= float64 x / poi.cellSize minDistance)%Q).
  { apply Qle_shift_div_l; [exact Hcs|]. rewrite Qmult_0_l. unfold float64.
    change 0%Q with (inject_Z 0). rewrite <- Zle_Qle. lia. }
  rewrite int_nonneg by exact Hq.
  rewrite Zlt_Qlt. eapply Qle_lt_trans; [apply Qfloor_le|].
  eapply Qlt_le_trans; [|apply Qle_ceiling].
  apply Qmult_lt_r; [by apply Qinv_lt_0_compat|].
  unfold float64. rewrite <- Zlt_Qlt. lia.
Qed.

Lemma cell_lt_gridHeight (y : Z) : 0 <= y < height -> cell y < gh.
Proof.
  intros Hy. unfold poi.gridHeight, math_Ceil. rewrite int_inject_Z.
  assert (Hcs : (0 < poi.cellSize minDistance)%Q) by (by apply cellSize_pos).
  assert (Hq : (0 <= float64 y / poi.cellSize minDistance)%Q).
  { apply Qle_shift_div_l; [exact Hcs|]. rewrite Qmult_0_l. unfold float64.
    change 0%Q with (inject_Z 0). rewrite <- Zle_Qle. lia. }
  rewrite int_nonneg by exact Hq.
  rewrite Zlt_Qlt. eapply Qle_lt_trans; [apply Qfloor_le|].
  eapply Qlt_le_trans; [|apply Qle_ceiling].
  apply Qmult_lt_r; [by apply Qinv_lt_0_compat|].
  unfold float64. rewrite <- Zlt_Qlt. lia.
Qed.

Lemma cell_near (x1 x2 : Z) :
  0 <= x1 -> 0 <= x2 -> - minDistance < x1 - x2 < minDistance ->
  -2 <= cell x1 - cell x2 <= 2.
Proof.
  intros H1 H2 Hd. rewrite !cell_div by lia.
  destruct sqrt2_facts as (HN & HD & HND & _).
  pose proof (div_cell_near sqrt2N sqrt2D minDistance x1 x2 HN HD HND Hm ltac:(lia)).
  pose proof (div_cell_near sqrt2N sqrt2D minDistance x2 x1 HN HD HND Hm ltac:(lia)).
  lia.
Qed.

Lemma same_cell_tooClose (a b : poi.Point) :
  0 <= poi.X a -> 0 <= poi.Y a -> 0 <= poi.X b -> 0 <= poi.Y b ->
  cell (poi.X a) = cell (poi.X b) -> cell (poi.Y a) = cell (poi.Y b) ->
  tooClose a b = true.
Proof.
  intros Hxa Hya Hxb Hyb Hx Hy. rewrite !cell_div in Hx, Hy by lia.
  destruct sqrt2_facts as (HN & HD & _ & HDN).
  pose proof (div_cell_same sqrt2N sqrt2D minDistance _ _ HD Hm Hx) as H1.
  pose proof (div_cell_same sqrt2N sqrt2D minDistance _ _ HD Hm (eq_sym Hx)) as H2.
  pose proof (div_cell_same sqrt2N sqrt2D minDistance _ _ HD Hm Hy) as H3.
  pose proof (div_cell_same sqrt2N sqrt2D minDistance _ _ HD Hm (eq_sym Hy)) as H4.
  pose proof (same_cell_square sqrt2N sqrt2D minDistance
                (poi.X a - poi.X b) (poi.Y a - poi.Y b) HN HD HDN Hm
                ltac:(lia) ltac:(lia) ltac:(lia) ltac:(lia)) as Hsq.
  unfold poi.tooClose. apply andb_true_intro. split; [lia|].
  apply Z.ltb_lt. rewrite !Z.pow_2_r. exact Hsq.
Qed.

Local Abbreviation onLand := (poi.onLand noiseMap seaLevel).
Local Abbreviation activeLoop :=
  (poi.activeLoop Cos Sin minDistance width height noiseMap seaLevel).
Local Abbreviation PoissonDisk :=
  (poi.PoissonDisk Cos Sin minDistance width height noiseMap seaLevel).

(** A cell that the check leaves at [true] holds no point that is too close. *)
Lemma checkCell_true (g : list (list poi.Point)) (newPoint : poi.Point)
    (ok : bool) (x y : Z) :
  checkCell g newPoint ok x y = Some true ->
  ok = true /\
  (0 <= x < gw -> 0 <= y < gh ->
   forall q, poi.gridGet g x y = Some q -> q <> poi.zero ->
     tooClose newPoint q = false).
Proof.
  unfold poi.checkCell. intros Hc.
  destruct ((0 <=? x) && (x <? gw) && (0 <=? y) && (y <? gh)) eqn:Hr.
  - destruct (poi.gridGet g x y) as [q|]; cbn [mbind option_bind] in Hc;
      [|discriminate].
    destruct (decide (q <> poi.zero)) as [Hq|Hq].
    + destruct (tooClose newPoint q) eqn:Ht; [discriminate|].
      injection Hc as ->. split; [reflexivity|].
      intros _ _ q' [= <-] _. exact Ht.
    + injection Hc as ->. split; [reflexivity|].
      intros _ _ q' [= <-] Hq'. contradiction.
  - injection Hc as ->. split; [reflexivity|]. intros Hx Hy.
    rewrite !andb_false_iff in Hr. lia.
Qed.

Lemma checkColumn_true (g : list (list poi.Point)) (newPoint : poi.Point)
    (x gridY : Z) (l : list Z) : forall acc,
  foldl (fun acc dy => ok ← acc; checkCell g newPoint ok x (gridY + dy)) acc l
    = Some true ->
  acc = Some true /\
  forall dy, dy ∈ l -> checkCell g newPoint true x (gridY + dy) = Some true.
Proof.
  induction l as [|d l IH]; intros acc Hf.
  - simpl in Hf. split; [exact Hf|]. intros dy Hin. by apply elem_of_nil in Hin.
  - cbn [foldl] in Hf. apply IH in Hf as [Hstep Hrest].
    destruct acc as [ok|]; cbn [mbind option_bind] in Hstep; [|discriminate].
    pose proof (checkCell_true _ _ _ _ _ Hstep) as [-> _].
    split; [reflexivity|]. intros dy Hin.
    apply elem_of_cons in Hin as [->|Hin]; [exact Hstep | by apply Hrest].
Qed.

Lemma checkWindow_true_cells (g : list (list poi.Point)) (newPoint : poi.Point)
    (gridX gridY : Z) (l : list Z) : forall acc,
  foldl (fun acc dx =>
           foldl (fun acc dy =>
                    ok ← acc; checkCell g newPoint ok (gridX + dx) (gridY + dy))
                 acc poi.offsets)
        acc l = Some true ->
  acc = Some true /\
  forall dx dy, dx ∈ l -> dy ∈ poi.offsets ->
    checkCell g newPoint true (gridX + dx) (gridY + dy) = Some true.
Proof.
  induction l as [|d l IH]; intros acc Hf.
  - simpl in Hf. split; [exact Hf|]. intros dx dy Hin. by apply elem_of_nil in Hin.
  - cbn [foldl] in Hf. apply IH in Hf as [Hstep Hrest].
    apply checkColumn_true in Hstep as [-> Hcol].
    split; [reflexivity|]. intros dx dy Hdx Hdy.
    apply elem_of_cons in Hdx as [->|Hdx]; [by apply Hcol | by apply Hrest].
Qed.

Lemma offsets_spec (d : Z) : -2 <= d <= 2 -> d ∈ poi.offsets.
Proof.
  intros Hd. unfold poi.offsets.
  assert (Hc : d = -2 \/ d = -1 \/ d = 0 \/ d = 1 \/ d = 2) by lia.
  clear Hd. destruct Hc as [->|[->|[->|[->| ->]]]]; set_solver.
Qed.

(** An accepted candidate is not too close to any non-zero point stored in
    the 5 x 5 block of cells around its own cell. *)
Lemma checkWindow_true (g : list (list poi.Point)) (newPoint q : poi.Point)
    (gridX gridY x y : Z) :
  checkWindow g newPoint gridX gridY = Some true ->
  -2 <= x - gridX <= 2 -> -2 <= y - gridY <= 2 ->
  0 <= x < gw -> 0 <= y < gh ->
  poi.gridGet g x y = Some q -> q <> poi.zero ->
  tooClose newPoint q = false.
Proof.
  intros Hw Hdx Hdy Hx Hy Hq Hnz. unfold poi.checkWindow in Hw.
  apply checkWindow_true_cells in Hw as [_ Hcells].
  specialize (Hcells (x - gridX) (y - gridY)
                (offsets_spec _ Hdx) (offsets_spec _ Hdy)).
  replace (gridX + (x - gridX)) with x in Hcells by lia.
  replace (gridY + (y - gridY)) with y in Hcells by lia.
  apply checkCell_true in Hcells as [_ Hcell]. by eapply Hcell.
Qed.

Lemma tooClose_near (a b : poi.Point) :
  tooClose a b = true ->
  - minDistance < poi.X a - poi.X b < minDistance /\
  - minDistance < poi.Y a - poi.Y b < minDistance.
Proof.
  unfold poi.tooClose. rewrite andb_true_iff, Z.ltb_lt, Z.ltb_lt.
  rewrite !Z.pow_2_r. intros [_ Hsq].
  apply sum_squares_lt in Hsq; [exact Hsq | exact Hm].
Qed.


Lemma inBounds_cells (q : poi.Point) :
  inBounds q = true ->
  (0 <= poi.X q /\ 0 <= poi.Y q) /\
  0 <= cell (poi.X q) < gw /\ 0 <= cell (poi.Y q) < gh.
Proof.
  intros Hb. apply inBounds_spec in Hb as [Hx Hy].
  split; [lia|]. split.
  - split; [apply cell_nonneg; lia | apply cell_lt_gridWidth; lia].
  - split; [apply cell_nonneg; lia | apply cell_lt_gridHeight; lia].
Qed.

Lemma samplerInv_accept (pts : list poi.Point) (g g' : list (list poi.Point))
    (newPoint : poi.Point) :
  samplerInv pts g -> inBounds newPoint = true ->
  checkWindow g newPoint (cell (poi.X newPoint)) (cell (poi.Y newPoint)) = Some true ->
  poi.gridSet g (cell (poi.X newPoint)) (cell (poi.Y newPoint)) newPoint = Some g' ->
  samplerInv (pts ++ [newPoint]) g'.
Proof.
  intros (Hshape & Hin & Hreg & Hsep) Hb Hw Hs.
  destruct (inBounds_cells _ Hb) as ((Hnx & Hny) & Hcx & Hcy).
  assert (Hfar : forall q, q ∈ pts -> q <> poi.zero -> tooClose newPoint q = false).
  { intros q Hq Hnz. destruct (tooClose newPoint q) eqn:Ht; [|reflexivity].
    exfalso. rewrite Forall_forall in Hin.
    destruct (inBounds_cells _ (Hin _ Hq)) as ((Hqx & Hqy) & Hqcx & Hqcy).
    destruct (tooClose_near _ _ Ht) as [Hdx Hdy].
    pose proof (cell_near _ _ Hqx Hnx ltac:(lia)) as Hgx.
    pose proof (cell_near _ _ Hqy Hny ltac:(lia)) as Hgy.
    pose proof (checkWindow_true g newPoint q _ _ _ _ Hw Hgx Hgy Hqcx Hqcy
                  (Hreg _ Hq Hnz) Hnz) as Hf.
    congruence. }
  split; [by eapply gridShape_gridSet|].
  split; [apply Forall_app; split; [exact Hin | by apply Forall_singleton]|].
  split.
  - intros q Hq Hnz. apply elem_of_app in Hq as [Hq|Hq].
    + rewrite Forall_forall in Hin.
      destruct (inBounds_cells _ (Hin _ Hq)) as ((Hqx & Hqy) & Hqcx & Hqcy).
      rewrite (gridGet_gridSet_other _ _ _ _ _ _ _ Hs); [by apply Hreg | lia | lia |].
      destruct (decide (cell (poi.X q) = cell (poi.X newPoint))) as [Hex|]; [|by left].
      destruct (decide (cell (poi.Y q) = cell (poi.Y newPoint))) as [Hey|]; [|by right].
      exfalso. pose proof (Hfar _ Hq Hnz) as Hf.
      rewrite same_cell_tooClose in Hf by (try lia; congruence). discriminate.
    + apply list_elem_of_singleton in Hq as ->. by eapply gridGet_gridSet_same.
  - intros i j a b Hij Ha Hb' Hnz.
    destruct (decide (j < length pts)%nat) as [Hj|Hj].
    + rewrite lookup_app_l in Ha, Hb' by lia. exact (Hsep i j a b Hij Ha Hb' Hnz).
    + assert (Hi : (i < length pts)%nat).
      { apply lookup_lt_Some in Hb'. rewrite length_app in Hb'. simpl in Hb'. lia. }
      rewrite lookup_app_l in Ha by lia.
      rewrite lookup_app_r in Hb' by lia.
      apply list_lookup_singleton_Some in Hb' as [_ <-].
      apply Hfar; [|exact Hnz]. by eapply list_elem_of_lookup_2.
Qed.

Lemma makeGrid_shape (g0 : list (list poi.Point)) :
  poi.makeGrid minDistance width height = Some g0 -> gridShape g0 gw gh.
Proof.
  unfold poi.makeGrid. intros Hg.
  destruct (decide (gw < 0)); [discriminate|].
  destruct (decide (0 < gw /\ gh < 0)); [discriminate|].
  injection Hg as <-. apply gridShape_replicate.
Qed.

Lemma samplerInv_start (g0 g : list (list poi.Point)) (startPoint : poi.Point) :
  gridShape g0 gw gh -> inBounds startPoint = true ->
  poi.gridSet g0 (cell (poi.X startPoint)) (cell (poi.Y startPoint)) startPoint
    = Some g ->
  samplerInv [startPoint] g.
Proof.
  intros Hshape Hb Hs.
  split; [by eapply gridShape_gridSet|].
  split; [by apply Forall_singleton|].
  split.
  - intros q Hq _. apply list_elem_of_singleton in Hq as ->.
    by eapply gridGet_gridSet_same.
  - intros i j a b Hij _ Hb' _. apply lookup_lt_Some in Hb'. simpl in Hb'. lia.
Qed.

(** X1.  The separation that the grid does enforce: in the list that
    [PoissonDisk] returns, a point other than the origin (0,0) is at least
    [minDistance] away from every point accepted after it. *)
Theorem PoissonDisk_separated_except_origin (fuel : nat) (r : R)
    (pts : list poi.Point) (n : Z) :
  PoissonDisk fuel r = Done (pts, n) ->
  forall i j a b, (i < j)%nat -> pts !! i = Some a -> pts !! j = Some b ->
    a <> poi.zero ->
    minDistance ^ 2 <= (poi.X a - poi.X b) ^ 2 + (poi.Y a - poi.Y b) ^ 2.
Proof.
  intros Hrun i j a b Hij Ha Hb Hnz.
  apply PoissonDisk_Done in Hrun as (g0 & sp & r1 & g & Hg0 & Hseek & Hset & Hact & _).
  apply seekLand_Done in Hseek as [_ Hsp].
  apply makeGrid_shape in Hg0.
  pose proof (samplerInv_start _ _ _ Hg0 Hsp Hset) as Hinv.
  apply (activeLoop_invariant Cos Sin minDistance width height noiseMap seaLevel
           samplerInv) in Hact.
  - destruct Hact as (g' & _ & _ & _ & Hsep).
    pose proof (Hsep i j a b Hij Ha Hb Hnz) as Hfar.
    unfold poi.tooClose in Hfar. apply andb_false_iff in Hfar as [Hfar|Hfar].
    + apply Z.ltb_ge in Hfar. lia.
    + apply Z.ltb_ge in Hfar. rewrite !Z.pow_2_r in *. nia.
  - intros ps g1 np g2 HI Hb' _ Hw Hs. by eapply samplerInv_accept.
  - exact Hinv.
Qed.

(** *** The sampler does not panic *)

Lemma checkCell_is_Some (g : list (list poi.Point)) (newPoint : poi.Point)
    (ok : bool) (x y : Z) :
  gridShape g gw gh -> is_Some (checkCell g newPoint ok x y).
Proof.
  intros Hshape. unfold poi.checkCell.
  destruct ((0 <=? x) && (x <? gw) && (0 <=? y) && (y <? gh)) eqn:Hr; [|eauto].
  rewrite !andb_true_iff in Hr.
  destruct (gridGet_in_range g gw gh x y Hshape ltac:(lia) ltac:(lia)) as [q Hq].
  rewrite Hq. cbn [mbind option_bind].
  destruct (decide (q <> poi.zero)); [|eauto].
  destruct (tooClose newPoint q); eauto.
Qed.

Lemma checkColumn_is_Some (g : list (list poi.Point)) (newPoint : poi.Point)
    (x gridY : Z) (l : list Z) :
  gridShape g gw gh -> forall acc, is_Some acc ->
  is_Some (foldl (fun acc dy => ok ← acc; checkCell g newPoint ok x (gridY + dy))
                 acc l).
Proof.
  intros Hshape. induction l as [|d l IH]; intros acc Hacc; [exact Hacc|].
  cbn [foldl]. apply IH. destruct Hacc as [ok ->]. cbn [mbind option_bind].
  by apply checkCell_is_Some.
Qed.

Lemma checkWindow_is_Some (g : list (list poi.Point)) (newPoint : poi.Point)
    (gridX gridY : Z) :
  gridShape g gw gh -> is_Some (checkWindow g newPoint gridX gridY).
Proof.
  intros Hshape. unfold poi.checkWindow.
  assert (Hgen : forall l acc, is_Some acc ->
    is_Some (foldl (fun acc dx =>
                      foldl (fun acc dy =>
                               ok ← acc;
                               checkCell g newPoint ok (gridX + dx) (gridY + dy))
                            acc poi.offsets) acc l)).
  { induction l as [|d l IH]; intros acc Hacc; [exact Hacc|].
    cbn [foldl]. apply IH. by apply checkColumn_is_Some. }
  apply Hgen. eauto.
Qed.

Lemma attempts_is_Some (n : nat) (q : poi.Point) : forall st : poi.state R,
  gridShape (poi.grid st) gw gh ->
  exists found st',
    poi.attempts Cos Sin minDistance width height noiseMap seaLevel n q st
      = Some (found, st') /\
    gridShape (poi.grid st') gw gh.
Proof.
  induction n as [|n IH]; intros st Hshape.
  - exists false, st. auto.
  - cbn [poi.attempts].
    destruct (poi.candidate Cos Sin minDistance q (poi.rng st)) as [newPoint r'].
    destruct (inBounds newPoint) eqn:Hb; cbn [andb];
      [destruct (onLand newPoint)|]; try (by apply IH).
    destruct (checkWindow_is_Some (poi.grid st) newPoint
                (cell (poi.X newPoint)) (cell (poi.Y newPoint)) Hshape) as [ok Hok].
    rewrite Hok. cbn [mbind option_bind]. destruct ok; [|by apply IH].
    destruct (inBounds_cells _ Hb) as (_ & Hcx & Hcy).
    destruct (gridSet_in_range (poi.grid st) gw gh _ _ newPoint Hshape Hcx Hcy)
      as [g' Hg'].
    rewrite Hg'. cbn [mbind option_bind]. eexists _, _. split; [reflexivity|].
    cbn [poi.grid]. by eapply gridShape_gridSet.
Qed.

Lemma activeLoop_no_panic (fuel : nat) : forall st : poi.state R,
  gridShape (poi.grid st) gw gh -> activeLoop fuel st <> Panic.
Proof.
  induction fuel as [|fuel IH]; intros st Hshape.
  - simpl. by destruct (poi.activePoints st).
  - cbn [poi.activeLoop].
    destruct (poi.activePoints st) as [|a act] eqn:Hact; [discriminate|].
    pose proof (Intn_range (Z.of_nat (length (a :: act))) (poi.rng st)
                  ltac:(simpl; lia)) as Hidx.
    destruct (Intn _ (poi.rng st)) as [randomIndex r1]. cbn [fst] in Hidx.
    destruct (index_in_range (a :: act) randomIndex Hidx) as [q ->].
    destruct (attempts_is_Some 30 q (poi.withRng st r1) Hshape)
      as (found & st' & -> & Hshape').
    destruct found; apply IH; assumption.
Qed.


End Separation.

(** *** Runs on the inputs of [inputs] *)

(** C1 (a defect of the code).  With [minDistance = 25] on the 512 x 512
    raster, land on the strip [(0,0) .. (50,0)] and the draws of
    [inputs.draws], [PoissonDisk] returns the points (0,0), (50,0) and (1,0):
    the accepted points (0,0) and (1,0) are at distance 1, far below
    [minDistance].  The start point (0,0) is the zero value [Point{}], which
    the window check takes for an empty cell. *)
Theorem PoissonDisk_origin_not_separated :
  poi.PoissonDisk inputs.cosT inputs.sinT 25 512 512 inputs.strip (45 # 100)
      10 inputs.draws
    = Done ([poi.mkPoint 0 0; poi.mkPoint 50 0; poi.mkPoint 1 0], 3) /\
  poi.tooClose 25 (poi.mkPoint 1 0) (poi.mkPoint 0 0) = true /\
  (1 - 0) ^ 2 + (0 - 0) ^ 2 < 25 ^ 2.
Proof.
  split; [vm_compute; reflexivity|]. split; [reflexivity | lia].
Qed.

(** A run at the default sea level on a 4 x 3 raster whose land is the two
    coordinates of [inputs.islands]: the point of height exactly 0.5 is
    accepted, as the float64 sum 0.45 + 0.05 is 0.5. *)
Lemma PoissonDisk_points_on_land_witness :
  poi.PoissonDisk inputs.cosT inputs.sinT 2 4 3 inputs.islands inputs.seaLevel0
      24 [1 # 4; 0; 0; 0; 0]%Q
    = Done ([poi.mkPoint 1 0; poi.mkPoint 3 0], 2) /\
  poi.mapGet inputs.islands (poi.mkPoint 1 0) = (1 # 2)%Q /\
  Forall (fun q => (poi.landThreshold inputs.seaLevel0
                      <= poi.mapGet inputs.islands q)%Q)
         [poi.mkPoint 1 0; poi.mkPoint 3 0].
Proof.
  split; [vm_compute; reflexivity|]. split; [reflexivity|].
  apply (PoissonDisk_points_on_land inputs.cosT inputs.sinT 2 4 3
           inputs.islands inputs.seaLevel0 24 [1 # 4; 0; 0; 0; 0]%Q _ 2).
  vm_compute. reflexivity.
Defined.

Lemma empty_map_is_ocean (q : poi.Point) :
  poi.onLand ∅ inputs.seaLevel0 q = false.
Proof. unfold poi.onLand, poi.mapGet. rewrite lookup_empty. reflexivity. Qed.

(** C3, as stated, fails: on a height field without land (every coordinate
    reads 0, the threshold is 0.5) no number of iterations makes
    [PoissonDisk] finish, with a result or with an error. *)
Lemma PoissonDisk_no_land_no_error :
  ~ (exists fuel,
       poi.PoissonDisk inputs.cosT inputs.sinT 25 512 512 ∅ inputs.seaLevel0
         fuel inputs.draws <> OutOfFuel).
Proof.
  intros [fuel Hne]. apply Hne.
  apply PoissonDisk_ocean; try lia. intros q _. apply empty_map_is_ocean.
Qed.

Lemma PoissonDisk_no_land_never_returns_witness :
  (0 < 25 /\ 0 < 512 /\ 0 < 512 /\
   (forall q, 0 <= poi.X q < 512 -> 0 <= poi.Y q < 512 ->
      (poi.mapGet ∅ q < poi.landThreshold inputs.seaLevel0)%Q)) /\
  poi.seekLand 512 512 ∅ inputs.seaLevel0 1000 inputs.draws = OutOfFuel /\
  poi.PoissonDisk inputs.cosT inputs.sinT 25 512 512 ∅ inputs.seaLevel0
    1000 inputs.draws = OutOfFuel.
Proof.
  assert (Hocean : forall q, 0 <= poi.X q < 512 -> 0 <= poi.Y q < 512 ->
            (poi.mapGet ∅ q < poi.landThreshold inputs.seaLevel0)%Q).
  { intros q _ _. unfold poi.mapGet. rewrite lookup_empty. reflexivity. }
  split; [repeat split; try lia; exact Hocean|].
  apply PoissonDisk_no_land_never_returns; try lia. exact Hocean.
Defined.

(** C2, as stated, fails: the draw 3/4 gives the radius 62.5, beyond
    [2 * minDistance = 50], and at angle 0 the candidate is 63 away. *)
Lemma candidate_radius_beyond_twice_minDistance :
  Float64 [0; 3 # 4]%Q = (0%Q, [3 # 4]%Q) /\
  Float64 [3 # 4]%Q = (3 # 4, []) /\
  (poi.distOf 25 (3 # 4) == 125 # 2)%Q /\
  (2 * float64 25 <= poi.distOf 25 (3 # 4))%Q /\
  poi.candidate inputs.cosT inputs.sinT 25 (poi.mkPoint 0 0) [0; 3 # 4]%Q
    = (poi.mkPoint 63 0, []).
Proof.
  repeat split; vm_compute; congruence.
Qed.

Lemma candidate_in_annulus_witness :
  0 < 25 /\
  exists theta radius r',
    poi.candidate inputs.cosT inputs.sinT 25 (poi.mkPoint 0 0) [0; 3 # 4]%Q =
      (poi.mkPoint
         (int (math_Round (float64 0 + inputs.cosT theta * radius)))
         (int (math_Round (float64 0 + inputs.sinT theta * radius))), r') /\
    theta = poi.angleOf (fst (Float64 [0; 3 # 4]%Q)) /\
    radius = poi.distOf 25 (fst (Float64 (snd (Float64 [0; 3 # 4]%Q)))) /\
    (0 <= theta)%Q /\ (theta < 2 * math_Pi)%Q /\
    (float64 25 <= radius)%Q /\ (radius < 3 * float64 25)%Q.
Proof.
  split; [lia|].
  apply (candidate_in_annulus inputs.cosT inputs.sinT 25 (poi.mkPoint 0 0)).
  lia.
Defined.

Lemma PoissonDisk_separated_except_origin_witness :
  0 < 25 /\
  poi.PoissonDisk inputs.cosT inputs.sinT 25 512 512 inputs.strip (45 # 100)
      10 inputs.draws
    = Done ([poi.mkPoint 0 0; poi.mkPoint 50 0; poi.mkPoint 1 0], 3) /\
  poi.mkPoint 50 0 <> poi.zero /\
  25 ^ 2 <= (50 - 1) ^ 2 + (0 - 0) ^ 2.
Proof.
  assert (Hrun : poi.PoissonDisk inputs.cosT inputs.sinT 25 512 512 inputs.strip
                   (45 # 100) 10 inputs.draws
                 = Done ([poi.mkPoint 0 0; poi.mkPoint 50 0; poi.mkPoint 1 0], 3))
    by (vm_compute; reflexivity).
  split; [lia|]. split; [exact Hrun|]. split; [discriminate|].
  apply (PoissonDisk_separated_except_origin inputs.cosT inputs.sinT 25 512 512
           inputs.strip (45 # 100) ltac:(lia) 10 inputs.draws _ 3 Hrun 1%nat 2%nat
           (poi.mkPoint 50 0) (poi.mkPoint 1 0));
    [lia | reflexivity | reflexivity | discriminate].
Defined.


(** *** More fuel does not change the result of a run that ended *)

Section Fuel.
Context `{Rand R}.
Variables Cos Sin : Q -> Q.
Variables minDistance width height : Z.
Variable noiseMap : gmap poi.Point Q.
Variable seaLevel : Q.

Local Abbreviation seekLand := (poi.seekLand width height noiseMap seaLevel).
Local Abbreviation activeLoop :=
  (poi.activeLoop Cos Sin minDistance width height noiseMap seaLevel).
Local Abbreviation PoissonDisk :=
  (poi.PoissonDisk Cos Sin minDistance width height noiseMap seaLevel).

Lemma seekLand_more_fuel (fuel k : nat) (r : R) :
  seekLand fuel r <> OutOfFuel -> seekLand (fuel + k) r = seekLand fuel r.
Proof.
  revert r. induction fuel as [|fuel IH]; intros r Hne; [by destruct Hne|].
  cbn [poi.seekLand Nat.add] in *.
  destruct (decide (width <= 0)); [reflexivity|].
  destruct (Intn width r) as [x r1].
  destruct (decide (height <= 0)); [reflexivity|].
  destruct (Intn height r1) as [y r2].
  destruct (poi.onLand noiseMap seaLevel (poi.mkPoint x y)); [reflexivity|].
  by apply IH.
Qed.

Lemma activeLoop_more_fuel (fuel k : nat) (st : poi.state R) :
  activeLoop fuel st <> OutOfFuel -> activeLoop (fuel + k) st = activeLoop fuel st.
Proof.
  revert st. induction fuel as [|fuel IH]; intros st Hne.
  - cbn [poi.activeLoop] in Hne. destruct k; cbn [poi.activeLoop Nat.add];
      destruct (poi.activePoints st); try reflexivity; by destruct Hne.
  - cbn [poi.activeLoop Nat.add] in *.
    destruct (poi.activePoints st) as [|a act]; [reflexivity|].
    destruct (Intn _ (poi.rng st)) as [randomIndex r1].
    destruct (index (a :: act) randomIndex) as [q|]; [|reflexivity].
    destruct (poi.attempts _ _ _ _ _ _ _ 30 q _) as [[[|] st']|];
      [by apply IH | by apply IH | reflexivity].
Qed.

Lemma PoissonDisk_more_fuel (fuel k : nat) (r : R) :
  PoissonDisk fuel r <> OutOfFuel -> PoissonDisk (fuel + k) r = PoissonDisk fuel r.
Proof.
  unfold poi.PoissonDisk. cbv zeta. intros Hne.
  destruct (poi.makeGrid _ _ _) as [g0|]; [|reflexivity].
  destruct (seekLand fuel r) as [[startPoint r1]| |] eqn:Hseek;
    [|rewrite seekLand_more_fuel, Hseek; [reflexivity | by rewrite Hseek]
     |by destruct Hne].
  rewrite seekLand_more_fuel, Hseek by (by rewrite Hseek).
  destruct (poi.gridSet g0 _ _ startPoint) as [g|]; [|reflexivity].
  destruct (activeLoop fuel _) as [pts| |] eqn:Hact;
    [|rewrite activeLoop_more_fuel, Hact; [reflexivity | by rewrite Hact]
     |by destruct Hne].
  rewrite activeLoop_more_fuel, Hact by (by rewrite Hact). reflexivity.
Qed.

End Fuel.

(** ** The height field and the generation run *)

Lemma clamp01_range (v : Q) : (0 <= main.clamp01 v)%Q /\ (main.clamp01 v <= 1)%Q.
Proof.
  unfold main.clamp01.
  destruct (Qle_bool 0 v) eqn:H0; cbn [negb]; [|split; discriminate].
  destruct (Qle_bool v 1) eqn:H1; cbn [negb]; [|split; discriminate].
  apply Qle_bool_iff in H0, H1. split; assumption.
Qed.

Lemma fbmLoop_total (P : perlin.Perlin) (x y pers lac : Q) (n : nat) :
  wfTable (perlin.p P) ->
  forall total amp freq maxAmp,
    is_Some (perlin.fbmLoop P x y pers lac n total amp freq maxAmp).
Proof.
  intros Hwf. induction n as [|n IH]; intros total amp freq maxAmp.
  - simpl. eauto.
  - cbn [perlin.fbmLoop].
    destruct (Noise2DRaw_total P x y freq Hwf) as [v Hv].
    rewrite Hv. cbn [mbind option_bind]. apply IH.
Qed.

Lemma FBM2DRaw_total (P : perlin.Perlin) (x y baseFreq : Q) (octaves : Z)
    (pers lac : Q) :
  wfTable (perlin.p P) -> is_Some (perlin.FBM2DRaw P x y baseFreq octaves pers lac).
Proof.
  intros Hwf. unfold perlin.FBM2DRaw.
  destruct (fbmLoop_total P x y pers lac (Z.to_nat octaves) Hwf 0 1 baseFreq 0)%Q
    as [[total maxAmp] Heq].
  rewrite Heq. cbn [mbind option_bind].
  destruct (Qeq_bool maxAmp 0); eauto.
Qed.

Lemma NoiseFlow_total (P : perlin.Perlin) (x y freq : Q) :
  wfTable (perlin.p P) -> is_Some (perlin.NoiseFlow P x y freq).
Proof.
  intros Hwf. unfold perlin.NoiseFlow.
  destruct (Noise2DRaw_total P x y freq Hwf) as [v Hv].
  destruct (Noise2DRaw_total P (x + 100) (y + 100) freq Hwf) as [w Hw].
  rewrite Hv. cbn [mbind option_bind]. rewrite Hw. cbn [mbind option_bind]. eauto.
Qed.

Section Pixels.
Context `{Rand R}.
Variables Pow Hypot : Q -> Q -> Q.
Variables width height : Z.

Local Abbreviation noiseValue := (main.noiseValue Pow Hypot width height).
Local Abbreviation heightField := (main.heightField Pow Hypot width height).

Lemma noiseValue_total (P : perlin.Perlin) (c : main.Params) (x y : Z) :
  wfTable (perlin.p P) -> is_Some (noiseValue P c x y).
Proof.
  intros Hwf. unfold main.noiseValue. cbv zeta.
  destruct (NoiseFlow_total P (float64 x) (float64 y) (main.flowScale c) Hwf)
    as [[fx fy] Hflow].
  rewrite Hflow. cbn [mbind option_bind].
  match goal with |- context [perlin.FBM2DRaw P ?a ?b ?f ?o ?p1 ?l] =>
    destruct (FBM2DRaw_total P a b f o p1 l Hwf) as [localRaw Hlocal] end.
  rewrite Hlocal. cbn [mbind option_bind].
  match goal with |- context [perlin.FBM2DRaw P ?a ?b ?f ?o ?p1 ?l] =>
    destruct (FBM2DRaw_total P a b f o p1 l Hwf) as [continentRaw Hcont] end.
  rewrite Hcont. cbn [mbind option_bind]. eauto.
Qed.

Lemma noiseValue_range (P : perlin.Perlin) (c : main.Params) (x y : Z) (v : Q) :
  noiseValue P c x y = Some v -> (0 <= v)%Q /\ (v <= 1)%Q.
Proof.
  unfold main.noiseValue. cbv zeta. intros Hv.
  destruct (perlin.NoiseFlow _ _ _ _) as [[fx fy]|];
    cbn [mbind option_bind] in Hv; [|discriminate].
  repeat match type of Hv with
         | mbind _ ?o = Some _ =>
             destruct o; cbn [mbind option_bind] in Hv; [|discriminate]
         end.
  injection Hv as <-. apply clamp01_range.
Qed.

(** One row: the map after the inner loop over the columns [xs]. *)
Lemma fillRow_lookup (P : perlin.Perlin) (c : main.Params) (y : Z) (xs : list Z) :
  wfTable (perlin.p P) ->
  forall m : gmap poi.Point Q, exists m' : gmap poi.Point Q,
    foldl (fun acc x =>
             m ← acc; v ← noiseValue P c x y; Some (<[poi.mkPoint x y := v]> m))
          (Some m) xs = Some m' /\
    forall q, m' !! q =
      if decide (poi.Y q = y /\ poi.X q ∈ xs)
      then noiseValue P c (poi.X q) y else m !! q.
Proof.
  intros Hwf. induction xs as [|x xs IH]; intros m.
  - exists m. split; [reflexivity|]. intros q.
    destruct (decide _) as [[_ Hin]|]; [|reflexivity]. by apply elem_of_nil in Hin.
  - cbn [foldl mbind option_bind].
    destruct (noiseValue_total P c x y Hwf) as [v Hv]. rewrite Hv.
    cbn [mbind option_bind].
    destruct (IH (<[poi.mkPoint x y := v]> m)) as (m' & Heq & Hlook).
    exists m'. split; [exact Heq|]. intros q. rewrite Hlook.
    destruct (decide (poi.Y q = y /\ poi.X q ∈ xs)) as [[Hy Hin]|Hnot].
    + rewrite decide_True; [reflexivity|]. split; [exact Hy|]. by right.
    + destruct (decide (poi.mkPoint x y = q)) as [<-|Hne].
      * rewrite lookup_insert_eq. cbn [poi.X poi.Y].
        rewrite decide_True; [by rewrite Hv|].
        split; [reflexivity | by left].
      * rewrite lookup_insert_ne by exact Hne.
        rewrite decide_False; [reflexivity|].
        intros [Hy Hin]. apply elem_of_cons in Hin as [Hx|Hin].
        -- apply Hne. destruct q; simpl in *; congruence.
        -- apply Hnot. auto.
Qed.

(** All rows: the map after the outer loop over the rows [ys]. *)
Lemma rows_lookup (P : perlin.Perlin) (c : main.Params) (xs ys : list Z) :
  wfTable (perlin.p P) ->
  forall m : gmap poi.Point Q, exists m' : gmap poi.Point Q,
    foldl (fun acc y =>
             foldl (fun acc x =>
                      m ← acc; v ← noiseValue P c x y;
                      Some (<[poi.mkPoint x y := v]> m)) acc xs)
          (Some m) ys = Some m' /\
    forall q, m' !! q =
      if decide (poi.X q ∈ xs /\ poi.Y q ∈ ys)
      then noiseValue P c (poi.X q) (poi.Y q) else m !! q.
Proof.
  intros Hwf. induction ys as [|y ys IH]; intros m.
  - exists m. split; [reflexivity|]. intros q.
    destruct (decide _) as [[_ Hin]|]; [|reflexivity]. by apply elem_of_nil in Hin.
  - cbn [foldl].
    destruct (fillRow_lookup P c y xs Hwf m) as (m1 & Heq1 & Hlook1).
    rewrite Heq1.
    destruct (IH m1) as (m' & Heq & Hlook).
    exists m'. split; [exact Heq|]. intros q. rewrite Hlook.
    destruct (decide (poi.X q ∈ xs /\ poi.Y q ∈ ys)) as [[Hx Hy]|Hnot].
    + rewrite decide_True; [reflexivity|]. split; [exact Hx | by right].
    + rewrite Hlook1.
      destruct (decide (poi.Y q = y /\ poi.X q ∈ xs)) as [[Hy Hx]|Hnot1].
      * rewrite decide_True; [by rewrite Hy|].
        split; [exact Hx | apply elem_of_cons; by left].
      * rewrite decide_False; [reflexivity|].
        intros [Hx Hy]. apply elem_of_cons in Hy as [Hy|Hy]; auto.
Qed.

Lemma heightField_lookup (P : perlin.Perlin) (c : main.Params) :
  wfTable (perlin.p P) ->
  exists m : gmap poi.Point Q, heightField P c = Some m /\
    forall q, m !! q =
      if decide (0 <= poi.X q < width /\ 0 <= poi.Y q < height)
      then noiseValue P c (poi.X q) (poi.Y q) else None.
Proof.
  intros Hwf.
  destruct (rows_lookup P c (seqZ 0 width) (seqZ 0 height) Hwf ∅)
    as (m & Heq & Hlook).
  exists m. split; [exact Heq|]. intros q. rewrite Hlook, lookup_empty.
  destruct (decide (poi.X q ∈ seqZ 0 width /\ poi.Y q ∈ seqZ 0 height))
    as [[Hx Hy]|Hnot].
  - apply elem_of_seqZ in Hx, Hy. rewrite decide_True; [reflexivity | lia].
  - rewrite decide_False; [reflexivity|]. intros [Hx Hy]. apply Hnot.
    split; apply elem_of_seqZ; lia.
Qed.

End Pixels.

(** ** Binary64 arithmetic *)

Lemma compare_cont_antisym (m m' : positive) :
  PosDef.Pos.compare_cont Eq m' m = CompOpp (PosDef.Pos.compare_cont Eq m m').
Proof. exact (eq_sym (Pos.compare_cont_antisym m m' Eq)). Qed.

Lemma SFcompare_antisym (a b : spec_float) (c : comparison) :
  SFcompare a b = Some c -> SFcompare b a = Some (CompOpp c).
Proof.
  destruct a as [[]|[]| |[] m e], b as [[]|[]| |[] m' e']; unfold SFcompare;
    intros [= <-]; try reflexivity; f_equal;
    rewrite (Z.compare_antisym e e'); destruct (e ?= e')%Z; cbn [CompOpp];
    try reflexivity; rewrite (compare_cont_antisym m m');
    destruct (PosDef.Pos.compare_cont Eq m m'); reflexivity.
Qed.

Lemma SFcompare_total (a b : spec_float) :
  SFcompare a a <> None -> SFcompare b b <> None ->
  exists c, SFcompare a b = Some c.
Proof.
  destruct a as [[]|[]| |[] m e], b as [[]|[]| |[] m' e']; unfold SFcompare;
    intros Ha Hb; try congruence; eauto.
Qed.

Lemma SFcompare_nan (a b : spec_float) :
  SFcompare a a = None -> SFcompare a b = None /\ SFcompare b a = None.
Proof.
  destruct a as [[]|[]| |[] m e]; unfold SFcompare; try discriminate;
    intros _; destruct b; split; reflexivity.
Qed.

Lemma SFcompare_refl (a : spec_float) :
  SFcompare a a = None \/ SFcompare a a = Some Eq.
Proof.
  destruct a as [[]|[]| |[] m e]; unfold SFcompare; auto; right;
    rewrite Z.compare_refl;
    change (PosDef.Pos.compare_cont Eq m m) with (Pos.compare m m);
    rewrite Pos.compare_refl; reflexivity.
Qed.

Lemma clamp01_64_cases (v : float) :
  if PrimFloat.is_nan v then PrimFloat.is_nan (main64.clamp01 v) = true
  else PrimFloat.leb 0 (main64.clamp01 v) = true /\
       PrimFloat.leb (main64.clamp01 v) 1 = true.
Proof.
  destruct (PrimFloat.is_nan v) eqn:Hn; unfold main64.clamp01;
    unfold PrimFloat.is_nan in Hn; rewrite FloatAxioms.eqb_spec in Hn; unfold SFeqb in Hn.
  - assert (Hv : SFcompare (Prim2SF v) (Prim2SF v) = None).
    { destruct (SFcompare_refl (Prim2SF v)) as [E|E]; [exact E|].
      rewrite E in Hn. discriminate. }
    rewrite !FloatAxioms.ltb_spec. unfold SFltb.
    destruct (SFcompare_nan _ (Prim2SF 0) Hv) as [-> _].
    destruct (SFcompare_nan _ (Prim2SF 1) Hv) as [_ ->].
    unfold PrimFloat.is_nan. rewrite FloatAxioms.eqb_spec. unfold SFeqb. rewrite Hv.
    reflexivity.
  - destruct (PrimFloat.ltb v 0) eqn:H0; [split; reflexivity|].
    destruct (PrimFloat.ltb 1 v) eqn:H1; [split; reflexivity|].
    rewrite FloatAxioms.ltb_spec in H0, H1. rewrite !FloatAxioms.leb_spec.
    assert (Hv : SFcompare (Prim2SF v) (Prim2SF v) <> None).
    { destruct (SFcompare (Prim2SF v) (Prim2SF v)); [congruence|discriminate]. }
    assert (Hz : SFcompare (Prim2SF 0) (Prim2SF 0) <> None)
      by (vm_compute; congruence).
    assert (Ho : SFcompare (Prim2SF 1) (Prim2SF 1) <> None)
      by (vm_compute; congruence).
    destruct (SFcompare_total _ _ Hv Hz) as [c Hc].
    destruct (SFcompare_total _ _ Ho Hv) as [d Hd].
    pose proof (SFcompare_antisym _ _ _ Hc) as Hc'.
    pose proof (SFcompare_antisym _ _ _ Hd) as Hd'.
    unfold SFltb, SFleb in *. rewrite Hc in H0. rewrite Hd in H1.
    rewrite Hc', Hd'.
    destruct c, d; try discriminate; split; reflexivity.
Qed.

(** ** The height of a pixel in binary64 arithmetic *)

Lemma fbmLoop64_total (P : perlin.Perlin) (x y pers lac : float) (n : nat)
    (total amplitude frequency maxAmp : float) :
  wfTable (perlin.p P) ->
  is_Some (perlin64.fbmLoop P x y pers lac n total amplitude frequency maxAmp).
Proof.
  intros Hwf. revert total amplitude frequency maxAmp.
  induction n as [|n IH]; intros total amplitude frequency maxAmp; cbn [perlin64.fbmLoop].
  - eauto.
  - destruct (Noise2DRaw64_total P x y frequency Hwf) as [v ->].
    cbn [mbind option_bind]. apply IH.
Qed.

Lemma FBM2DRaw64_total (P : perlin.Perlin) (x y f : float) (o : Z) (pers lac : float) :
  wfTable (perlin.p P) -> is_Some (perlin64.FBM2DRaw P x y f o pers lac).
Proof.
  intros Hwf. unfold perlin64.FBM2DRaw.
  destruct (fbmLoop64_total P x y pers lac (Z.to_nat o) 0 1 f 0 Hwf) as [[t m] ->].
  cbn [mbind option_bind]. destruct (PrimFloat.eqb m 0); eauto.
Qed.

Lemma NoiseFlow64_total (P : perlin.Perlin) (x y f : float) :
  wfTable (perlin.p P) -> is_Some (perlin64.NoiseFlow P x y f).
Proof.
  intros Hwf. unfold perlin64.NoiseFlow.
  destruct (Noise2DRaw64_total P x y f Hwf) as [a ->].
  destruct (Noise2DRaw64_total P (x + 100)%float (y + 100)%float f Hwf) as [b ->].
  cbn [mbind option_bind]. eauto.
Qed.

Section Pixels64.
Variables Pow Hypot : float -> float -> float.
Variables width height : Z.

Lemma heightArg_total (P : perlin.Perlin) (c : main64.Params) (x y : Z) :
  wfTable (perlin.p P) -> is_Some (main64.heightArg Pow Hypot width height P c x y).
Proof.
  intros Hwf. unfold main64.heightArg. cbv zeta.
  destruct (NoiseFlow64_total P (perlin64.ofZ x) (perlin64.ofZ y)
              (main64.flowScale c) Hwf) as [[fx fy] ->].
  cbn [mbind option_bind].
  match goal with |- context [perlin64.FBM2DRaw P ?a ?b ?f ?o ?p1 ?l] =>
    destruct (FBM2DRaw64_total P a b f o p1 l Hwf) as [localRaw ->] end.
  cbn [mbind option_bind].
  match goal with |- context [perlin64.FBM2DRaw P ?a ?b ?f ?o ?p1 ?l] =>
    destruct (FBM2DRaw64_total P a b f o p1 l Hwf) as [continentRaw ->] end.
  cbn [mbind option_bind]. eauto.
Qed.

Lemma noiseValue64_total (P : perlin.Perlin) (c : main64.Params) (x y : Z) :
  wfTable (perlin.p P) ->
  is_Some (main64.noiseValue Pow Hypot width height P c x y).
Proof.
  intros Hwf. unfold main64.noiseValue.
  destruct (heightArg_total P c x y Hwf) as [a ->]. cbn [mbind option_bind]. eauto.
Qed.

End Pixels64.

Section RasterFold.
Context {A : Type} (f : Z -> Z -> option A).
Hypothesis f_total : forall x y, is_Some (f x y).

(** One row: the map after the inner loop over the columns [xs]. *)
Lemma rasterRow_lookup (y : Z) (xs : list Z) :
  forall m : gmap poi.Point A, exists m' : gmap poi.Point A,
    foldl (fun acc x => m ← acc; v ← f x y; Some (<[poi.mkPoint x y := v]> m))
          (Some m) xs = Some m' /\
    forall q, m' !! q =
      if decide (poi.Y q = y /\ poi.X q ∈ xs) then f (poi.X q) y else m !! q.
Proof.
  induction xs as [|x xs IH]; intros m.
  - exists m. split; [reflexivity|]. intros q.
    destruct (decide _) as [[_ Hin]|]; [|reflexivity]. by apply elem_of_nil in Hin.
  - cbn [foldl mbind option_bind].
    destruct (f_total x y) as [v Hv]. rewrite Hv. cbn [mbind option_bind].
    destruct (IH (<[poi.mkPoint x y := v]> m)) as (m' & Heq & Hlook).
    exists m'. split; [exact Heq|]. intros q. rewrite Hlook.
    destruct (decide (poi.Y q = y /\ poi.X q ∈ xs)) as [[Hy Hin]|Hnot].
    + rewrite decide_True; [reflexivity|]. split; [exact Hy|]. by right.
    + destruct (decide (poi.mkPoint x y = q)) as [<-|Hne].
      * rewrite lookup_insert_eq. cbn [poi.X poi.Y].
        rewrite decide_True; [by rewrite Hv|].
        split; [reflexivity | by left].
      * rewrite lookup_insert_ne by exact Hne.
        rewrite decide_False; [reflexivity|].
        intros [Hy Hin]. apply elem_of_cons in Hin as [Hx|Hin].
        -- apply Hne. destruct q; simpl in *; congruence.
        -- apply Hnot. auto.
Qed.

(** All rows: the map after the outer loop over the rows [ys]. *)
Lemma rasterRows_lookup (xs ys : list Z) :
  forall m : gmap poi.Point A, exists m' : gmap poi.Point A,
    foldl (fun acc y =>
             foldl (fun acc x =>
                      m ← acc; v ← f x y; Some (<[poi.mkPoint x y := v]> m))
                   acc xs)
          (Some m) ys = Some m' /\
    forall q, m' !! q =
      if decide (poi.X q ∈ xs /\ poi.Y q ∈ ys)
      then f (poi.X q) (poi.Y q) else m !! q.
Proof.
  induction ys as [|y ys IH]; intros m.
  - exists m. split; [reflexivity|]. intros q.
    destruct (decide _) as [[_ Hin]|]; [|reflexivity]. by apply elem_of_nil in Hin.
  - cbn [foldl].
    destruct (rasterRow_lookup y xs m) as (m1 & Heq1 & Hlook1).
    rewrite Heq1.
    destruct (IH m1) as (m' & Heq & Hlook).
    exists m'. split; [exact Heq|]. intros q. rewrite Hlook.
    destruct (decide (poi.X q ∈ xs /\ poi.Y q ∈ ys)) as [[Hx Hy]|Hnot].
    + rewrite decide_True; [reflexivity|]. split; [exact Hx | by right].
    + rewrite Hlook1.
      destruct (decide (poi.Y q = y /\ poi.X q ∈ xs)) as [[Hy Hx]|Hnot1].
      * rewrite decide_True; [by rewrite Hy|].
        split; [exact Hx | apply elem_of_cons; by left].
      * rewrite decide_False; [reflexivity|].
        intros [Hx Hy]. apply elem_of_cons in Hy as [Hy|Hy]; auto.
Qed.

End RasterFold.

Section Field64.
Variables Pow Hypot : float -> float -> float.
Variables width height : Z.

Lemma heightField64_lookup (P : perlin.Perlin) (c : main64.Params) :
  wfTable (perlin.p P) ->
  exists m : gmap poi.Point float,
    main64.heightField Pow Hypot width height P c = Some m /\
    forall q, m !! q =
      if decide (0 <= poi.X q < width /\ 0 <= poi.Y q < height)
      then main64.noiseValue Pow Hypot width height P c (poi.X q) (poi.Y q)
      else None.
Proof.
  intros Hwf.
  destruct (rasterRows_lookup (main64.noiseValue Pow Hypot width height P c)
              (fun x y => noiseValue64_total Pow Hypot width height P c x y Hwf)
              (seqZ 0 width) (seqZ 0 height) ∅) as (m & Heq & Hlook).
  exists m. split; [exact Heq|]. intros q. rewrite Hlook, lookup_empty.
  destruct (decide (poi.X q ∈ seqZ 0 width /\ poi.Y q ∈ seqZ 0 height))
    as [[Hx Hy]|Hnot].
  - apply elem_of_seqZ in Hx, Hy. rewrite decide_True; [reflexivity | lia].
  - rewrite decide_False; [reflexivity|]. intros [Hx Hy]. apply Hnot.
    split; apply elem_of_seqZ; lia.
Qed.

End Field64.

Lemma identityTable_wf : wfTable (perlin.p inputs.identityTable).
Proof.
  split; [reflexivity|]. cbn [perlin.p inputs.identityTable].
  apply Forall_app. split; apply Forall_forall; intros v Hv;
    apply elem_of_seqZ in Hv; lia.
Qed.

Section HeightField.
Context `{Rand R}.
Variables Pow Hypot : Q -> Q -> Q.
(** [math.Pow] and [math.Hypot] on binary64 floats *)
Variables Pow64 Hypot64 : float -> float -> float.

Local Abbreviation noiseValue := (main.noiseValue Pow Hypot main.width main.height).
Local Abbreviation heightField := (main.heightField Pow Hypot main.width main.height).


End HeightField.


Section Determinism.
Context `{Rand R}.
Variables Cos Sin : Q -> Q.
Variables Pow Hypot : Q -> Q -> Q.
Variables width height : Z.

Local Abbreviation generate :=
  (main.generate (R := R) Cos Sin Pow Hypot width height).

Lemma generate_more_fuel (fuel k : nat) (c : main.Params) :
  generate fuel c <> OutOfFuel -> generate (fuel + k) c = generate fuel c.
Proof.
  unfold main.generate. intros Hne.
  destruct (orPanic (perlin.NewPerlin (main.seed c))) as [P| |];
    cbn [mbind outcome_bind] in *; [|reflexivity..].
  destruct (orPanic (main.heightField Pow Hypot width height P c)) as [noiseMap| |];
    cbn [mbind outcome_bind] in *; [|reflexivity..].
  cbv zeta in *.
  destruct (poi.PoissonDisk Cos Sin (main.minDistance c) width height
              noiseMap (main.seaLevel c) fuel (NewRand (main.seed c)))
    as [res| |] eqn:Hrun.
  - rewrite PoissonDisk_more_fuel, Hrun by (by rewrite Hrun). reflexivity.
  - rewrite PoissonDisk_more_fuel, Hrun by (by rewrite Hrun). reflexivity.
  - by destruct Hne.
Qed.

Lemma generate_Done_unique (f1 f2 : nat) (c : main.Params)
    (o1 o2 : gmap poi.Point Q * list poi.Point) :
  generate f1 c = Done o1 -> generate f2 c = Done o2 -> o1 = o2.
Proof.
  intros H1 H2.
  destruct (Nat.le_ge_cases f1 f2) as [Hle|Hle].
  - replace f2 with (f1 + (f2 - f1))%nat in H2 by lia.
    rewrite generate_more_fuel in H2 by (by rewrite H1). congruence.
  - replace f1 with (f2 + (f1 - f2))%nat in H1 by lia.
    rewrite generate_more_fuel in H1 by (by rewrite H2). congruence.
Qed.

End Determinism.

Section Session.
Context `{Rand R}.
Variables Cos Sin : Q -> Q.
Variables Pow Hypot : Q -> Q -> Q.
Variables width height : Z.

Local Abbreviation noiseValue := (main.noiseValue Pow Hypot width height).
Local Abbreviation generate :=
  (main.generate (R := R) Cos Sin Pow Hypot width height).
Local Abbreviation advance :=
  (session.advance (R := R) Cos Sin Pow Hypot width height).
Local Abbreviation step := (session.step (R := R) Cos Sin Pow Hypot width height).
Local Abbreviation exec := (session.exec (R := R) Cos Sin Pow Hypot width height).
Local Abbreviation pixelStep := (session.pixelStep Pow Hypot width height).
Local Abbreviation quietInv := (quietInv (R := R) Cos Sin Pow Hypot width height).

Lemma noiseValue_withOctaves (P : perlin.Perlin) (c : main.Params) (x y : Z) :
  noiseValue P (session.withOctaves c (int (main.octavesFloat c))
                  (int (main.continentOctavesFloat c))) x y
  = noiseValue P c x y.
Proof.
  unfold main.noiseValue, session.withOctaves. cbn [main.octavesFloat
    main.continentOctavesFloat main.flowScale main.flowStrength main.scale
    main.persistence main.lacunarity main.continentFreq main.continentWeight
    main.falloff main.falloffWeight].
  unfold float64 at 1 2. rewrite !int_inject_Z. reflexivity.
Qed.

Lemma heightField_rasterOrder (P : perlin.Perlin) (c : main.Params) :
  main.heightField Pow Hypot width height P c
  = foldl (pixelStep P c) (Some ∅) (session.rasterOrder width height).
Proof.
  unfold main.heightField, main.fillRow, session.rasterOrder.
  generalize (Some (∅ : gmap poi.Point Q)) as acc.
  induction (seqZ 0 height) as [|y ys IH]; intros acc; [reflexivity|].
  cbn [foldl mbind list_bind]. rewrite foldl_app, <- IH. f_equal.
  rewrite foldl_fmap. reflexivity.
Qed.

Lemma step_quiet (c : main.Params) (w : session.world) (e : session.event) :
  session.keeps c e -> quietInv c w -> quietInv c (step w e).
Proof.
  intros He [Hv Hr]. destruct e as [c'|fuel]; cbn in He.
  - subst c'. split; [reflexivity | exact Hr].
  - split; [exact Hv|]. cbn [session.step session.run]. rewrite Hv.
    destruct (session.run w) as [|P o co todo m|m pts|]; cbn [session.advance].
    + destruct (perlin.NewPerlin (main.seed c)) as [P|] eqn:HP; [|exact I].
      split; [reflexivity|]. split; [reflexivity|]. split; [reflexivity|].
      exists []. split; reflexivity.
    + destruct Hr as (HP & -> & -> & done & Hsplit & Hfold).
      destruct todo as [|q todo].
      * rewrite app_nil_r in Hsplit. rewrite <- Hsplit in Hfold.
        rewrite <- heightField_rasterOrder in Hfold.
        destruct (poi.PoissonDisk _ _ _ _ _ _ _ _ _) as [res| |] eqn:Hrun.
        -- exists fuel. unfold main.generate. rewrite HP.
           cbn [orPanic mbind outcome_bind]. rewrite Hfold.
           cbn [orPanic mbind outcome_bind]. cbv zeta. rewrite Hrun. reflexivity.
        -- exact I.
        -- split; [exact HP|]. split; [reflexivity|]. split; [reflexivity|].
           exists done. rewrite app_nil_r. split; [exact Hsplit|].
           rewrite <- Hsplit, <- heightField_rasterOrder. exact Hfold.
      * rewrite noiseValue_withOctaves.
        destruct (noiseValue P c (poi.X q) (poi.Y q)) as [v|] eqn:Hv'; [|exact I].
        split; [exact HP|]. split; [reflexivity|]. split; [reflexivity|].
        exists (done ++ [q]). split; [by rewrite <- app_assoc|].
        rewrite foldl_app, Hfold. cbn [foldl]. unfold session.pixelStep.
        cbn [mbind option_bind]. rewrite Hv'. reflexivity.
    + exact Hr.
    + exact I.
Qed.

Lemma exec_quiet (c : main.Params) (es : list session.event) (w : session.world) :
  Forall (session.keeps c) es -> quietInv c w -> quietInv c (exec w es).
Proof.
  revert w. induction es as [|e es IH]; intros w Hes Hw; [exact Hw|].
  apply Forall_cons in Hes as [He Hes]. cbn [session.exec foldl].
  apply IH; [exact Hes|]. by apply step_quiet.
Qed.

Lemma exec_quiet_Finished (c : main.Params) (es : list session.event)
    (m : gmap poi.Point Q) (pts : list poi.Point) :
  Forall (session.keeps c) es ->
  session.run (exec (session.mkWorld c session.Idle) es) = session.Finished m pts ->
  exists fuel, generate fuel c = Done (m, pts).
Proof.
  intros Hes Hfin.
  destruct (exec_quiet c es (session.mkWorld c session.Idle) Hes) as [_ Hr].
  { split; [reflexivity | exact I]. }
  rewrite Hfin in Hr. exact Hr.
Qed.

Lemma foldl_pixelStep_None (P : perlin.Perlin) (c : main.Params) (qs : list poi.Point) :
  foldl (pixelStep P c) None qs = None.
Proof. induction qs as [|q qs IH]; [reflexivity | exact IH]. Qed.

(** A run left alone goes through the raster, one coordinate a part. *)
Lemma exec_pixels (P : perlin.Perlin) (c : main.Params) (k : nat)
    (todo : list poi.Point) (m0 m : gmap poi.Point Q) :
  foldl (pixelStep P c) (Some m0) todo = Some m ->
  exec (session.mkWorld c
          (session.Filling P (int (main.octavesFloat c))
             (int (main.continentOctavesFloat c)) todo m0))
       (replicate (length todo) (session.Advance k))
  = session.mkWorld c
      (session.Filling P (int (main.octavesFloat c))
         (int (main.continentOctavesFloat c)) [] m).
Proof.
  revert m0. induction todo as [|q todo IH]; intros m0 Hfold.
  - cbn in Hfold. injection Hfold as <-. reflexivity.
  - cbn [foldl] in Hfold. cbn [length replicate session.exec foldl].
    cbn [session.step session.vars session.run session.advance].
    rewrite noiseValue_withOctaves.
    unfold session.pixelStep at 2 in Hfold. cbn [mbind option_bind] in Hfold.
    destruct (noiseValue P c (poi.X q) (poi.Y q)) as [v|];
      cbn [mbind option_bind] in Hfold.
    + apply IH. exact Hfold.
    + rewrite foldl_pixelStep_None in Hfold. discriminate.
Qed.

(** Left alone, the run is [main.generate]. *)
Lemma exec_generate (c : main.Params) (fuel : nat)
    (m : gmap poi.Point Q) (pts : list poi.Point) :
  generate fuel c = Done (m, pts) ->
  session.run
    (exec (session.mkWorld c session.Idle)
       (replicate (S (length (session.rasterOrder width height)))
          (session.Advance 0) ++ [session.Advance fuel]))
  = session.Finished m pts.
Proof.
  unfold main.generate. intros Hgen.
  destruct (perlin.NewPerlin (main.seed c)) as [P|] eqn:HP;
    cbn [orPanic mbind outcome_bind] in Hgen; [|discriminate].
  destruct (main.heightField Pow Hypot width height P c) as [m'|] eqn:Hm;
    cbn [orPanic mbind outcome_bind] in Hgen; [|discriminate].
  cbv zeta in Hgen.
  destruct (poi.PoissonDisk _ _ _ _ _ _ _ _ _) as [res| |] eqn:Hrun;
    cbn [mbind outcome_bind] in Hgen; [|discriminate..].
  injection Hgen as <- <-.
  unfold session.exec. rewrite foldl_app. cbn [replicate foldl].
  cbn [session.step session.vars session.run session.advance]. rewrite HP.
  rewrite heightField_rasterOrder in Hm.
  pose proof (exec_pixels P c 0 _ _ _ Hm) as Hpix. unfold session.exec in Hpix.
  rewrite Hpix. cbn [session.step session.vars session.run session.advance].
  rewrite Hrun. reflexivity.
Qed.


End Session.


(** An assignment that changes a variable during a run is read by the rest
    of the run.  Here the falloff weight goes from 0 to 1 after six pixels:
    the field of the run holds 0.5 at [(0, 0)], as with the weight 0
    throughout, and about 0.3 at [(3, 2)], as with the weight 1 throughout;
    it is the field of neither. *)
Lemma assignment_during_run_is_read :
  let run es c :=
    inputs.summary
      (session.exec (R := list Q) inputs.cosT inputs.sinT inputs.powT
         inputs.hypotT 4 3 (session.mkWorld c session.Idle) es) in
  run inputs.alone inputs.flat
    = Some (1 # 2, 1 # 2, [poi.mkPoint 0 0; poi.mkPoint 2 0])%Q /\
  run inputs.alone inputs.steep
    = Some (0, 2061585727151 # 6871947673600, [poi.mkPoint 1 1])%Q /\
  exists pts,
    run inputs.disturbed inputs.flat
      = Some (1 # 2, 2061585727151 # 6871947673600, pts)%Q.
Proof.
  cbv zeta. split; [vm_compute; reflexivity|]. split; [vm_compute; reflexivity|].
  eexists. vm_compute. reflexivity.
Qed.

(** ** The fade curve *)

(** X3.  [fade(0) = 0], [fade(1) = 1] and [fade(0.5) = 0.5]. *)
Theorem fade_boundary_values :
  (perlin.fade 0 == 0)%Q /\ (perlin.fade 1 == 1)%Q /\
  (perlin.fade (1 # 2) == 1 # 2)%Q.
Proof. repeat split. Qed.

(** X4.  The fade curve is the polynomial [6 t^5 - 15 t^4 + 10 t^3]. *)
Theorem fade_polynomial (t : Q) :
  (perlin.fade t == 6 * t ^ 5 - 15 * t ^ 4 + 10 * t ^ 3)%Q.
Proof. unfold perlin.fade. ring. Qed.

(** ** [clamp01] in binary64 arithmetic *)

(** X5.  In binary64 arithmetic [clamp01] returns a value of [[0, 1]] for
    every argument that is a number, and returns NaN for NaN. *)
Theorem clamp01_float64 (v : float) :
  if PrimFloat.is_nan v then PrimFloat.is_nan (main64.clamp01 v) = true
  else PrimFloat.leb 0 (main64.clamp01 v) = true /\
       PrimFloat.leb (main64.clamp01 v) 1 = true.
Proof. apply clamp01_64_cases. Qed.

(** Line 56 of poi.go in binary64 arithmetic: the largest draw below 1 gives
    a radius that rounds to [3 * minDistance] itself, and the draw 3/4 gives
    62.5 as in exact arithmetic. *)
Lemma distOf_float64_end_point :
  PrimFloat.ltb 0x1.fffffffffffffp-1 1 = true /\
  poi64.distOf 25 0x1.fffffffffffffp-1 = 75%float /\
  poi64.distOf 25 0x1.8p-1 = 0x1.f4p+5%float.
Proof. repeat split; vm_compute; reflexivity. Qed.

(** ** The gradient noise: ranges, lattice points and period *)

Lemma Qsquare_nonneg (q : Q) : (0 <= q * q)%Q.
Proof. nra. Qed.

(** [fade t - fade s] as [t - s] times a sum of squares. *)
Lemma fade_difference (s t : Q) :
  (perlin.fade t - perlin.fade s ==
   (t - s) * (30 * ((((s + t) / 2) * (1 - (s + t) / 2) - ((t - s) / 2) * ((t - s) / 2) / 3) *
                    (((s + t) / 2) * (1 - (s + t) / 2) - ((t - s) / 2) * ((t - s) / 2) / 3))
              + 10 * ((((t - s) / 2) * (1 - (s + t))) * (((t - s) / 2) * (1 - (s + t))))
              + (8 # 3) * ((((t - s) / 2) * ((t - s) / 2)) * (((t - s) / 2) * ((t - s) / 2)))))%Q.
Proof. unfold perlin.fade. field. Qed.

Lemma fade_mono (s t : Q) : (s <= t)%Q -> (perlin.fade s <= perlin.fade t)%Q.
Proof.
  intros Hst. pose proof (fade_difference s t) as Hd.
  set (a := (((s + t) / 2) * (1 - (s + t) / 2) - ((t - s) / 2) * ((t - s) / 2) / 3)%Q) in *.
  set (b := (((t - s) / 2) * (1 - (s + t)))%Q) in *.
  set (c := (((t - s) / 2) * ((t - s) / 2))%Q) in *.
  pose proof (Qsquare_nonneg a). pose proof (Qsquare_nonneg b). pose proof (Qsquare_nonneg c).
  assert (Hk : (0 <= 30 * (a * a) + 10 * (b * b) + (8 # 3) * (c * c))%Q) by lra.
  assert (Hp : (0 <= (t - s) * (30 * (a * a) + 10 * (b * b) + (8 # 3) * (c * c)))%Q).
  { apply Qmult_le_0_compat; [lra | exact Hk]. }
  lra.
Qed.

Lemma fade_0 : (perlin.fade 0 == 0)%Q.
Proof. reflexivity. Qed.

Lemma fade_1 : (perlin.fade 1 == 1)%Q.
Proof. reflexivity. Qed.

Lemma fade_unit (t : Q) : (0 <= t)%Q -> (t <= 1)%Q ->
  (0 <= perlin.fade t)%Q /\ (perlin.fade t <= 1)%Q.
Proof.
  intros H0 H1. pose proof (fade_mono 0 t H0). pose proof (fade_mono t 1 H1).
  pose proof fade_0. pose proof fade_1. split; lra.
Qed.

(** X6.  The fade curve never decreases, and it maps [[0, 1]] into
    [[0, 1]]. *)
Theorem fade_monotone (s t : Q) :
  (s <= t)%Q ->
  (perlin.fade s <= perlin.fade t)%Q /\
  ((0 <= s)%Q -> (t <= 1)%Q -> (0 <= perlin.fade s)%Q /\ (perlin.fade t <= 1)%Q).
Proof.
  intros Hst. split; [by apply fade_mono|]. intros H0 H1.
  split; [apply fade_unit | apply fade_unit]; lra.
Qed.

Lemma fade_monotone_witness :
  (1 # 4 <= 3 # 4)%Q /\
  (perlin.fade (1 # 4) <= perlin.fade (3 # 4))%Q /\
  ((0 <= 1 # 4)%Q -> (3 # 4 <= 1)%Q ->
   (0 <= perlin.fade (1 # 4))%Q /\ (perlin.fade (3 # 4) <= 1)%Q).
Proof.
  split; [discriminate|]. apply (fade_monotone (1 # 4) (3 # 4)). discriminate.
Defined.

Lemma lerp_convex (t a b : Q) :
  (perlin.lerp t a b == (1 - t) * a + t * b)%Q.
Proof. unfold perlin.lerp. ring. Qed.

Lemma lerp_between (t a b lo hi : Q) :
  (0 <= t)%Q -> (t <= 1)%Q -> (lo <= a)%Q -> (a <= hi)%Q -> (lo <= b)%Q -> (b <= hi)%Q ->
  (lo <= perlin.lerp t a b)%Q /\ (perlin.lerp t a b <= hi)%Q.
Proof.
  intros. rewrite lerp_convex. split; nra.
Qed.

(** X7.  [lerp] is linear interpolation: it returns [a] at [t = 0] and [b] at
    [t = 1], and for [t] in [[0, 1]] a value between [a] and [b]. *)
Theorem lerp_interpolates (t a b : Q) :
  (perlin.lerp 0 a b == a)%Q /\ (perlin.lerp 1 a b == b)%Q /\
  ((0 <= t)%Q -> (t <= 1)%Q ->
   ((a <= b)%Q -> (a <= perlin.lerp t a b)%Q /\ (perlin.lerp t a b <= b)%Q) /\
   ((b <= a)%Q -> (b <= perlin.lerp t a b)%Q /\ (perlin.lerp t a b <= a)%Q)).
Proof.
  split; [unfold perlin.lerp; ring|]. split; [unfold perlin.lerp; ring|].
  intros H0 H1. split; intros Hab; apply lerp_between; lra.
Qed.

Lemma land_3_cases (h : Z) :
  Z.land h 3 = 0 \/ Z.land h 3 = 1 \/ Z.land h 3 = 2 \/ Z.land h 3 = 3.
Proof.
  assert (E : Z.land h 3 = h mod 4).
  { change 3 with (Z.ones 2). rewrite Z.land_ones by lia. reflexivity. }
  pose proof (Z.mod_pos_bound h 4 ltac:(lia)). lia.
Qed.

Lemma grad_bound (h : Z) (x y bx by_ : Q) :
  (- bx <= x)%Q -> (x <= bx)%Q -> (- by_ <= y)%Q -> (y <= by_)%Q ->
  (- (bx + by_) <= perlin.grad h x y)%Q /\ (perlin.grad h x y <= bx + by_)%Q.
Proof.
  intros. unfold perlin.grad.
  destruct (land_3_cases h) as [-> | [-> | [-> | ->]]]; split; lra.
Qed.

(** X8.  [grad] reads only the two low bits of the hash, and its value is
    bounded by [|x| + |y|]. *)
Theorem grad_low_bits (h k : Z) (x y : Q) :
  perlin.grad (h + 4 * k) x y = perlin.grad h x y /\
  (Qabs (perlin.grad h x y) <= Qabs x + Qabs y)%Q.
Proof.
  split.
  - unfold perlin.grad. replace (Z.land (h + 4 * k) 3) with (Z.land h 3); [reflexivity|].
    change 3 with (Z.ones 2). rewrite !Z.land_ones by lia.
    change (2 ^ 2) with 4. rewrite Z.mul_comm. symmetry. apply Z_mod_plus_full.
  - apply Qabs_Qle_condition.
    pose proof (Qle_Qabs x). pose proof (Qle_Qabs (- x)) as Hx. rewrite Qabs_opp in Hx.
    pose proof (Qle_Qabs y). pose proof (Qle_Qabs (- y)) as Hy. rewrite Qabs_opp in Hy.
    apply grad_bound; lra.
Qed.

(** The weight of one axis: with [u = fade a], [a + u (1 - 2a) <= 1/2]. *)
Lemma fade_half (a : Q) :
  ((1 # 2) - (a + perlin.fade a * (1 - 2 * a)) ==
   ((1 - 2 * a) * (1 - 2 * a)) *
   (3 * ((a * (1 - a)) * (a * (1 - a))) + a * (1 - a) + (1 # 2)))%Q.
Proof. unfold perlin.fade. ring. Qed.

Lemma axis_weight (a : Q) : (0 <= a)%Q -> (a <= 1)%Q ->
  (a + perlin.fade a * (1 - 2 * a) <= 1 # 2)%Q.
Proof.
  intros H0 H1. pose proof (fade_half a) as Hh.
  set (s := ((1 - 2 * a) * (1 - 2 * a))%Q) in *.
  set (k := (a * (1 - a))%Q) in *.
  assert (Hs : (0 <= s)%Q) by apply Qsquare_nonneg.
  assert (Hk : (0 <= k)%Q) by (apply Qmult_le_0_compat; lra).
  pose proof (Qsquare_nonneg k).
  assert (Hp : (0 <= s * (3 * (k * k) + k + (1 # 2)))%Q).
  { apply Qmult_le_0_compat; [exact Hs | lra]. }
  lra.
Qed.

(** Bilinear blend of four corner values, each bounded by the distance of
    the point to its corner. *)
Lemma blend_bound (a b u v g00 g10 g01 g11 : Q) :
  (0 <= u)%Q -> (u <= 1)%Q -> (0 <= v)%Q -> (v <= 1)%Q ->
  (- (a + b) <= g00)%Q -> (g00 <= a + b)%Q ->
  (- ((1 - a) + b) <= g10)%Q -> (g10 <= (1 - a) + b)%Q ->
  (- (a + (1 - b)) <= g01)%Q -> (g01 <= a + (1 - b))%Q ->
  (- ((1 - a) + (1 - b)) <= g11)%Q -> (g11 <= (1 - a) + (1 - b))%Q ->
  let r := perlin.lerp v (perlin.lerp u g00 g10) (perlin.lerp u g01 g11) in
  (- ((a + u * (1 - 2 * a)) + (b + v * (1 - 2 * b))) <= r)%Q /\
  (r <= (a + u * (1 - 2 * a)) + (b + v * (1 - 2 * b)))%Q.
Proof.
  intros Hu0 Hu1 Hv0 Hv1 H1 H2 H3 H4 H5 H6 H7 H8 r.
  assert (Er : (r == (1 - v) * (1 - u) * g00 + (1 - v) * u * g10
                     + v * (1 - u) * g01 + v * u * g11)%Q).
  { unfold r, perlin.lerp. ring. }
  assert (W00 : (0 <= (1 - v) * (1 - u))%Q) by (apply Qmult_le_0_compat; lra).
  assert (W10 : (0 <= (1 - v) * u)%Q) by (apply Qmult_le_0_compat; lra).
  assert (W01 : (0 <= v * (1 - u))%Q) by (apply Qmult_le_0_compat; lra).
  assert (W11 : (0 <= v * u)%Q) by (apply Qmult_le_0_compat; lra).
  assert (Eb : ((a + u * (1 - 2 * a)) + (b + v * (1 - 2 * b)) ==
                (1 - v) * (1 - u) * (a + b) + (1 - v) * u * ((1 - a) + b)
                + v * (1 - u) * (a + (1 - b)) + v * u * ((1 - a) + (1 - b)))%Q) by ring.
  rewrite Er, Eb. split; nra.
Qed.

Lemma frac_part_range (q : Q) :
  (0 <= q - math_Floor q)%Q /\ (q - math_Floor q < 1)%Q.
Proof.
  unfold math_Floor. pose proof (Qfloor_le q). pose proof (Qlt_floor q) as Hl.
  rewrite inject_Z_plus in Hl. change (inject_Z 1) with 1%Q in Hl. split; lra.
Qed.

(** The value of [Noise2DRaw] from the four hashes it looked up. *)
Lemma Noise2DRaw_value (P : perlin.Perlin) (x y freq : Q) :
  wfTable (perlin.p P) ->
  exists aa ab ba bb,
    perlin.Noise2DRaw P x y freq =
    let xf := (x * freq - math_Floor (x * freq))%Q in
    let yf := (y * freq - math_Floor (y * freq))%Q in
    Some (perlin.lerp (perlin.fade yf)
            (perlin.lerp (perlin.fade xf) (perlin.grad aa xf yf)
               (perlin.grad ba (xf - 1) yf))
            (perlin.lerp (perlin.fade xf) (perlin.grad ab xf (yf - 1))
               (perlin.grad bb (xf - 1) (yf - 1)))).
Proof.
  intros Hwf. unfold perlin.Noise2DRaw.
  pose proof (land_255_range (int (math_Floor (x * freq)))) as Hxi.
  pose proof (land_255_range (int (math_Floor (y * freq)))) as Hyi.
  set (xi := Z.land (int (math_Floor (x * freq))) 255) in *.
  set (yi := Z.land (int (math_Floor (y * freq))) 255) in *.
  destruct (wfTable_index _ xi Hwf ltac:(lia)) as (a & Ha & Hra).
  destruct (wfTable_index _ (xi + 1) Hwf ltac:(lia)) as (b & Hb & Hrb).
  destruct (wfTable_index _ (a + yi) Hwf ltac:(lia)) as (aa & Haa & _).
  destruct (wfTable_index _ (a + yi + 1) Hwf ltac:(lia)) as (ab & Hab & _).
  destruct (wfTable_index _ (b + yi) Hwf ltac:(lia)) as (ba & Hba & _).
  destruct (wfTable_index _ (b + yi + 1) Hwf ltac:(lia)) as (bb & Hbb & _).
  exists aa, ab, ba, bb.
  cbv zeta. rewrite Ha, Hb. cbn [mbind option_bind].
  rewrite Haa, Hab, Hba, Hbb. cbn [mbind option_bind]. reflexivity.
Qed.

Lemma Noise2DRaw_bound (P : perlin.Perlin) (x y freq : Q) :
  wfTable (perlin.p P) ->
  exists v, perlin.Noise2DRaw P x y freq = Some v /\ (-1 <= v)%Q /\ (v <= 1)%Q.
Proof.
  intros Hwf. destruct (Noise2DRaw_value P x y freq Hwf) as (aa & ab & ba & bb & ->).
  cbv zeta.
  destruct (frac_part_range (x * freq)) as [Ha0 Ha1].
  destruct (frac_part_range (y * freq)) as [Hb0 Hb1].
  set (a := (x * freq - math_Floor (x * freq))%Q) in *.
  set (b := (y * freq - math_Floor (y * freq))%Q) in *.
  eexists. split; [reflexivity|].
  destruct (fade_unit a Ha0 ltac:(lra)) as [Hu0 Hu1].
  destruct (fade_unit b Hb0 ltac:(lra)) as [Hv0 Hv1].
  destruct (grad_bound aa a b a b) as [G1 G2]; try lra.
  destruct (grad_bound ba (a - 1) b (1 - a) b) as [G3 G4]; try lra.
  destruct (grad_bound ab a (b - 1) a (1 - b)) as [G5 G6]; try lra.
  destruct (grad_bound bb (a - 1) (b - 1) (1 - a) (1 - b)) as [G7 G8]; try lra.
  pose proof (blend_bound a b (perlin.fade a) (perlin.fade b) _ _ _ _
                Hu0 Hu1 Hv0 Hv1 G1 G2 G3 G4 G5 G6 G7 G8) as [B1 B2].
  cbv zeta in B1, B2.
  pose proof (axis_weight a Ha0 ltac:(lra)). pose proof (axis_weight b Hb0 ltac:(lra)).
  split; lra.
Qed.

(** X9.  On a well-formed table [Noise2DRaw] returns a value of [[-1, 1]],
    for all [x], [y] and [freq]. *)
Theorem Noise2DRaw_range (P : perlin.Perlin) (x y freq : Q) :
  wfTable (perlin.p P) ->
  exists v, perlin.Noise2DRaw P x y freq = Some v /\ (-1 <= v)%Q /\ (v <= 1)%Q.
Proof. apply Noise2DRaw_bound. Qed.

Lemma Noise2DRaw_range_witness :
  wfTable (perlin.p inputs.identityTable) /\
  exists v, perlin.Noise2DRaw inputs.identityTable 10 20 (3 # 512) = Some v /\
            (-1 <= v)%Q /\ (v <= 1)%Q.
Proof.
  assert (Hwf : wfTable (perlin.p inputs.identityTable)).
  { split; [reflexivity|]. apply Forall_forall. intros v Hv.
    apply elem_of_app in Hv as [Hv|Hv]; apply elem_of_seqZ in Hv; lia. }
  split; [exact Hwf|]. apply (Noise2DRaw_range inputs.identityTable). exact Hwf.
Defined.

#[global] Instance fade_proper : Proper (Qeq ==> Qeq) perlin.fade.
Proof. intros a b E. unfold perlin.fade. rewrite E. reflexivity. Qed.

#[global] Instance lerp_proper : Proper (Qeq ==> Qeq ==> Qeq ==> Qeq) perlin.lerp.
Proof. intros t t' Et a a' Ea b b' Eb. unfold perlin.lerp. rewrite Et, Ea, Eb. reflexivity. Qed.

#[global] Instance grad_proper (h : Z) : Proper (Qeq ==> Qeq ==> Qeq) (perlin.grad h).
Proof.
  intros x x' Ex y y' Ey. unfold perlin.grad.
  destruct (Z.land h 3) as [|[[]|[]|]|]; lra.
Qed.

Lemma Qfloor_unique (q : Q) (z : Z) :
  (inject_Z z <= q)%Q -> (q < inject_Z (z + 1))%Q -> Qfloor q = z.
Proof.
  intros Hl Hu. pose proof (Qfloor_le q) as Fl. pose proof (Qlt_floor q) as Fu.
  assert (H1 : (inject_Z z < inject_Z (Qfloor q + 1))%Q) by lra.
  assert (H2 : (inject_Z (Qfloor q) < inject_Z (z + 1))%Q) by lra.
  rewrite <- Zlt_Qlt in H1, H2. lia.
Qed.

Lemma Qfloor_shift (q : Q) (k : Z) : Qfloor (q + inject_Z k) = Qfloor q + k.
Proof.
  apply Qfloor_unique.
  - rewrite inject_Z_plus. pose proof (Qfloor_le q). lra.
  - pose proof (Qlt_floor q) as Fu. rewrite !inject_Z_plus in *. lra.
Qed.

Lemma land_255_shift (z k : Z) : Z.land (z + 256 * k) 255 = Z.land z 255.
Proof.
  change 255 with (Z.ones 8). rewrite !Z.land_ones by lia.
  change (2 ^ 8) with 256. rewrite Z.mul_comm. apply Z_mod_plus_full.
Qed.

Lemma lattice_shift (q q' : Q) (k : Z) :
  (q' == q + inject_Z (256 * k))%Q ->
  Z.land (int (math_Floor q')) 255 = Z.land (int (math_Floor q)) 255 /\
  (q' - math_Floor q' == q - math_Floor q)%Q.
Proof.
  intros E. unfold math_Floor. rewrite !int_inject_Z.
  rewrite (Qfloor_comp _ _ E), Qfloor_shift. split; [apply land_255_shift|].
  rewrite E, inject_Z_plus. ring.
Qed.

(** [Noise2DRaw] depends on [x * freq] and [y * freq] only through the
    lattice cell modulo 256 and the position inside the cell. *)
Lemma Noise2DRaw_cell (P : perlin.Perlin) (x y x' y' freq freq' : Q) :
  Z.land (int (math_Floor (x' * freq'))) 255 = Z.land (int (math_Floor (x * freq))) 255 ->
  Z.land (int (math_Floor (y' * freq'))) 255 = Z.land (int (math_Floor (y * freq))) 255 ->
  (x' * freq' - math_Floor (x' * freq') == x * freq - math_Floor (x * freq))%Q ->
  (y' * freq' - math_Floor (y' * freq') == y * freq - math_Floor (y * freq))%Q ->
  sameValue (perlin.Noise2DRaw P x' y' freq') (perlin.Noise2DRaw P x y freq).
Proof.
  intros Exi Eyi Ea Eb. unfold perlin.Noise2DRaw. cbv zeta. rewrite Exi, Eyi.
  set (xi := Z.land (int (math_Floor (x * freq))) 255).
  set (yi := Z.land (int (math_Floor (y * freq))) 255).
  destruct (index (perlin.p P) xi) as [a|]; cbn [mbind option_bind]; [|exact I].
  destruct (index (perlin.p P) (a + yi)) as [aa|]; cbn [mbind option_bind]; [|exact I].
  destruct (index (perlin.p P) (a + yi + 1)) as [ab|]; cbn [mbind option_bind]; [|exact I].
  destruct (index (perlin.p P) (xi + 1)) as [b|]; cbn [mbind option_bind]; [|exact I].
  destruct (index (perlin.p P) (b + yi)) as [ba|]; cbn [mbind option_bind]; [|exact I].
  destruct (index (perlin.p P) (b + yi + 1)) as [bb|]; cbn [mbind option_bind]; [|exact I].
  cbn [sameValue]. rewrite Ea, Eb. reflexivity.
Qed.

Lemma Noise2DRaw_shift (P : perlin.Perlin) (x y x' y' freq : Q) (kx ky : Z) :
  (x' * freq == x * freq + inject_Z (256 * kx))%Q ->
  (y' * freq == y * freq + inject_Z (256 * ky))%Q ->
  sameValue (perlin.Noise2DRaw P x' y' freq) (perlin.Noise2DRaw P x y freq).
Proof.
  intros Ex Ey.
  destruct (lattice_shift _ _ _ Ex) as [E1 E2].
  destruct (lattice_shift _ _ _ Ey) as [E3 E4].
  by apply Noise2DRaw_cell.
Qed.

Lemma Noise2DRaw_lattice (P : perlin.Perlin) (x y freq : Q) (kx ky : Z) :
  wfTable (perlin.p P) ->
  (x * freq == inject_Z kx)%Q -> (y * freq == inject_Z ky)%Q ->
  exists v, perlin.Noise2DRaw P x y freq = Some v /\ (v == 0)%Q.
Proof.
  intros Hwf Ex Ey.
  destruct (Noise2DRaw_value P x y freq Hwf) as (aa & ab & ba & bb & ->).
  cbv zeta. eexists. split; [reflexivity|].
  assert (Ea : (x * freq - math_Floor (x * freq) == 0)%Q).
  { unfold math_Floor. rewrite (Qfloor_comp _ _ Ex), Qfloor_Z, Ex. ring. }
  assert (Eb : (y * freq - math_Floor (y * freq) == 0)%Q).
  { unfold math_Floor. rewrite (Qfloor_comp _ _ Ey), Qfloor_Z, Ey. ring. }
  rewrite Ea, Eb.
  assert (G : (perlin.grad aa 0 0 == 0)%Q).
  { unfold perlin.grad. destruct (Z.land aa 3) as [|[[]|[]|]|]; reflexivity. }
  unfold perlin.lerp at 1. change (perlin.fade 0) with (0 * 0 * 0 * (0 * (0 * 6 - 15) + 10))%Q.
  unfold perlin.lerp at 1. rewrite G. ring.
Qed.

(** X10.  [Noise2DRaw] is 0 at every lattice point: wherever [x * freq] and
    [y * freq] are integers, and so everywhere when [freq] is 0. *)
Theorem Noise2DRaw_zero_on_lattice (P : perlin.Perlin) (x y freq : Q) (kx ky : Z) :
  wfTable (perlin.p P) ->
  (x * freq == inject_Z kx)%Q -> (y * freq == inject_Z ky)%Q ->
  exists v, perlin.Noise2DRaw P x y freq = Some v /\ (v == 0)%Q.
Proof. apply Noise2DRaw_lattice. Qed.

Lemma Noise2DRaw_zero_on_lattice_witness :
  wfTable (perlin.p inputs.identityTable) /\
  ((3 # 2) * 4 == inject_Z 6)%Q /\ ((- 7 # 4) * 4 == inject_Z (-7))%Q /\
  exists v, perlin.Noise2DRaw inputs.identityTable (3 # 2) (- 7 # 4) 4 = Some v /\
            (v == 0)%Q.
Proof.
  assert (Hwf : wfTable (perlin.p inputs.identityTable)).
  { split; [reflexivity|]. apply Forall_forall. intros v Hv.
    apply elem_of_app in Hv as [Hv|Hv]; apply elem_of_seqZ in Hv; lia. }
  split; [exact Hwf|]. split; [reflexivity|]. split; [reflexivity|].
  apply (Noise2DRaw_zero_on_lattice inputs.identityTable (3 # 2) (- 7 # 4) 4 6 (-7));
    [exact Hwf | reflexivity | reflexivity].
Defined.

(** X11.  [Noise2DRaw] repeats every 256 lattice cells in [x] and in [y]:
    moving [x * freq] or [y * freq] by a multiple of 256 changes neither the
    value nor whether a lookup fails, whatever the table. *)
Theorem Noise2DRaw_period_256 (P : perlin.Perlin) (x y x' y' freq : Q) (kx ky : Z) :
  (x' * freq == x * freq + inject_Z (256 * kx))%Q ->
  (y' * freq == y * freq + inject_Z (256 * ky))%Q ->
  sameValue (perlin.Noise2DRaw P x' y' freq) (perlin.Noise2DRaw P x y freq).
Proof. apply Noise2DRaw_shift. Qed.

Lemma Noise2DRaw_period_256_witness :
  ((10 + 1024) * (1 # 4) == 10 * (1 # 4) + inject_Z (256 * 1))%Q /\
  ((20 - 2048) * (1 # 4) == 20 * (1 # 4) + inject_Z (256 * -2))%Q /\
  sameValue (perlin.Noise2DRaw inputs.identityTable (10 + 1024) (20 - 2048) (1 # 4))
            (perlin.Noise2DRaw inputs.identityTable 10 20 (1 # 4)).
Proof.
  split; [reflexivity|]. split; [reflexivity|].
  apply (Noise2DRaw_period_256 inputs.identityTable 10 20 (10 + 1024) (20 - 2048)
           (1 # 4) 1 (-2)); reflexivity.
Defined.

Lemma fbmLoop_bound (P : perlin.Perlin) (x y pers lac : Q) (n : nat) :
  wfTable (perlin.p P) -> (0 <= pers)%Q ->
  forall total amp freq maxAmp,
    (0 <= amp)%Q -> (- maxAmp <= total)%Q -> (total <= maxAmp)%Q ->
    exists total' maxAmp',
      perlin.fbmLoop P x y pers lac n total amp freq maxAmp = Some (total', maxAmp') /\
      (- maxAmp' <= total')%Q /\ (total' <= maxAmp')%Q.
Proof.
  intros Hwf Hp. induction n as [|n IH]; intros total amp freq maxAmp Ha Hl Hu.
  - exists total, maxAmp. auto.
  - cbn [perlin.fbmLoop].
    destruct (Noise2DRaw_bound P x y freq Hwf) as (v & -> & Hv1 & Hv2).
    cbn [mbind option_bind]. apply IH.
    + by apply Qmult_le_0_compat.
    + nra.
    + nra.
Qed.

Lemma FBM2DRaw_bound (P : perlin.Perlin) (x y baseFreq : Q) (octaves : Z)
    (pers lac : Q) :
  wfTable (perlin.p P) -> (0 <= pers)%Q ->
  exists v, perlin.FBM2DRaw P x y baseFreq octaves pers lac = Some v /\
            (-1 <= v)%Q /\ (v <= 1)%Q.
Proof.
  intros Hwf Hp. unfold perlin.FBM2DRaw.
  destruct (fbmLoop_bound P x y pers lac (Z.to_nat octaves) Hwf Hp 0 1 baseFreq 0)%Q
    as (total & maxAmp & -> & Hl & Hu); [lra..|].
  cbn [mbind option_bind].
  destruct (Qeq_bool maxAmp 0) eqn:Hz.
  - exists 0%Q. split; [reflexivity|]. split; discriminate.
  - apply Qeq_bool_neq in Hz. exists (total / maxAmp)%Q. split; [reflexivity|].
    assert (Hpos : (0 < maxAmp)%Q).
    { destruct (Qlt_le_dec 0 maxAmp) as [|Hle]; [assumption|].
      exfalso. apply Hz. lra. }
    split.
    + apply Qle_shift_div_l; [exact Hpos | lra].
    + apply Qle_shift_div_r; [exact Hpos | lra].
Qed.

Lemma FBM2DRaw_none (P : perlin.Perlin) (x y baseFreq : Q) (octaves : Z)
    (pers lac : Q) :
  octaves <= 0 -> perlin.FBM2DRaw P x y baseFreq octaves pers lac = Some 0%Q.
Proof.
  intros Ho. unfold perlin.FBM2DRaw.
  replace (Z.to_nat octaves) with 0%nat by lia. reflexivity.
Qed.

Lemma FBM2DRaw_one (P : perlin.Perlin) (x y baseFreq pers lac : Q) :
  sameValue (perlin.FBM2DRaw P x y baseFreq 1 pers lac)
            (perlin.Noise2DRaw P x y baseFreq).
Proof.
  unfold perlin.FBM2DRaw. change (Z.to_nat 1) with 1%nat. cbn [perlin.fbmLoop].
  destruct (perlin.Noise2DRaw P x y baseFreq) as [v|]; cbn [mbind option_bind];
    [|exact I].
  change (Qeq_bool (0 + 1) 0) with false. cbn [sameValue]. field.
Qed.

(** X12.  On a well-formed table and for a persistence that is not negative,
    [FBM2DRaw] returns a value of [[-1, 1]], for every number of octaves. *)
Theorem FBM2DRaw_range (P : perlin.Perlin) (x y baseFreq : Q) (octaves : Z)
    (persistence lacunarity : Q) :
  wfTable (perlin.p P) -> (0 <= persistence)%Q ->
  exists v, perlin.FBM2DRaw P x y baseFreq octaves persistence lacunarity = Some v /\
            (-1 <= v)%Q /\ (v <= 1)%Q.
Proof. apply FBM2DRaw_bound. Qed.

Lemma FBM2DRaw_range_witness :
  wfTable (perlin.p inputs.identityTable) /\ (0 <= 1 # 2)%Q /\
  exists v, perlin.FBM2DRaw inputs.identityTable 10 20 (3 # 512) 3 (1 # 2) 2 = Some v /\
            (-1 <= v)%Q /\ (v <= 1)%Q.
Proof.
  assert (Hwf : wfTable (perlin.p inputs.identityTable)).
  { split; [reflexivity|]. apply Forall_forall. intros v Hv.
    apply elem_of_app in Hv as [Hv|Hv]; apply elem_of_seqZ in Hv; lia. }
  split; [exact Hwf|]. split; [discriminate|].
  apply (FBM2DRaw_range inputs.identityTable); [exact Hwf | discriminate].
Defined.

(** X13.  The ends of the octave range: with [octaves <= 0] the loop of
    [FBM2DRaw] does not run and the result is 0, whatever the table; with
    [octaves = 1] the result is [Noise2DRaw(x, y, baseFreq)], whatever the
    persistence and the lacunarity. *)
Theorem FBM2DRaw_octaves_edge (P : perlin.Perlin) (x y baseFreq : Q) (octaves : Z)
    (persistence lacunarity : Q) :
  (octaves <= 0 ->
   perlin.FBM2DRaw P x y baseFreq octaves persistence lacunarity = Some 0%Q) /\
  sameValue (perlin.FBM2DRaw P x y baseFreq 1 persistence lacunarity)
            (perlin.Noise2DRaw P x y baseFreq).
Proof. split; [apply FBM2DRaw_none | apply FBM2DRaw_one]. Qed.

(** X14.  On a well-formed table [Noise2D] returns a value of [[0, 1]]. *)
Theorem Noise2D_range (P : perlin.Perlin) (x y freq : Q) :
  wfTable (perlin.p P) ->
  exists v, perlin.Noise2D P x y freq = Some v /\ (0 <= v)%Q /\ (v <= 1)%Q.
Proof.
  intros Hwf. unfold perlin.Noise2D.
  destruct (Noise2DRaw_bound P x y freq Hwf) as (raw & -> & Hl & Hu).
  cbn [mbind option_bind]. eexists. split; [reflexivity|]. split; lra.
Qed.

Lemma Noise2D_range_witness :
  wfTable (perlin.p inputs.identityTable) /\
  exists v, perlin.Noise2D inputs.identityTable 10 20 (3 # 512) = Some v /\
            (0 <= v)%Q /\ (v <= 1)%Q.
Proof.
  assert (Hwf : wfTable (perlin.p inputs.identityTable)).
  { split; [reflexivity|]. apply Forall_forall. intros v Hv.
    apply elem_of_app in Hv as [Hv|Hv]; apply elem_of_seqZ in Hv; lia. }
  split; [exact Hwf|]. apply (Noise2D_range inputs.identityTable). exact Hwf.
Defined.

(** X15.  On a well-formed table and for a persistence that is not negative,
    [FBM2D] returns a value of [[0, 1]]; the octave count is truncated to an
    integer, and when that is 0 or less the value is 0.5. *)
Theorem FBM2D_range (P : perlin.Perlin) (x y baseFreq octaves persistence lacunarity : Q) :
  wfTable (perlin.p P) -> (0 <= persistence)%Q ->
  exists v, perlin.FBM2D P x y baseFreq octaves persistence lacunarity = Some v /\
            (0 <= v)%Q /\ (v <= 1)%Q /\
            (int octaves <= 0 -> (v == 1 # 2)%Q).
Proof.
  intros Hwf Hp. unfold perlin.FBM2D. cbv zeta.
  destruct (FBM2DRaw_bound P x y baseFreq (int octaves) persistence lacunarity Hwf Hp)
    as (raw & Hraw & Hl & Hu).
  rewrite Hraw. cbn [mbind option_bind]. eexists. split; [reflexivity|].
  split; [lra|]. split; [lra|]. intros Ho.
  rewrite FBM2DRaw_none in Hraw by exact Ho. injection Hraw as <-. reflexivity.
Qed.

Lemma FBM2D_range_witness :
  wfTable (perlin.p inputs.identityTable) /\ (0 <= 1 # 2)%Q /\
  exists v, perlin.FBM2D inputs.identityTable 10 20 (3 # 512) (5 # 2) (1 # 2) 2 = Some v /\
            (0 <= v)%Q /\ (v <= 1)%Q /\ (int (5 # 2) <= 0 -> (v == 1 # 2)%Q).
Proof.
  assert (Hwf : wfTable (perlin.p inputs.identityTable)).
  { split; [reflexivity|]. apply Forall_forall. intros v Hv.
    apply elem_of_app in Hv as [Hv|Hv]; apply elem_of_seqZ in Hv; lia. }
  split; [exact Hwf|]. split; [discriminate|].
  apply (FBM2D_range inputs.identityTable); [exact Hwf | discriminate].
Defined.

Lemma NoiseFlow_bound (P : perlin.Perlin) (x y freq : Q) :
  wfTable (perlin.p P) ->
  exists xFlow yFlow, perlin.NoiseFlow P x y freq = Some (xFlow, yFlow) /\
    (-1 <= xFlow)%Q /\ (xFlow <= 1)%Q /\ (-1 <= yFlow)%Q /\ (yFlow <= 1)%Q.
Proof.
  intros Hwf. unfold perlin.NoiseFlow.
  destruct (Noise2DRaw_bound P x y freq Hwf) as (u & -> & Hu1 & Hu2).
  destruct (Noise2DRaw_bound P (x + 100) (y + 100) freq Hwf) as (v & -> & Hv1 & Hv2).
  cbn [mbind option_bind]. exists u, v. auto.
Qed.

(** X16.  On a well-formed table both components of [NoiseFlow] lie in
    [[-1, 1]]. *)
Theorem NoiseFlow_range (P : perlin.Perlin) (x y freq : Q) :
  wfTable (perlin.p P) ->
  exists xFlow yFlow, perlin.NoiseFlow P x y freq = Some (xFlow, yFlow) /\
    (-1 <= xFlow)%Q /\ (xFlow <= 1)%Q /\ (-1 <= yFlow)%Q /\ (yFlow <= 1)%Q.
Proof. apply NoiseFlow_bound. Qed.

Lemma NoiseFlow_range_witness :
  wfTable (perlin.p inputs.identityTable) /\
  exists xFlow yFlow,
    perlin.NoiseFlow inputs.identityTable 10 20 (3 # 512) = Some (xFlow, yFlow) /\
    (-1 <= xFlow)%Q /\ (xFlow <= 1)%Q /\ (-1 <= yFlow)%Q /\ (yFlow <= 1)%Q.
Proof.
  assert (Hwf : wfTable (perlin.p inputs.identityTable)).
  { split; [reflexivity|]. apply Forall_forall. intros v Hv.
    apply elem_of_app in Hv as [Hv|Hv]; apply elem_of_seqZ in Hv; lia. }
  split; [exact Hwf|]. apply (NoiseFlow_range inputs.identityTable). exact Hwf.
Defined.

(** ** The colours *)

Lemma picture_ltb_spec (a b : Q) : picture.ltb a b = true <-> (a < b)%Q.
Proof.
  unfold picture.ltb. rewrite negb_true_iff. split.
  - intros Hf. apply Qnot_le_lt. intros Hle. apply Qle_bool_iff in Hle. congruence.
  - intros Hlt. destruct (Qle_bool b a) eqn:E; [|reflexivity].
    apply Qle_bool_iff in E. lra.
Qed.

Lemma picture_ltb_false (a b : Q) : picture.ltb a b = false <-> (b <= a)%Q.
Proof.
  unfold picture.ltb. rewrite negb_false_iff. apply Qle_bool_iff.
Qed.

(** The thresholds of the colour chain and of the land test, in order. *)
Lemma thresholds_ordered :
  (0 < picture.c_0_15)%Q /\ (0 < picture.c_0_04)%Q /\
  (picture.c_0_04 < poi.c_0_05)%Q /\ (poi.c_0_05 < picture.c_0_10)%Q /\
  (picture.c_0_10 < picture.c_0_20)%Q /\ (picture.c_0_20 < picture.c_0_30)%Q.
Proof. repeat split. Qed.

(** The float64 sum of the land test stays above the shore threshold: up to
    [2^45] in magnitude (the slider gives sea levels from 0 to 1) the
    rounding of [seaLevel + 0.05] is far smaller than the gap of 0.01. *)
Lemma landThreshold_above_shore (seaLevel : Q) :
  (Qabs seaLevel <= 2 ^ 45)%Q ->
  (seaLevel + picture.c_0_04 <= poi.landThreshold seaLevel)%Q.
Proof.
  intros Hs. unfold poi.landThreshold.
  assert (E : (2 ^ 45 == 35184372088832)%Q) by reflexivity.
  rewrite E in Hs. apply Qabs_Qle_condition in Hs.
  assert (E5 : (poi.c_0_05 == 3602879701896397 # 72057594037927936)%Q)
    by reflexivity.
  assert (E4 : (picture.c_0_04 == 5764607523034235 # 144115188075855872)%Q)
    by reflexivity.
  assert (Hx : (Qabs (seaLevel + poi.c_0_05) <= inject_Z (2 ^ 46))%Q).
  { assert (E6 : (inject_Z (2 ^ 46) == 70368744177664)%Q) by reflexivity.
    rewrite E6. apply Qabs_Qle_condition. lra. }
  apply round64_near_128, Qabs_Qle_condition in Hx. lra.
Qed.

(** Case analysis on the branch of [pixelColor] taken. *)
Ltac band_cases v s :=
  unfold picture.pixelColor;
  destruct (picture.ltb v (s - picture.c_0_15)) eqn:B1;
  [|destruct (picture.ltb v s) eqn:B2;
    [|destruct (picture.ltb v (s + picture.c_0_04)) eqn:B3;
      [|destruct (picture.ltb v (s + picture.c_0_10)) eqn:B4;
        [|destruct (picture.ltb v (s + picture.c_0_20)) eqn:B5;
          [|destruct (picture.ltb v (s + picture.c_0_30)) eqn:B6]]]]];
  repeat match goal with
         | B : picture.ltb _ _ = true |- _ => apply picture_ltb_spec in B
         | B : picture.ltb _ _ = false |- _ => apply picture_ltb_false in B
         end.


(** ** More on the sampler *)

Section Accepted.
Context `{Rand R}.
Variables Cos Sin : Q -> Q.
Variables minDistance width height : Z.
Variable noiseMap : gmap poi.Point Q.
Variable seaLevel : Q.

Local Abbreviation onLand := (poi.onLand noiseMap seaLevel).
Local Abbreviation inBounds := (poi.inBounds width height).
Local Abbreviation seekLand := (poi.seekLand width height noiseMap seaLevel).
Local Abbreviation activeLoop :=
  (poi.activeLoop Cos Sin minDistance width height noiseMap seaLevel).
Local Abbreviation PoissonDisk :=
  (poi.PoissonDisk Cos Sin minDistance width height noiseMap seaLevel).

(** The accepted points of a run that returns: the start point first, every
    point inside the raster and on land. *)
Lemma PoissonDisk_accepted (fuel : nat) (r : R) (pts : list poi.Point) (n : Z) :
  PoissonDisk fuel r = Done (pts, n) ->
  n = Z.of_nat (length pts) /\
  (exists startPoint r1 rest,
     seekLand fuel r = Done (startPoint, r1) /\ pts = startPoint :: rest) /\
  Forall (fun q => inBounds q = true /\ onLand q = true) pts.
Proof.
  intros Hrun.
  apply PoissonDisk_Done in Hrun as (g0 & sp & r1 & g & _ & Hseek & _ & Hact & Hn).
  split; [exact Hn|].
  pose proof (seekLand_Done _ _ _ _ _ _ _ _ Hseek) as [Hland Hin].
  apply (activeLoop_invariant Cos Sin minDistance width height noiseMap seaLevel
           (fun pts _ => (exists rest, pts = sp :: rest) /\
                         Forall (fun q => inBounds q = true /\ onLand q = true) pts))
    in Hact.
  - destruct Hact as (_ & [rest ->] & Hall). split; [|exact Hall].
    exists sp, r1, rest. auto.
  - intros ps g1 np g' [[rest ->] Hps] Hb Hl _ _. split; [by eexists|].
    apply Forall_app. split; [exact Hps|]. by apply Forall_singleton.
  - cbn [poi.points]. split; [by exists []|]. by apply Forall_singleton.
Qed.

(** X17.  A run of [PoissonDisk] that returns, returns at least one point:
    the list starts with the start point of the land-seeking loop, every
    point lies inside the raster, and the count returned is the length of
    the list. *)
Theorem PoissonDisk_points_in_raster (fuel : nat) (r : R)
    (pts : list poi.Point) (n : Z) :
  PoissonDisk fuel r = Done (pts, n) ->
  n = Z.of_nat (length pts) /\ 1 <= n /\
  (exists startPoint r1 rest,
     seekLand fuel r = Done (startPoint, r1) /\ pts = startPoint :: rest) /\
  Forall (fun q => 0 <= poi.X q < width /\ 0 <= poi.Y q < height) pts.
Proof.
  intros Hrun. apply PoissonDisk_accepted in Hrun as (Hn & Hstart & Hall).
  split; [exact Hn|]. split; [|split; [exact Hstart|]].
  - destruct Hstart as (sp & r1 & rest & _ & ->). rewrite Hn. cbn [length]. lia.
  - eapply Forall_impl; [exact Hall|]. intros q [Hb _].
    by apply (inBounds_spec width height) in Hb.
Qed.


End Accepted.

Lemma PoissonDisk_points_in_raster_witness :
  poi.PoissonDisk inputs.cosT inputs.sinT 25 512 512 inputs.strip (45 # 100)
      10 inputs.draws
    = Done ([poi.mkPoint 0 0; poi.mkPoint 50 0; poi.mkPoint 1 0], 3) /\
  3 = Z.of_nat (length [poi.mkPoint 0 0; poi.mkPoint 50 0; poi.mkPoint 1 0]) /\
  1 <= 3 /\
  (exists startPoint r1 rest,
     poi.seekLand 512 512 inputs.strip (45 # 100) 10 inputs.draws
       = Done (startPoint, r1) /\
     [poi.mkPoint 0 0; poi.mkPoint 50 0; poi.mkPoint 1 0] = startPoint :: rest) /\
  Forall (fun q => 0 <= poi.X q < 512 /\ 0 <= poi.Y q < 512)
    [poi.mkPoint 0 0; poi.mkPoint 50 0; poi.mkPoint 1 0].
Proof.
  split; [vm_compute; reflexivity|].
  apply (PoissonDisk_points_in_raster inputs.cosT inputs.sinT 25 512 512 inputs.strip
           (45 # 100) 10 inputs.draws).
  vm_compute. reflexivity.
Defined.


(** [math.Round] followed by [int] is within one half of its argument. *)
Lemma round_near (q : Q) :
  (inject_Z (int (math_Round q)) - (1 # 2) <= q)%Q /\
  (q <= inject_Z (int (math_Round q)) + (1 # 2))%Q.
Proof.
  unfold math_Round. destruct (Qle_bool 0 q); rewrite int_inject_Z.
  - pose proof (Qfloor_le (q + (1 # 2))). pose proof (Qlt_floor (q + (1 # 2))) as Hl.
    rewrite inject_Z_plus in Hl. change (inject_Z 1) with 1%Q in Hl. split; lra.
  - pose proof (Qle_ceiling (q - (1 # 2))). pose proof (Qceiling_lt (q - (1 # 2))) as Hl.
    unfold Z.sub in Hl. rewrite inject_Z_plus, inject_Z_opp in Hl.
    change (inject_Z 1) with 1%Q in Hl. split; lra.
Qed.

Lemma round_offset (x b : Z) (e : Q) :
  (- inject_Z b <= e)%Q -> (e <= inject_Z b)%Q ->
  x - b <= int (math_Round (float64 x + e)) <= x + b.
Proof.
  intros Hl Hu. destruct (round_near (float64 x + e)) as [N1 N2].
  set (z := int (math_Round (float64 x + e))) in *. unfold float64 in *.
  assert (H1 : (inject_Z z < inject_Z (x + b + 1))%Q).
  { rewrite !inject_Z_plus. change (inject_Z 1) with 1%Q. lra. }
  assert (H2 : (inject_Z (x - b - 1) < inject_Z z)%Q).
  { unfold Z.sub. rewrite !inject_Z_plus, !inject_Z_opp.
    change (inject_Z 1) with 1%Q. lra. }
  rewrite <- Zlt_Qlt in H1, H2. lia.
Qed.

Lemma round_same (x : Z) (e : Q) :
  int (math_Round (float64 x + e)) = x -> (- (1 # 2) <= e)%Q /\ (e <= 1 # 2)%Q.
Proof.
  intros Hz. destruct (round_near (float64 x + e)) as [N1 N2].
  rewrite Hz in N1, N2. unfold float64 in *. split; lra.
Qed.

Section Candidate.
Context `{Rand R}.
Variables Cos Sin : Q -> Q.
Variable minDistance : Z.

Hypothesis Hm : 1 <= minDistance.
Hypothesis Hcos : forall a, (-1 <= Cos a)%Q /\ (Cos a <= 1)%Q.
Hypothesis Hsin : forall a, (-1 <= Sin a)%Q /\ (Sin a <= 1)%Q.
Hypothesis Hunit : forall a, (1 # 2 < Cos a * Cos a + Sin a * Sin a)%Q.

(** X20.  For [minDistance >= 1] and a cosine and sine of absolute value at
    most 1 whose squares add up to more than 1/2, a candidate is never the
    active point itself, and it lies within [3 * minDistance] of it on each
    axis. *)
Theorem candidate_offset (q : poi.Point) (r : R) :
  let c := fst (poi.candidate Cos Sin minDistance q r) in
  c <> q /\
  - (3 * minDistance) <= poi.X c - poi.X q <= 3 * minDistance /\
  - (3 * minDistance) <= poi.Y c - poi.Y q <= 3 * minDistance.
Proof.
  unfold poi.candidate.
  destruct (Float64 r) as [u1 r1].
  pose proof (Float64_range r1) as [Hd0 Hd1].
  destruct (Float64 r1) as [u2 r2]. cbn [fst snd] in *.
  destruct (distOf_range minDistance u2 ltac:(lia) Hd0 Hd1) as [D1 D2].
  set (d := poi.distOf minDistance u2) in *.
  set (a := poi.angleOf u1).
  destruct (Hcos a) as [C1 C2]. destruct (Hsin a) as [S1 S2].
  pose proof (Hunit a) as Hu.
  assert (Hm1 : (1 <= float64 minDistance)%Q).
  { unfold float64. change 1%Q with (inject_Z 1). rewrite <- Zle_Qle. exact Hm. }
  assert (E3 : (inject_Z (3 * minDistance) == 3 * float64 minDistance)%Q).
  { unfold float64. rewrite inject_Z_mult. reflexivity. }
  cbv zeta. cbn [poi.X poi.Y]. split; [|split].
  - intros Heq. destruct q as [qx qy]. injection Heq as Hx Hy. cbn [poi.X poi.Y] in *.
    apply round_same in Hx, Hy. destruct Hx as [X1 X2], Hy as [Y1 Y2].
    assert (Hx2 : (Cos a * d * (Cos a * d) <= 1 # 4)%Q) by nra.
    assert (Hy2 : (Sin a * d * (Sin a * d) <= 1 # 4)%Q) by nra.
    assert (Hd2 : (1 <= d * d)%Q) by nra.
    assert (Hs : ((Cos a * Cos a + Sin a * Sin a) * (d * d) <= 1 # 2)%Q).
    { assert (E : ((Cos a * Cos a + Sin a * Sin a) * (d * d) ==
                   Cos a * d * (Cos a * d) + Sin a * d * (Sin a * d))%Q) by ring.
      rewrite E. lra. }
    nra.
  - pose proof (round_offset (poi.X q) (3 * minDistance) (Cos a * d)) as Hr.
    rewrite E3 in Hr. assert (- (3 * float64 minDistance) <= Cos a * d)%Q by nra.
    assert (Cos a * d <= 3 * float64 minDistance)%Q by nra.
    specialize (Hr ltac:(assumption) ltac:(assumption)). lia.
  - pose proof (round_offset (poi.Y q) (3 * minDistance) (Sin a * d)) as Hr.
    rewrite E3 in Hr. assert (- (3 * float64 minDistance) <= Sin a * d)%Q by nra.
    assert (Sin a * d <= 3 * float64 minDistance)%Q by nra.
    specialize (Hr ltac:(assumption) ltac:(assumption)). lia.
Qed.

End Candidate.

Lemma candidate_offset_witness :
  1 <= 25 /\
  (forall a, (-1 <= inputs.cosT a)%Q /\ (inputs.cosT a <= 1)%Q) /\
  (forall a, (-1 <= inputs.sinT a)%Q /\ (inputs.sinT a <= 1)%Q) /\
  (forall a, (1 # 2 < inputs.cosT a * inputs.cosT a + inputs.sinT a * inputs.sinT a)%Q) /\
  let c := fst (poi.candidate inputs.cosT inputs.sinT 25 (poi.mkPoint 0 0)
                  [0; 3 # 4]%Q) in
  c <> poi.mkPoint 0 0 /\
  - (3 * 25) <= poi.X c - poi.X (poi.mkPoint 0 0) <= 3 * 25 /\
  - (3 * 25) <= poi.Y c - poi.Y (poi.mkPoint 0 0) <= 3 * 25.
Proof.
  assert (Hc : forall a, (-1 <= inputs.cosT a)%Q /\ (inputs.cosT a <= 1)%Q).
  { intros a. unfold inputs.cosT. destruct (Qeq_bool a math_Pi); split; discriminate. }
  assert (Hs : forall a, (-1 <= inputs.sinT a)%Q /\ (inputs.sinT a <= 1)%Q).
  { intros a. unfold inputs.sinT. destruct (Qeq_bool a math_Pi); split; discriminate. }
  assert (Hu : forall a,
             (1 # 2 < inputs.cosT a * inputs.cosT a + inputs.sinT a * inputs.sinT a)%Q).
  { intros a. unfold inputs.cosT, inputs.sinT.
    destruct (Qeq_bool a math_Pi); reflexivity. }
  split; [lia|]. split; [exact Hc|]. split; [exact Hs|]. split; [exact Hu|].
  apply (candidate_offset inputs.cosT inputs.sinT 25 ltac:(lia) Hc Hs Hu
           (poi.mkPoint 0 0) [0; 3 # 4]%Q).
Defined.

Section BadArguments.
Context `{Rand R}.
Variables Cos Sin : Q -> Q.
Variables minDistance width height : Z.
Variable noiseMap : gmap poi.Point Q.
Variable seaLevel : Q.

Local Abbreviation seekLand := (poi.seekLand width height noiseMap seaLevel).
Local Abbreviation PoissonDisk :=
  (poi.PoissonDisk Cos Sin minDistance width height noiseMap seaLevel).

Lemma seekLand_no_raster (fuel : nat) (r : R) :
  width <= 0 \/ height <= 0 -> seekLand (S fuel) r = Panic.
Proof.
  intros Hwh. cbn [poi.seekLand].
  destruct (decide (width <= 0)); [reflexivity|].
  destruct (Intn width r) as [x r1].
  destruct (decide (height <= 0)); [reflexivity | lia].
Qed.

Lemma gridWidth_nonpos :
  minDistance < 0 -> 0 < width -> poi.gridWidth minDistance width <= 0.
Proof.
  intros Hm Hw. unfold poi.gridWidth, math_Ceil. rewrite int_inject_Z.
  assert (Hc : (poi.cellSize minDistance < 0)%Q).
  { unfold poi.cellSize, float64.
    assert (Hq : (inject_Z minDistance < 0)%Q).
    { change 0%Q with (inject_Z 0). rewrite <- Zlt_Qlt. exact Hm. }
    apply Qlt_shift_div_r; [reflexivity | lra]. }
  set (cs := poi.cellSize minDistance) in *.
  assert (Hwq : (0 < float64 width)%Q).
  { unfold float64. change 0%Q with (inject_Z 0). rewrite <- Zlt_Qlt. exact Hw. }
  assert (Hq : (float64 width / cs < 0)%Q).
  { assert (E : (float64 width / cs * cs == float64 width)%Q).
    { field. lra. }
    destruct (Qlt_le_dec (float64 width / cs) 0) as [|Hge]; [assumption|].
    exfalso. nra. }
  pose proof (Qceiling_lt (float64 width / cs)) as Hl.
  assert (Hz : (inject_Z (Qceiling (float64 width / cs) - 1) < inject_Z 0)%Q).
  { change (inject_Z 0) with 0%Q. lra. }
  rewrite <- Zlt_Qlt in Hz. lia.
Qed.

(** X19.  With a negative [minDistance], or a [width] or [height] that is not
    positive, [PoissonDisk] never returns a result; when the raster has no
    positive size it panics at the first draw at the latest. *)
Theorem PoissonDisk_bad_arguments (fuel : nat) (r : R) :
  minDistance < 0 \/ width <= 0 \/ height <= 0 ->
  (forall res, PoissonDisk fuel r <> Done res) /\
  (width <= 0 \/ height <= 0 -> PoissonDisk (S fuel) r = Panic).
Proof.
  intros Hbad. split.
  - intros res Hrun. destruct res as [pts n].
    apply PoissonDisk_Done in Hrun as (g0 & sp & r1 & g & Hgrid & Hseek & Hset & _).
    pose proof (seekLand_Done _ _ _ _ _ _ _ _ Hseek) as [_ Hin].
    apply (inBounds_spec width height) in Hin.
    destruct Hbad as [Hm|Hwh]; [|lia].
    pose proof (gridWidth_nonpos Hm ltac:(lia)) as Hgw.
    unfold poi.makeGrid in Hgrid.
    destruct (decide (poi.gridWidth minDistance width < 0)); [discriminate|].
    destruct (decide (_ /\ _)); [discriminate|].
    injection Hgrid as <-.
    replace (poi.gridWidth minDistance width) with 0 in Hset by lia.
    unfold poi.gridSet, index in Hset. cbn [Z.to_nat replicate] in Hset.
    destruct (decide (0 <= _)); discriminate.
  - intros Hwh. unfold poi.PoissonDisk.
    destruct (poi.makeGrid _ _ _); [|reflexivity].
    by rewrite seekLand_no_raster.
Qed.

End BadArguments.

Lemma PoissonDisk_bad_arguments_witness :
  (-25 < 0 \/ 512 <= 0 \/ 512 <= 0) /\
  (forall res,
     poi.PoissonDisk inputs.cosT inputs.sinT (-25) 512 512 inputs.strip (45 # 100)
       10 inputs.draws <> Done res) /\
  (512 <= 0 \/ 512 <= 0 ->
   poi.PoissonDisk inputs.cosT inputs.sinT (-25) 512 512 inputs.strip (45 # 100)
     11 inputs.draws = Panic).
Proof.
  split; [left; lia|].
  apply (PoissonDisk_bad_arguments inputs.cosT inputs.sinT (-25) 512 512 inputs.strip
           (45 # 100) 10 inputs.draws).
  left. lia.
Defined.

(** *** The active loop ends *)

Lemma rasterPoints_length (width height : Z) :
  length (rasterPoints width height) = (Z.to_nat width * Z.to_nat height)%nat.
Proof.
  unfold rasterPoints. rewrite length_fmap, length_prod, !length_seqZ. reflexivity.
Qed.

Lemma rasterPoints_elem (width height : Z) (q : poi.Point) :
  poi.inBounds width height q = true -> q ∈ rasterPoints width height.
Proof.
  intros Hb. apply inBounds_spec in Hb as [Hx Hy]. unfold rasterPoints.
  apply list_elem_of_fmap. exists (poi.X q, poi.Y q). split; [by destruct q|].
  apply list_elem_of_In, in_prod; apply list_elem_of_In, elem_of_seqZ; lia.
Qed.

Section Termination.
Context `{Rand R}.
Variables Cos Sin : Q -> Q.
Variables minDistance width height : Z.
Variable noiseMap : gmap poi.Point Q.
Variable seaLevel : Q.
Hypothesis Hm : 0 < minDistance.
Hypothesis Hzero : poi.onLand noiseMap seaLevel poi.zero = false.

Local Abbreviation gw := (poi.gridWidth minDistance width).
Local Abbreviation gh := (poi.gridHeight minDistance height).
Local Abbreviation onLand := (poi.onLand noiseMap seaLevel).
Local Abbreviation inBounds := (poi.inBounds width height).
Local Abbreviation samplerInv := (samplerInv minDistance width height).
Local Abbreviation activeLoop :=
  (poi.activeLoop Cos Sin minDistance width height noiseMap seaLevel).
Local Abbreviation PoissonDisk :=
  (poi.PoissonDisk Cos Sin minDistance width height noiseMap seaLevel).

(** Accepted points that are all on land, the origin not being land, are
    pairwise distinct, so there are at most [width * height] of them. *)
Lemma accepted_count (pts : list poi.Point) (g : list (list poi.Point)) :
  samplerInv pts g -> Forall (fun q => onLand q = true) pts ->
  (length pts <= Z.to_nat width * Z.to_nat height)%nat.
Proof.
  intros (_ & Hin & _ & Hsep) Hland.
  rewrite <- rasterPoints_length. apply submseteq_length, NoDup_submseteq.
  - apply NoDup_alt. intros i j a Hi Hj.
    assert (Hnz : a <> poi.zero).
    { intros ->. rewrite Forall_forall in Hland.
      rewrite (Hland poi.zero) in Hzero; [discriminate|].
      by eapply list_elem_of_lookup_2. }
    assert (Hself : poi.tooClose minDistance a a = true).
    { unfold poi.tooClose. apply andb_true_iff. split; [by apply Z.ltb_lt|].
      apply Z.ltb_lt. rewrite !Z.sub_diag. cbn. nia. }
    destruct (Nat.lt_trichotomy i j) as [Hlt|[Heq|Hgt]]; [|exact Heq|].
    + rewrite (Hsep i j a a Hlt Hi Hj Hnz) in Hself. discriminate.
    + rewrite (Hsep j i a a Hgt Hj Hi Hnz) in Hself. discriminate.
  - intros q Hq. rewrite Forall_forall in Hin. by apply rasterPoints_elem, Hin.
Qed.

Lemma activeLoop_ends (fuel : nat) : forall st : poi.state R,
  samplerInv (poi.points st) (poi.grid st) ->
  Forall (fun q => onLand q = true) (poi.points st) ->
  (2 * (Z.to_nat width * Z.to_nat height - length (poi.points st))
   + length (poi.activePoints st) <= fuel)%nat ->
  exists pts, activeLoop fuel st = Done pts.
Proof.
  induction fuel as [|fuel IH]; intros st Hinv Hland Hfuel.
  - destruct (poi.activePoints st) eqn:Hact; [|simpl in Hfuel; lia].
    exists (poi.points st). simpl. by rewrite Hact.
  - cbn [poi.activeLoop].
    destruct (poi.activePoints st) as [|a act] eqn:Hact; [by eexists|].
    pose proof (Intn_range (Z.of_nat (length (a :: act))) (poi.rng st)
                  ltac:(simpl; lia)) as Hidx.
    destruct (Intn _ (poi.rng st)) as [randomIndex r1]. cbn [fst] in Hidx.
    destruct (index_in_range (a :: act) randomIndex Hidx) as [q Hq]. rewrite Hq.
    destruct Hinv as (Hshape & Hrest).
    destruct (attempts_is_Some Cos Sin minDistance width height noiseMap seaLevel Hm
                30 q (poi.withRng st r1) Hshape) as (found & st' & Ha & Hshape').
    rewrite Ha.
    apply attempts_cases in Ha.
    cbn [poi.withRng poi.points poi.activePoints poi.grid] in Ha.
    destruct Ha as [(-> & Hp & Hact' & Hg) | (-> & np & Hb & Hl & Hc & Hs & Hp & Hact')].
    + apply IH; cbn [poi.points poi.grid poi.activePoints].
      * rewrite Hp, Hg. by split.
      * by rewrite Hp.
      * rewrite Hp, Hact', Hact.
        apply index_Some in Hq as [_ Hq].
        rewrite length_delete by eauto. simpl in *. lia.
    + assert (Hinv' : samplerInv (poi.points st') (poi.grid st')).
      { rewrite Hp.
        exact (samplerInv_accept Cos Sin minDistance width height seaLevel Hm
                 _ _ _ _ (conj Hshape Hrest) Hb Hc Hs). }
      assert (Hland' : Forall (fun q => onLand q = true) (poi.points st')).
      { rewrite Hp. apply Forall_app. split; [exact Hland | by apply Forall_singleton]. }
      pose proof (accepted_count _ _ Hinv' Hland') as Hcount.
      apply IH; [exact Hinv' | exact Hland' |].
      rewrite Hp, Hact', Hact in *. rewrite !length_app in *. simpl in *. lia.
Qed.

(** X21.  When the origin is not land, the active loop ends: once the
    land-seeking loop has found its start point, a run of [PoissonDisk] makes
    at most [2 * width * height] iterations of the active loop and returns
    its list of points. *)
Theorem PoissonDisk_terminates (fuel : nat) (r : R) :
  0 < width -> 0 < height ->
  poi.seekLand width height noiseMap seaLevel fuel r <> OutOfFuel ->
  (2 * (Z.to_nat width * Z.to_nat height) <= fuel)%nat ->
  exists pts, PoissonDisk fuel r = Done (pts, Z.of_nat (length pts)).
Proof.
  intros Hw Hh Hseek Hfuel. unfold poi.PoissonDisk. cbv zeta.
  rewrite makeGrid_Some by assumption.
  destruct (poi.seekLand width height noiseMap seaLevel fuel r)
    as [[startPoint r1]| |] eqn:Hs; [| |by destruct Hseek].
  - apply seekLand_Done in Hs as [Hl Hsp].
    destruct (inBounds_cells minDistance width height Hm _ Hsp) as (_ & Hcx & Hcy).
    destruct (gridSet_in_range _ gw gh _ _ startPoint
                (gridShape_replicate gw gh) Hcx Hcy) as [g Hg].
    rewrite Hg.
    destruct (activeLoop_ends fuel (poi.mkState [startPoint] [startPoint] g r1))
      as [pts ->]; cbn [poi.points poi.grid poi.activePoints length].
    + eapply samplerInv_start; [apply gridShape_replicate | exact Hsp | exact Hg].
    + by apply Forall_singleton.
    + lia.
    + by exists pts.
  - exfalso. revert Hs. clear -Hw Hh. revert r.
    induction fuel as [|fuel IH]; intros r; [discriminate|].
    cbn [poi.seekLand].
    destruct (decide (width <= 0)); [lia|].
    destruct (Intn width r) as [x r1].
    destruct (decide (height <= 0)); [lia|].
    destruct (Intn height r1) as [y r2].
    destruct (poi.onLand _ _ _); [discriminate | apply IH].
Qed.

End Termination.

Lemma PoissonDisk_terminates_witness :
  0 < 2 /\
  poi.onLand {[poi.mkPoint 1 1 := 1%Q]} (1 # 2) poi.zero = false /\
  0 < 3 /\ 0 < 3 /\
  poi.seekLand 3 3 {[poi.mkPoint 1 1 := 1%Q]} (1 # 2) 18 [1 # 2; 1 # 2]%Q <> OutOfFuel /\
  (2 * (Z.to_nat 3 * Z.to_nat 3) <= 18)%nat /\
  exists pts,
    poi.PoissonDisk inputs.cosT inputs.sinT 2 3 3 {[poi.mkPoint 1 1 := 1%Q]} (1 # 2)
      18 [1 # 2; 1 # 2]%Q = Done (pts, Z.of_nat (length pts)).
Proof.
  split; [lia|]. split; [vm_compute; reflexivity|]. split; [lia|]. split; [lia|].
  split; [vm_compute; discriminate|]. split; [vm_compute; lia|].
  apply (PoissonDisk_terminates inputs.cosT inputs.sinT 2 3 3
           {[poi.mkPoint 1 1 := 1%Q]} (1 # 2)).
  - lia.
  - vm_compute. reflexivity.
  - lia.
  - lia.
  - vm_compute. discriminate.
  - vm_compute. lia.
Defined.

(** ** The picture *)

(** [Set] inside the rectangle. *)
Lemma Set_inside (out : picture.Image) (x y : Z) (c : picture.RGBA) :
  0 <= x < picture.rectW out -> 0 <= y < picture.rectH out ->
  picture.Set_ out x y c =
  picture.mkImage (picture.rectW out) (picture.rectH out)
    (<[poi.mkPoint x y := c]> (picture.pix out)).
Proof.
  intros Hx Hy. unfold picture.Set_.
  replace ((0 <=? x) && (x <? picture.rectW out) && (0 <=? y)
           && (y <? picture.rectH out)) with true; [reflexivity|].
  symmetry. rewrite !andb_true_iff. lia.
Qed.

Section PictureRun.
Context `{Rand Rnd}.
Variables Cos Sin : Q -> Q.
Variables Pow Hypot : Q -> Q -> Q.
Variables width height : Z.

Local Abbreviation noiseValue := (main.noiseValue Pow Hypot width height).
Local Abbreviation pixel := (picture.pixel Pow Hypot width height).
Local Abbreviation raster := (picture.raster Pow Hypot width height).
Local Abbreviation drawPOI := (picture.drawPOI width height).
Local Abbreviation painted := (painted width height).

Lemma pixel_painted (P : perlin.Perlin) (c : main.Params) (x y : Z) a b :
  0 <= x < width -> 0 <= y < height -> painted c a b ->
  painted c (pixel P c y a x)
    (m ← b; v ← noiseValue P c x y; Some (<[poi.mkPoint x y := v]> m)).
Proof.
  intros Hx Hy Hp. unfold picture.pixel.
  destruct a as [[m out]|], b as [m'|]; cbn [painted mbind option_bind] in *;
    try contradiction; [|exact I].
  destruct Hp as (-> & Hw & Hh & Hpix).
  destruct (noiseValue P c x y) as [v|]; cbn [mbind option_bind painted]; [|exact I].
  rewrite Set_inside by lia. cbn [picture.rectW picture.rectH picture.pix].
  rewrite Hpix, fmap_insert. auto.
Qed.

Lemma row_painted (P : perlin.Perlin) (c : main.Params) (y : Z) (xs : list Z) :
  0 <= y < height -> Forall (fun x => 0 <= x < width) xs ->
  forall a b, painted c a b ->
    painted c (foldl (pixel P c y) a xs)
      (foldl (fun acc x =>
                m ← acc; v ← noiseValue P c x y; Some (<[poi.mkPoint x y := v]> m))
             b xs).
Proof.
  intros Hy Hxs. induction Hxs as [|x xs Hx _ IH]; intros a b Hp; [exact Hp|].
  cbn [foldl]. apply IH. by apply pixel_painted.
Qed.

Lemma rows_painted (P : perlin.Perlin) (c : main.Params) (ys : list Z) :
  Forall (fun y => 0 <= y < height) ys ->
  forall a b, painted c a b ->
    painted c (foldl (fun acc y => foldl (pixel P c y) acc (seqZ 0 width)) a ys)
      (foldl (fun acc y => main.fillRow Pow Hypot width height P c y acc) b ys).
Proof.
  intros Hys. induction Hys as [|y ys Hy _ IH]; intros a b Hp; [exact Hp|].
  cbn [foldl]. apply IH. unfold main.fillRow. apply row_painted; [exact Hy | | exact Hp].
  apply Forall_forall. intros x Hx. apply elem_of_seqZ in Hx. lia.
Qed.

Lemma raster_painted (P : perlin.Perlin) (c : main.Params) :
  painted c (raster P c (picture.NewRGBA width height))
    (main.heightField Pow Hypot width height P c).
Proof.
  unfold picture.raster, main.heightField. apply rows_painted.
  - apply Forall_forall. intros y Hy. apply elem_of_seqZ in Hy. lia.
  - cbn [painted picture.NewRGBA picture.rectW picture.rectH picture.pix].
    rewrite fmap_empty. auto.
Qed.

(** The marker loops: the inner loop over [js] at column offset [i]. *)
Lemma marker_column (pnt : poi.Point) (i : Z) (js : list Z) :
  forall out : picture.Image,
    picture.rectW out = width -> picture.rectH out = height ->
    let out' :=
      foldl (fun out j =>
               let xx := poi.X pnt + i in
               let yy := poi.Y pnt + j in
               if (0 <=? xx) && (xx <? width) && (0 <=? yy) && (yy <? height)
               then picture.Set_ out xx yy picture.poiColor
               else out) out js in
    picture.rectW out' = width /\ picture.rectH out' = height /\
    forall q, picture.pix out' !! q =
      if decide ((0 <= poi.X q < width /\ 0 <= poi.Y q < height) /\
                 poi.X q = poi.X pnt + i /\ poi.Y q - poi.Y pnt ∈ js)
      then Some picture.poiColor else picture.pix out !! q.
Proof.
  induction js as [|j js IH]; intros out Hw Hh; cbv zeta.
  - cbn [foldl]. split; [exact Hw|]. split; [exact Hh|]. intros q.
    rewrite decide_False; [reflexivity|]. intros (_ & _ & Hin).
    by apply elem_of_nil in Hin.
  - cbn [foldl].
    destruct ((0 <=? poi.X pnt + i) && (poi.X pnt + i <? width)
              && (0 <=? poi.Y pnt + j) && (poi.Y pnt + j <? height)) eqn:Hb.
    + rewrite !andb_true_iff in Hb.
      rewrite Set_inside by lia.
      edestruct (IH (picture.mkImage (picture.rectW out) (picture.rectH out)
                       (<[poi.mkPoint (poi.X pnt + i) (poi.Y pnt + j) := picture.poiColor]>
                          (picture.pix out)))) as (Hw' & Hh' & Hl);
        [exact Hw | exact Hh |].
      cbv zeta in Hw', Hh', Hl. split; [exact Hw'|]. split; [exact Hh'|].
      intros q. rewrite Hl. cbn [picture.pix].
      destruct (decide (_ /\ poi.X q = _ /\ poi.Y q - poi.Y pnt ∈ js))
        as [(Hr & Hx & Hin)|Hnot].
      * rewrite decide_True; [reflexivity|]. split; [exact Hr|].
        split; [exact Hx | by right].
      * destruct (decide (poi.mkPoint (poi.X pnt + i) (poi.Y pnt + j) = q)) as [<-|Hne].
        -- rewrite lookup_insert_eq. cbn [poi.X poi.Y].
           rewrite decide_True; [reflexivity|].
           split; [lia|]. split; [reflexivity|].
           replace (poi.Y pnt + j - poi.Y pnt) with j by lia. by left.
        -- rewrite lookup_insert_ne by exact Hne.
           rewrite decide_False; [reflexivity|].
           intros (Hr & Hx & Hin). apply elem_of_cons in Hin as [Hj|Hin].
           ++ apply Hne. destruct q as [qx qy]. cbn [poi.X poi.Y] in *.
              f_equal; lia.
           ++ apply Hnot. auto.
    + destruct (IH out Hw Hh) as (Hw' & Hh' & Hl). cbv zeta in Hw', Hh', Hl.
      split; [exact Hw'|]. split; [exact Hh'|].
      intros q. rewrite Hl.
      destruct (decide (_ /\ poi.X q = _ /\ poi.Y q - poi.Y pnt ∈ js))
        as [(Hr & Hx & Hin)|Hnot].
      * rewrite decide_True; [reflexivity|]. split; [exact Hr|].
        split; [exact Hx | by right].
      * rewrite decide_False; [reflexivity|].
        intros (Hr & Hx & Hin). apply elem_of_cons in Hin as [Hj|Hin].
        -- rewrite !andb_false_iff in Hb.
           rewrite !Z.leb_gt, !Z.ltb_ge in Hb. lia.
        -- apply Hnot. auto.
Qed.

Lemma marker_columns (pnt : poi.Point) (js is_ : list Z) :
  forall out : picture.Image,
    picture.rectW out = width -> picture.rectH out = height ->
    let out' :=
      foldl (fun out i =>
               foldl (fun out j =>
                        let xx := poi.X pnt + i in
                        let yy := poi.Y pnt + j in
                        if (0 <=? xx) && (xx <? width) && (0 <=? yy) && (yy <? height)
                        then picture.Set_ out xx yy picture.poiColor
                        else out) out js) out is_ in
    picture.rectW out' = width /\ picture.rectH out' = height /\
    forall q, picture.pix out' !! q =
      if decide ((0 <= poi.X q < width /\ 0 <= poi.Y q < height) /\
                 poi.X q - poi.X pnt ∈ is_ /\ poi.Y q - poi.Y pnt ∈ js)
      then Some picture.poiColor else picture.pix out !! q.
Proof.
  induction is_ as [|i is_ IH]; intros out Hw Hh; cbv zeta.
  - cbn [foldl]. split; [exact Hw|]. split; [exact Hh|]. intros q.
    rewrite decide_False; [reflexivity|]. intros (_ & Hin & _).
    by apply elem_of_nil in Hin.
  - cbn [foldl].
    destruct (marker_column pnt i js out Hw Hh) as (Hw1 & Hh1 & Hl1).
    cbv zeta in Hw1, Hh1, Hl1.
    destruct (IH _ Hw1 Hh1) as (Hw' & Hh' & Hl). cbv zeta in Hw', Hh', Hl.
    split; [exact Hw'|]. split; [exact Hh'|].
    intros q. rewrite Hl, Hl1.
    destruct (decide (_ /\ poi.X q - poi.X pnt ∈ is_ /\ _)) as [(Hr & Hx & Hy)|Hnot].
    + rewrite decide_True; [reflexivity|]. split; [exact Hr|].
      split; [by right | exact Hy].
    + destruct (decide (_ /\ poi.X q = poi.X pnt + i /\ _)) as [(Hr & Hx & Hy)|Hnot1].
      * rewrite decide_True; [reflexivity|]. split; [exact Hr|].
        split; [|exact Hy]. replace (poi.X q - poi.X pnt) with i by lia. by left.
      * rewrite decide_False; [reflexivity|].
        intros (Hr & Hx & Hy). apply elem_of_cons in Hx as [Hx|Hx].
        -- apply Hnot1. split; [exact Hr|]. split; [lia | exact Hy].
        -- apply Hnot. auto.
Qed.

Lemma marks_spec (d : Z) : d ∈ picture.marks <-> -1 <= d <= 1.
Proof.
  unfold picture.marks. rewrite !elem_of_cons, elem_of_nil. lia.
Qed.

Lemma drawPOI_lookup (out : picture.Image) (pnt : poi.Point) :
  picture.rectW out = width -> picture.rectH out = height ->
  picture.rectW (drawPOI out pnt) = width /\
  picture.rectH (drawPOI out pnt) = height /\
  forall q, picture.pix (drawPOI out pnt) !! q =
    if decide ((0 <= poi.X q < width /\ 0 <= poi.Y q < height) /\ marked pnt q)
    then Some picture.poiColor else picture.pix out !! q.
Proof.
  intros Hw Hh.
  destruct (marker_columns pnt picture.marks picture.marks out Hw Hh) as (Hw' & Hh' & Hl).
  cbv zeta in Hw', Hh', Hl. unfold picture.drawPOI.
  split; [exact Hw'|]. split; [exact Hh'|]. intros q. rewrite Hl.
  destruct (decide (_ /\ _ ∈ picture.marks /\ _)) as [H1|H1],
           (decide (_ /\ marked pnt q)) as [H2|H2]; try reflexivity; exfalso;
    [apply H2 | apply H1]; unfold marked in *; rewrite ?marks_spec in *; tauto.
Qed.

Lemma drawPOIs_lookup (pois : list poi.Point) :
  forall out : picture.Image,
    picture.rectW out = width -> picture.rectH out = height ->
    picture.rectW (foldl drawPOI out pois) = width /\
    picture.rectH (foldl drawPOI out pois) = height /\
    forall q, picture.pix (foldl drawPOI out pois) !! q =
      if decide ((0 <= poi.X q < width /\ 0 <= poi.Y q < height) /\
                 Exists (fun pnt => marked pnt q) pois)
      then Some picture.poiColor else picture.pix out !! q.
Proof.
  induction pois as [|pnt pois IH]; intros out Hw Hh.
  - cbn [foldl]. split; [exact Hw|]. split; [exact Hh|]. intros q.
    rewrite decide_False; [reflexivity|]. intros [_ Hex]. by apply Exists_nil in Hex.
  - cbn [foldl].
    destruct (drawPOI_lookup out pnt Hw Hh) as (Hw1 & Hh1 & Hl1).
    destruct (IH _ Hw1 Hh1) as (Hw' & Hh' & Hl).
    split; [exact Hw'|]. split; [exact Hh'|]. intros q. rewrite Hl, Hl1.
    destruct (decide (_ /\ Exists _ pois)) as [[Hr Hex]|Hnot].
    + rewrite decide_True; [reflexivity|]. split; [exact Hr|]. by apply Exists_cons_tl.
    + destruct (decide (_ /\ marked pnt q)) as [[Hr Hm]|Hnot1].
      * rewrite decide_True; [reflexivity|]. split; [exact Hr|]. by apply Exists_cons_hd.
      * rewrite decide_False; [reflexivity|].
        intros [Hr Hex]. apply Exists_cons in Hex as [Hm|Hex]; tauto.
Qed.


End PictureRun.

(** A run on a raster of 4 x 3 with the parameters [inputs.flat]: two points
    of interest, and a picture of twelve pixels, red at a point of interest,
    white (high mountain) away from them, unset outside the raster. *)
Lemma updateImage_picture_run :
  match main.generate (R := list Q) inputs.cosT inputs.sinT inputs.powT inputs.hypotT
          4 3 50 inputs.flat with
  | Done (noiseMap, pois) => Some (pois, poi.mapGet noiseMap (poi.mkPoint 3 2))
  | _ => None
  end = Some ([poi.mkPoint 0 0; poi.mkPoint 2 0],
              755578637259143234191360000 # 1511157274518286468382720000) /\
  match picture.updateImage (Rnd := list Q) inputs.cosT inputs.sinT inputs.powT
          inputs.hypotT 4 3 50 inputs.flat with
  | Done out =>
      Some (picture.pix out !! poi.mkPoint 0 0, picture.pix out !! poi.mkPoint 3 2,
            picture.pix out !! poi.mkPoint 4 2, size (picture.pix out))
  | _ => None
  end = Some (Some picture.poiColor, Some picture.highMountainColor, None, 12%nat).
Proof. split; vm_compute; reflexivity. Qed.

(** ** The layers of the height *)

Section Layers.
Variables Pow Hypot : Q -> Q -> Q.
Variables width height : Z.

(** X23.  How the height of a pixel is put together.  On a well-formed table,
    with a persistence that is not negative and a continent weight in
    [[0, 1]]: both flow components lie in [[-1, 1]], so the detail noise is
    sampled within [flowStrength] of the pixel on each axis; the blend of
    detail and continent noise, mapped to [combined], lies in [[0, 1]]; the
    stored height is [clamp01(combined - falloffVal)]; and with a falloff
    weight of 0 it is [combined] itself. *)
Theorem noiseValue_layers (P : perlin.Perlin) (c : main.Params) (x y : Z) :
  wfTable (perlin.p P) ->
  (0 <= main.persistence c)%Q ->
  (0 <= main.continentWeight c)%Q -> (main.continentWeight c <= 1)%Q ->
  exists flowX flowY localRaw continentRaw combined,
    perlin.NoiseFlow P (float64 x) (float64 y) (main.flowScale c) = Some (flowX, flowY) /\
    (-1 <= flowX)%Q /\ (flowX <= 1)%Q /\ (-1 <= flowY)%Q /\ (flowY <= 1)%Q /\
    perlin.FBM2DRaw P (float64 x + flowX * main.flowStrength c)
      (float64 y + flowY * main.flowStrength c) (main.scale c)
      (int (main.octavesFloat c)) (main.persistence c) (main.lacunarity c)
      = Some localRaw /\
    perlin.FBM2DRaw P (float64 x) (float64 y) (main.continentFreq c)
      (int (main.continentOctavesFloat c)) (1 # 2) 2 = Some continentRaw /\
    combined = ((localRaw * (1 - main.continentWeight c)
                 + continentRaw * main.continentWeight c + 1) * (1 # 2))%Q /\
    (0 <= combined)%Q /\ (combined <= 1)%Q /\
    main.noiseValue Pow Hypot width height P c x y =
      Some (main.clamp01
              (combined -
               Pow (Hypot (float64 x - float64 width / 2) (float64 y - float64 height / 2)
                    / Hypot (float64 width / 2) (float64 height / 2))
                   (main.falloff c) * main.falloffWeight c)) /\
    ((main.falloffWeight c == 0)%Q ->
     sameValue (main.noiseValue Pow Hypot width height P c x y) (Some combined)).
Proof.
  intros Hwf Hp Hc0 Hc1. unfold main.noiseValue. cbv zeta.
  destruct (NoiseFlow_bound P (float64 x) (float64 y) (main.flowScale c) Hwf)
    as (fx & fy & Hflow & Hx1 & Hx2 & Hy1 & Hy2).
  rewrite Hflow. cbn [mbind option_bind].
  destruct (FBM2DRaw_bound P (float64 x + fx * main.flowStrength c)
              (float64 y + fy * main.flowStrength c) (main.scale c)
              (int (main.octavesFloat c)) (main.persistence c) (main.lacunarity c)
              Hwf Hp) as (l & Hl & Hl1 & Hl2).
  rewrite Hl. cbn [mbind option_bind].
  destruct (FBM2DRaw_bound P (float64 x) (float64 y) (main.continentFreq c)
              (int (main.continentOctavesFloat c)) (1 # 2) 2 Hwf ltac:(discriminate))
    as (k & Hk & Hk1 & Hk2).
  rewrite Hk. cbn [mbind option_bind].
  set (w := main.continentWeight c) in *.
  assert (Hlo : (0 <= (l * (1 - w) + k * w + 1) * (1 # 2))%Q) by nra.
  assert (Hhi : ((l * (1 - w) + k * w + 1) * (1 # 2) <= 1)%Q) by nra.
  exists fx, fy, l, k, ((l * (1 - w) + k * w + 1) * (1 # 2))%Q.
  repeat (split; [first [assumption | reflexivity]|]).
  intros Hz. cbn [sameValue]. unfold main.clamp01.
  set (f := Pow _ _) in *. set (comb := ((l * (1 - w) + k * w + 1) * (1 # 2))%Q) in *.
  assert (E : (comb - f * main.falloffWeight c == comb)%Q) by (rewrite Hz; ring).
  destruct (Qle_bool 0 (comb - f * main.falloffWeight c)) eqn:B0; cbn [negb].
  - destruct (Qle_bool (comb - f * main.falloffWeight c) 1) eqn:B1; cbn [negb].
    + exact E.
    + exfalso. assert (Hle : (comb - f * main.falloffWeight c <= 1)%Q) by lra.
      apply Qle_bool_iff in Hle. congruence.
  - exfalso. assert (Hle : (0 <= comb - f * main.falloffWeight c)%Q) by lra.
    apply Qle_bool_iff in Hle. congruence.
Qed.

End Layers.

Lemma noiseValue_layers_witness :
  let P := inputs.identityTable in
  let c := inputs.params0 in
  wfTable (perlin.p P) /\
  (0 <= main.persistence c)%Q /\
  (0 <= main.continentWeight c)%Q /\
  (main.continentWeight c <= 1)%Q /\
  exists flowX flowY localRaw continentRaw combined,
    perlin.NoiseFlow P (float64 10) (float64 20) (main.flowScale c)
      = Some (flowX, flowY) /\
    (-1 <= flowX)%Q /\ (flowX <= 1)%Q /\ (-1 <= flowY)%Q /\ (flowY <= 1)%Q /\
    perlin.FBM2DRaw P (float64 10 + flowX * main.flowStrength c)
      (float64 20 + flowY * main.flowStrength c) (main.scale c)
      (int (main.octavesFloat c)) (main.persistence c) (main.lacunarity c)
      = Some localRaw /\
    perlin.FBM2DRaw P (float64 10) (float64 20) (main.continentFreq c)
      (int (main.continentOctavesFloat c)) (1 # 2) 2 = Some continentRaw /\
    combined = ((localRaw * (1 - main.continentWeight c)
                 + continentRaw * main.continentWeight c + 1) * (1 # 2))%Q /\
    (0 <= combined)%Q /\ (combined <= 1)%Q /\
    main.noiseValue inputs.powT inputs.hypotT 512 512 P c 10 20 =
      Some (main.clamp01
              (combined -
               inputs.powT
                 (inputs.hypotT (float64 10 - float64 512 / 2)
                    (float64 20 - float64 512 / 2)
                  / inputs.hypotT (float64 512 / 2) (float64 512 / 2))
                 (main.falloff c) * main.falloffWeight c)) /\
    ((main.falloffWeight c == 0)%Q ->
     sameValue (main.noiseValue inputs.powT inputs.hypotT 512 512 P c 10 20)
               (Some combined)).
Proof.
  intros P c.
  assert (Hwf : wfTable (perlin.p inputs.identityTable)).
  { split; [reflexivity|]. apply Forall_forall. intros v Hv.
    apply elem_of_app in Hv as [Hv|Hv]; apply elem_of_seqZ in Hv; lia. }
  split; [exact Hwf|]. split; [discriminate|]. split; [discriminate|].
  split; [discriminate|].
  apply (noiseValue_layers inputs.powT inputs.hypotT 512 512 inputs.identityTable
           inputs.params0 10 20); [exact Hwf | discriminate..].
Defined.

(** ** The generation trigger *)

(** One step keeps the count of goroutines equal to the flag. *)
Lemma step_one_goroutine (s s' : picture.Sched) (e : picture.event) :
  picture.running s = (if picture.isGenerating s then 1 else 0)%nat ->
  picture.step s e = Some s' ->
  picture.running s' = (if picture.isGenerating s' then 1 else 0)%nat.
Proof.
  intros Hinv Hstep. destruct s as [g n], e; cbn in *.
  - injection Hstep as <-. unfold picture.triggerUpdate. cbn.
    destruct g; cbn; lia.
  - destruct n as [|n]; [discriminate|]. injection Hstep as <-. cbn.
    destruct g; lia.
Qed.

(** X25.  At most one generation runs at a time: after any sequence of calls
    of [triggerUpdate] and of goroutines finishing, the number of running
    goroutines is 1 when [isGenerating] is set and 0 when it is not, so a
    call made while a generation runs starts nothing. *)
Theorem triggerUpdate_one_generation (es : list picture.event) (s : picture.Sched) :
  picture.run (picture.mkSched false 0) es = Some s ->
  picture.running s = (if picture.isGenerating s then 1 else 0)%nat /\
  (picture.running s <= 1)%nat.
Proof.
  unfold picture.run. intros Hrun.
  assert (Hinv : forall s0,
            picture.running s0 = (if picture.isGenerating s0 then 1 else 0)%nat ->
            foldl (fun acc e => s ← acc; picture.step s e) (Some s0) es = Some s ->
            picture.running s = (if picture.isGenerating s then 1 else 0)%nat).
  { clear Hrun. induction es as [|e es IH]; intros s0 H0 Hrun.
    - cbn in Hrun. by injection Hrun as <-.
    - cbn [foldl mbind option_bind] in Hrun.
      destruct (picture.step s0 e) as [s1|] eqn:Hs.
      + eapply IH; [|exact Hrun]. eapply step_one_goroutine; eauto.
      + exfalso. clear -Hrun. induction es; cbn in Hrun; [discriminate|auto]. }
  specialize (Hinv (picture.mkSched false 0) eq_refl Hrun). split; [exact Hinv|].
  rewrite Hinv. destruct (picture.isGenerating s); lia.
Qed.

Lemma triggerUpdate_one_generation_witness :
  picture.run (picture.mkSched false 0)
    [picture.Trigger; picture.Trigger; picture.Finish; picture.Trigger]
    = Some (picture.mkSched true 1) /\
  picture.running (picture.mkSched true 1)
    = (if picture.isGenerating (picture.mkSched true 1) then 1 else 0)%nat /\
  (picture.running (picture.mkSched true 1) <= 1)%nat.
Proof.
  split; [reflexivity|].
  apply (triggerUpdate_one_generation
           [picture.Trigger; picture.Trigger; picture.Finish; picture.Trigger]).
  reflexivity.
Defined.

(** *** One point per cell *)

Section Density.
Context `{Rand R}.
Variables Cos Sin : Q -> Q.
Variables minDistance width height : Z.
Variable noiseMap : gmap poi.Point Q.
Variable seaLevel : Q.
Hypothesis Hm : 0 < minDistance.

Local Abbreviation gw := (poi.gridWidth minDistance width).
Local Abbreviation gh := (poi.gridHeight minDistance height).
Local Abbreviation cell x := (int (float64 x / poi.cellSize minDistance)).
Local Abbreviation onLand := (poi.onLand noiseMap seaLevel).
Local Abbreviation inBounds := (poi.inBounds width height).
Local Abbreviation samplerInv := (samplerInv minDistance width height).
Local Abbreviation PoissonDisk :=
  (poi.PoissonDisk Cos Sin minDistance width height noiseMap seaLevel).

(** The invariant of the sampler holds of the list that is returned. *)
Lemma PoissonDisk_final (fuel : nat) (r : R) (pts : list poi.Point) (n : Z) :
  PoissonDisk fuel r = Done (pts, n) ->
  exists g, samplerInv pts g /\ Forall (fun q => onLand q = true) pts.
Proof.
  intros Hrun.
  apply PoissonDisk_Done in Hrun as (g0 & sp & r1 & g & Hg0 & Hseek & Hset & Hact & _).
  apply seekLand_Done in Hseek as [Hl Hsp].
  apply makeGrid_shape in Hg0.
  pose proof (samplerInv_start _ _ _ _ _ _ Hg0 Hsp Hset) as Hinv.
  apply (activeLoop_invariant Cos Sin minDistance width height noiseMap seaLevel
           (fun pts g => samplerInv pts g /\ Forall (fun q => onLand q = true) pts))
    in Hact; [exact Hact | |].
  - intros ps g1 np g2 [HI Hps] Hb Hl' Hw Hs. split.
    + exact (samplerInv_accept Cos Sin minDistance width height seaLevel Hm
               _ _ _ _ HI Hb Hw Hs).
    + apply Forall_app. split; [exact Hps | by apply Forall_singleton].
  - cbn [poi.points poi.grid]. split; [exact Hinv | by apply Forall_singleton].
Qed.

(** X26.  When the origin is not land, no two points of the returned list
    share a grid cell, so there are at most [gridWidth * gridHeight] of
    them. *)
Theorem PoissonDisk_one_point_per_cell (fuel : nat) (r : R)
    (pts : list poi.Point) (n : Z) :
  onLand poi.zero = false ->
  PoissonDisk fuel r = Done (pts, n) ->
  (forall i j a b, pts !! i = Some a -> pts !! j = Some b ->
     cell (poi.X a) = cell (poi.X b) -> cell (poi.Y a) = cell (poi.Y b) -> i = j) /\
  (length pts <= Z.to_nat gw * Z.to_nat gh)%nat.
Proof.
  intros Hzero Hrun.
  apply PoissonDisk_final in Hrun as (g & (_ & Hin & _ & Hsep) & Hland).
  rewrite Forall_forall in Hin. rewrite Forall_forall in Hland.
  assert (Hnz : forall a, a ∈ pts -> a <> poi.zero).
  { intros a Ha ->. rewrite (Hland _ Ha) in Hzero. discriminate. }
  assert (Hcell : forall i j a b, (i < j)%nat -> pts !! i = Some a -> pts !! j = Some b ->
            cell (poi.X a) = cell (poi.X b) -> cell (poi.Y a) = cell (poi.Y b) -> False).
  { intros i j a b Hij Ha Hb Hx Hy.
    pose proof (list_elem_of_lookup_2 _ _ _ Ha) as Hain.
    pose proof (list_elem_of_lookup_2 _ _ _ Hb) as Hbin.
    destruct (inBounds_cells minDistance width height Hm _ (Hin _ Hain)) as ((? & ?) & _).
    destruct (inBounds_cells minDistance width height Hm _ (Hin _ Hbin)) as ((? & ?) & _).
    pose proof (Hsep i j a b Hij Ha Hb (Hnz _ Hain)) as Hfar.
    rewrite (same_cell_tooClose minDistance Hm b a) in Hfar by (try lia; congruence).
    discriminate. }
  assert (Hinj : forall i j a b, pts !! i = Some a -> pts !! j = Some b ->
            cell (poi.X a) = cell (poi.X b) -> cell (poi.Y a) = cell (poi.Y b) -> i = j).
  { intros i j a b Ha Hb Hx Hy.
    destruct (Nat.lt_trichotomy i j) as [Hlt|[Heq|Hgt]]; [|exact Heq|].
    - destruct (Hcell i j a b Hlt Ha Hb Hx Hy).
    - destruct (Hcell j i b a Hgt Hb Ha (eq_sym Hx) (eq_sym Hy)). }
  split; [exact Hinj|].
  set (f := fun q : poi.Point => (cell (poi.X q), cell (poi.Y q))).
  assert (Hlen : (length (f <$> pts) <= length (list_prod (seqZ 0 gw) (seqZ 0 gh)))%nat).
  { apply submseteq_length, NoDup_submseteq.
    - apply NoDup_fmap_2_strong.
      + intros a b Ha Hb Hf. injection Hf as Hx Hy.
        apply list_elem_of_lookup_1 in Ha as [i Hi].
        apply list_elem_of_lookup_1 in Hb as [j Hj].
        pose proof (Hinj i j a b Hi Hj Hx Hy) as <-. congruence.
      + apply NoDup_alt. intros i j a Hi Hj. by eapply Hinj.
    - intros c Hc. apply list_elem_of_fmap in Hc as (q & -> & Hq).
      destruct (inBounds_cells minDistance width height Hm _ (Hin _ Hq)) as (_ & Hcx & Hcy).
      apply list_elem_of_In, in_prod; apply list_elem_of_In, elem_of_seqZ;
        unfold f; cbn [fst snd]; lia. }
  rewrite length_fmap, length_prod, !length_seqZ in Hlen. exact Hlen.
Qed.

(** X27.  When [minDistance] exceeds the diagonal of the raster and the start
    point is not the origin, every candidate is rejected and [PoissonDisk]
    returns the start point alone, after one iteration of the active loop. *)
Theorem PoissonDisk_large_minDistance (fuel : nat) (r r1 : R) (startPoint : poi.Point) :
  (width - 1) ^ 2 + (height - 1) ^ 2 < minDistance ^ 2 ->
  poi.seekLand width height noiseMap seaLevel (S fuel) r = Done (startPoint, r1) ->
  startPoint <> poi.zero ->
  PoissonDisk (S fuel) r = Done ([startPoint], 1).
Proof.
  intros Hbig Hseek Hnz.
  pose proof (seekLand_Done _ _ _ _ _ _ _ _ Hseek) as [Hl Hsp].
  pose proof Hsp as Hraster. apply inBounds_spec in Hraster as [Hx Hy].
  unfold poi.PoissonDisk. cbv zeta.
  rewrite makeGrid_Some by lia. rewrite Hseek.
  destruct (inBounds_cells minDistance width height Hm _ Hsp) as (_ & Hcx & Hcy).
  destruct (gridSet_in_range _ gw gh _ _ startPoint
              (gridShape_replicate gw gh) Hcx Hcy) as [g Hg].
  rewrite Hg.
  pose proof (samplerInv_start _ _ _ _ _ _ (gridShape_replicate gw gh) Hsp Hg) as Hinv.
  cbn [poi.activeLoop poi.activePoints poi.rng].
  pose proof (Intn_range (Z.of_nat (length [startPoint])) r1 ltac:(simpl; lia)) as Hidx.
  destruct (Intn _ r1) as [randomIndex r2]. cbn [fst length] in Hidx.
  assert (randomIndex = 0) as -> by lia.
  change (index [startPoint] 0) with (Some startPoint).
  destruct (attempts_is_Some Cos Sin minDistance width height noiseMap seaLevel Hm
              30 startPoint
              (poi.withRng (poi.mkState [startPoint] [startPoint] g r1) r2)
              ltac:(by destruct Hinv)) as (found & st' & Ha & _).
  rewrite Ha. apply attempts_cases in Ha.
  cbn [poi.withRng poi.points poi.activePoints poi.grid] in Ha.
  destruct Ha as [(-> & Hp & Hact & _) | (-> & np & Hb & _ & Hc & Hs & _)].
  - cbn [poi.points poi.activePoints]. rewrite Hp, Hact.
    change (delete (Z.to_nat 0) [startPoint]) with (@nil poi.Point).
    destruct fuel; reflexivity.
  - exfalso.
    pose proof (samplerInv_accept Cos Sin minDistance width height seaLevel Hm
                  _ _ _ _ Hinv Hb Hc Hs) as (_ & _ & _ & Hsep).
    pose proof (Hsep 0%nat 1%nat startPoint np ltac:(lia) eq_refl eq_refl Hnz) as Hfar.
    apply inBounds_spec in Hb as [Hnx Hny].
    unfold poi.tooClose in Hfar. apply andb_false_iff in Hfar as [Hfar|Hfar].
    + apply Z.ltb_ge in Hfar. lia.
    + apply Z.ltb_ge in Hfar. rewrite !Z.pow_2_r in *. nia.
Qed.

(** X28.  A coordinate that is missing from [noiseMap] reads as height 0: when
    the float64 sum [seaLevel + 0.05] of the land test is positive, every
    returned point is a key of [noiseMap], stored with a height of at least
    that sum. *)
Theorem PoissonDisk_points_are_keys (fuel : nat) (r : R)
    (pts : list poi.Point) (n : Z) :
  (0 < poi.landThreshold seaLevel)%Q ->
  PoissonDisk fuel r = Done (pts, n) ->
  Forall (fun q => exists v, noiseMap !! q = Some v /\
                             (poi.landThreshold seaLevel <= v)%Q) pts.
Proof.
  intros Hpos Hrun. apply PoissonDisk_final in Hrun as (_ & _ & Hland).
  eapply Forall_impl; [exact Hland|]. intros q Hq. cbv beta in Hq.
  apply (onLand_spec noiseMap seaLevel) in Hq. unfold poi.mapGet in Hq.
  destruct (noiseMap !! q) as [v|]; cbn [default] in Hq; [eauto | lra].
Qed.

End Density.

(** A run that returns two points, in the cells 0 and 2 of the first row. *)
Lemma PoissonDisk_one_point_per_cell_witness :
  0 < 2 /\
  poi.onLand inputs.islands inputs.seaLevel0 poi.zero = false /\
  poi.PoissonDisk inputs.cosT inputs.sinT 2 4 3 inputs.islands inputs.seaLevel0
    24 [1 # 4; 0; 0; 0; 0]%Q = Done ([poi.mkPoint 1 0; poi.mkPoint 3 0], 2) /\
  int (float64 1 / poi.cellSize 2) = 0 /\ int (float64 3 / poi.cellSize 2) = 2 /\
  (forall i j a b,
     [poi.mkPoint 1 0; poi.mkPoint 3 0] !! i = Some a ->
     [poi.mkPoint 1 0; poi.mkPoint 3 0] !! j = Some b ->
     int (float64 (poi.X a) / poi.cellSize 2) = int (float64 (poi.X b) / poi.cellSize 2) ->
     int (float64 (poi.Y a) / poi.cellSize 2) = int (float64 (poi.Y b) / poi.cellSize 2) ->
     i = j) /\
  (length [poi.mkPoint 1 0; poi.mkPoint 3 0]
     <= Z.to_nat (poi.gridWidth 2 4) * Z.to_nat (poi.gridHeight 2 3))%nat.
Proof.
  split; [lia|]. split; [vm_compute; reflexivity|]. split; [vm_compute; reflexivity|].
  split; [vm_compute; reflexivity|]. split; [vm_compute; reflexivity|].
  apply (PoissonDisk_one_point_per_cell inputs.cosT inputs.sinT 2 4 3
           inputs.islands inputs.seaLevel0 ltac:(lia) 24 [1 # 4; 0; 0; 0; 0]%Q
           [poi.mkPoint 1 0; poi.mkPoint 3 0] 2).
  - vm_compute. reflexivity.
  - vm_compute. reflexivity.
Defined.

Lemma PoissonDisk_large_minDistance_witness :
  0 < 3 /\
  (3 - 1) ^ 2 + (3 - 1) ^ 2 < 3 ^ 2 /\
  poi.seekLand 3 3 {[poi.mkPoint 1 1 := 1%Q]} (1 # 2) 18 [1 # 2; 1 # 2]%Q
    = Done (poi.mkPoint 1 1, []) /\
  poi.mkPoint 1 1 <> poi.zero /\
  poi.PoissonDisk inputs.cosT inputs.sinT 3 3 3 {[poi.mkPoint 1 1 := 1%Q]} (1 # 2)
    18 [1 # 2; 1 # 2]%Q = Done ([poi.mkPoint 1 1], 1).
Proof.
  split; [lia|]. split; [lia|]. split; [vm_compute; reflexivity|].
  split; [discriminate|].
  apply (PoissonDisk_large_minDistance inputs.cosT inputs.sinT 3 3 3
           {[poi.mkPoint 1 1 := 1%Q]} (1 # 2) ltac:(lia) 17 [1 # 2; 1 # 2]%Q []
           (poi.mkPoint 1 1)).
  - lia.
  - vm_compute. reflexivity.
  - discriminate.
Defined.

Lemma PoissonDisk_points_are_keys_witness :
  0 < 2 /\
  (0 < poi.landThreshold inputs.seaLevel0)%Q /\
  poi.PoissonDisk inputs.cosT inputs.sinT 2 4 3 inputs.islands inputs.seaLevel0
    24 [1 # 4; 0; 0; 0; 0]%Q = Done ([poi.mkPoint 1 0; poi.mkPoint 3 0], 2) /\
  Forall (fun q => exists v, inputs.islands !! q = Some v /\
                             (poi.landThreshold inputs.seaLevel0 <= v)%Q)
    [poi.mkPoint 1 0; poi.mkPoint 3 0].
Proof.
  split; [lia|]. split; [reflexivity|]. split; [vm_compute; reflexivity|].
  apply (PoissonDisk_points_are_keys inputs.cosT inputs.sinT 2 4 3
           inputs.islands inputs.seaLevel0 ltac:(lia) 24 [1 # 4; 0; 0; 0; 0]%Q
           [poi.mkPoint 1 0; poi.mkPoint 3 0] 2).
  - reflexivity.
  - vm_compute. reflexivity.
Defined.
